(** * moyen-age-fire: procedural world, collision, hitscan combat and actor AI

    A shallow embedding of the simulation core of the final variant of the
    game ([generateChunk], [checkCollision], the [GameController] frame
    callback and the [WorldGen] streaming callback), together with the
    generator and the [WorldGenerator] of the earlier chunked variant, which
    is the only variant that evicts chunks.

    Numbers.  A JavaScript [number] that holds a count (ammunition, score,
    gold, a chunk coordinate, a loop index) is a [Z]; every other [number]
    (coordinates, hit points, health, time, the damage multiplier) is a real
    number, with [Math.sin], [Math.cos], [Math.sqrt], [Math.floor], [Math.abs]
    and [Math.max] read as the real functions they approximate.  Rounding,
    NaN and the infinities of IEEE doubles are outside this model.

    State.  The React state and the refs of a session are one record,
    [World].  An updater handed to [setGameState], [setEnemies] or
    [setObstacles] is applied where it is queued, in the order of the source,
    and a frame reads the state the previous event left: one render separates
    two events.  The clock, the mouse button, the camera pose left by the
    movement step and the draws of [Math.random] are inputs of a frame.  The
    tracer beams and the camera shake, which no other state reads, are left
    out. *)

From Stdlib Require Import Reals Lra Lia ZArith Ascii String.
From stdpp Require Import base decidable list strings gmap pretty.

#[local] Open Scope R_scope.

(** ** Numbers *)

#[global] Instance Rlt_decision (a b : R) : Decision (a < b) := Rlt_dec a b.
#[global] Instance Rle_decision (a b : R) : Decision (a <= b) := Rle_dec a b.
#[global] Instance Req_decision : EqDecision R := Req_dec_T.

(** [a < b], [a > b], [a <= b] and [a === b] as JavaScript evaluates them. *)
Definition ltb (a b : R) : bool := bool_decide (a < b).
Definition gtb (a b : R) : bool := bool_decide (b < a).
Definition leb (a b : R) : bool := bool_decide (a <= b).
Definition eqb (a b : R) : bool := bool_decide (a = b).

(** [Math.floor], as an integer and as a number. *)
Definition floorZ (a : R) : Z := Int_part a.
Definition Math_floor (a : R) : R := IZR (floorZ a).

(** ** Data model (types.ts of the final variant) *)

Record Vector3 := mkVector3 { v_x : R; v_y : R; v_z : R }.

Inductive ObstacleType :=
  | tree | rock | ruin | mountain | wall | roof | shop_table | well | signpost.

#[global] Instance ObstacleType_eq_dec : EqDecision ObstacleType.
Proof. solve_decision. Defined.

Record Dims := mkDims { d_w : R; d_d : R; d_h : R }.

Record Obstacle := mkObstacle {
  o_id : string;
  o_type : ObstacleType;
  o_position : Vector3;
  o_rotation : R;
  o_scale : Vector3;
  o_radius : R;
  o_dims : option Dims
}.

(** ** Physics & collision *)

(** The oriented-box test of a wall: the planar offset is rotated by the
    opposite of the wall's yaw and compared with the half extents grown by
    the actor's radius. *)
Definition wallBlocks (dx dz : R) (obs : Obstacle) (dims : Dims) (radius : R) : bool :=
  let c := cos (- o_rotation obs) in
  let s := sin (- o_rotation obs) in
  let localX := dx * c - dz * s in
  let localZ := dx * s + dz * c in
  let halfW := d_w dims / 2 + radius in
  let halfD := d_d dims / 2 + radius in
  ltb (Rabs localX) halfW && ltb (Rabs localZ) halfD.

(** The circular test of any other obstacle, guarded by [obs.radius > 0]. *)
Definition circleBlocks (dx dz : R) (obs : Obstacle) (radius : R) : bool :=
  gtb (o_radius obs) 0 &&
  (let distSq := dx * dx + dz * dz in
   let minDist := o_radius obs + radius in
   ltb distSq (minDist * minDist)).

(** The broad-phase [continue]. *)
Definition skipped (dx dz : R) : bool := gtb (Rabs dx) 15 || gtb (Rabs dz) 15.

(** What one iteration of the loop of [checkCollision] decides for [obs]:
    [true] is the [return true]. *)
Definition blocksAt (position : Vector3) (radius : R) (obs : Obstacle) : bool :=
  let dx := v_x position - v_x (o_position obs) in
  let dz := v_z position - v_z (o_position obs) in
  if skipped dx dz then false
  else match o_type obs, o_dims obs with
       | wall, Some dims => wallBlocks dx dz obs dims radius
       | _, _ => circleBlocks dx dz obs radius
       end.

Fixpoint checkCollision (position : Vector3) (obstacles : list Obstacle) (radius : R) : bool :=
  match obstacles with
  | [] => false
  | obs :: rest =>
      if blocksAt position radius obs then true
      else checkCollision position rest radius
  end.

(** ** Terrain & noise *)

(** [Math.trunc]-style rounding toward zero, used by the remainder [%]. *)
Definition truncZ (a : R) : Z :=
  if bool_decide (a < 0) then (- floorZ (- a))%Z else floorZ a.

(** [a % b] on numbers: the remainder has the sign of the dividend. *)
Definition js_rem (a b : R) : R := a - b * IZR (truncZ (a / b)).

(** [Math.pow(b, e)] for the only use the program makes of it: a base that is
    not negative and a positive exponent. *)
Definition Math_pow (b e : R) : R :=
  if bool_decide (b = 0) then 0 else Rpower b e.

(** [Math.atan2(y, x)]. *)
Definition Math_atan2 (y x : R) : R :=
  if bool_decide (0 < x) then atan (y / x)
  else if bool_decide (x < 0) then
    (if bool_decide (0 <= y) then atan (y / x) + PI else atan (y / x) - PI)
  else if bool_decide (0 < y) then PI / 2
  else if bool_decide (y < 0) then - (PI / 2)
  else 0.

Definition noise (x z seed : R) : R :=
  let sn := sin (x * 12.9898 + z * 78.233 + js_rem seed 1000) in
  let s := sn * 43758.5453123 in
  s - Math_floor s.

Definition smoothNoise (x z seed : R) : R :=
  let i := Math_floor x in
  let j := Math_floor z in
  let f := x - i in
  let g := z - j in
  let a := noise i j seed in
  let b := noise (i + 1) j seed in
  let c := noise i (j + 1) seed in
  let d := noise (i + 1) (j + 1) seed in
  let u := f * f * f * (f * (f * 6 - 15) + 10) in
  let v := g * g * g * (g * (g * 6 - 15) + 10) in
  (1 - u) * (1 - v) * a + u * (1 - v) * b + (1 - u) * v * c + u * v * d.

Definition getRoadInfluence (x z seed : R) : R :=
  let scale := 0.005 in
  let n := smoothNoise (x * scale) (z * scale) seed in
  let dist := Rabs (n - 0.5) in
  let roadWidth := 0.05 in
  if ltb dist roadWidth then 1 else 0.

Definition getTerrainHeight (x z seed : R) : R :=
  let amp := 10 in
  let freq := 0.02 in
  let y := 0 + smoothNoise (x * freq) (z * freq) seed * amp in
  let y := y + smoothNoise (x * freq * 2) (z * freq * 2) seed * (amp / 2) in
  let height := Math_pow (Rabs y) 1.2 in
  let road := getRoadInfluence x z seed in
  if gtb road 0 then
    let smoothBase := smoothNoise (x * freq) (z * freq) seed * amp in
    height * 0.1 + smoothBase * 0.9
  else height.

(** ** Generation logic *)

Definition CHUNK_SIZE : R := 60.
Definition RENDER_DISTANCE : Z := 2.
Definition WALL_HEIGHT : R := 5.

Definition seededRandom (seed : R) : R :=
  let x := sin seed * 10000 in
  x - Math_floor x.

(** The conversion a bitwise operator applies to each operand (ToInt32). *)
Definition toInt32 (n : Z) : Z := ((n + 2 ^ 31) mod 2 ^ 32 - 2 ^ 31)%Z.

(** [chunkX * 73856093 ^ chunkZ * 19349663 ^ Math.floor(worldSeed)]: the
    products bind tighter than the exclusive or. *)
Definition chunkSeedOf (chunkX chunkZ : Z) (worldSeed : R) : Z :=
  Z.lxor (Z.lxor (toInt32 (chunkX * 73856093)) (toInt32 (chunkZ * 19349663)))
         (toInt32 (floorZ worldSeed)).

Inductive BuildingType := cottage | tower | market.

Definition unitScale : Vector3 := mkVector3 1 1 1.

(** A [for (let i = 0; i < n; i++)] loop whose body pushes the obstacles
    [body i] (none after a [continue]). *)
Definition forRange (n : nat) (body : Z -> list Obstacle) : list Obstacle :=
  flat_map body (map Z.of_nat (seq 0 n)).

Record WallDef := mkWallDef { wd_tag : string; wd_w : R; wd_pos_x : R; wd_pos_z : R; wd_rot : R }.

Definition generateBuilding (type : BuildingType) (x z y rotation : R)
    (idPrefix : string) : list Obstacle :=
  match type with
  | market =>
      let w := 6 in let d := 6 in let h := 4 in
      let pillar (dx dz : Z) :=
        mkObstacle (idPrefix +:+ ":pillar:" +:+ pretty dx +:+ ":" +:+ pretty dz) wall
          (mkVector3 (x + IZR dx * (w / 2.2)) (y + h / 2) (z + IZR dz * (d / 2.2)))
          0 unitScale 0.5 (Some (mkDims 0.5 0.5 h)) in
      flat_map (fun dx => map (pillar dx) [(-1)%Z; 1%Z]) [(-1)%Z; 1%Z]
      ++ [ mkObstacle (idPrefix +:+ ":roof") wall (mkVector3 x (y + h) z)
             0 unitScale 0 (Some (mkDims w d 0.5));
           mkObstacle (idPrefix +:+ ":shop") shop_table (mkVector3 x y z)
             rotation unitScale 3 None ]
  | tower =>
      let w := 5 in let d := 5 in let h := 12 in
      let wallDefs :=
        [ mkWallDef "0" w 0 (- d / 2) 0;
          mkWallDef "1" w 0 (d / 2) 0;
          mkWallDef "2" d (- w / 2) 0 (PI / 2);
          mkWallDef "3" d (w / 2) 0 (PI / 2) ] in
      map (fun wd =>
             let c := cos rotation in
             let s := sin rotation in
             let wx := x + (wd_pos_x wd * c - wd_pos_z wd * s) in
             let wz := z + (wd_pos_x wd * s + wd_pos_z wd * c) in
             mkObstacle (idPrefix +:+ ":wall:" +:+ wd_tag wd) wall
               (mkVector3 wx (y + h / 2) wz) (rotation + wd_rot wd)
               unitScale 1 (Some (mkDims (wd_w wd) 1 h)))
          wallDefs
      ++ [ mkObstacle (idPrefix +:+ ":roof") roof (mkVector3 x (y + h) z)
             rotation (mkVector3 (w + 2) 6 (d + 2)) 0 None ]
  | cottage =>
      let width := 8 in let depth := 8 in let h := WALL_HEIGHT in
      let walls :=
        [ mkWallDef "back" width 0 (- depth / 2) 0;
          mkWallDef "left" depth (- width / 2) 0 (PI / 2);
          mkWallDef "right" depth (width / 2) 0 (PI / 2) ] in
      let doorGap := 3 in
      let frontWallW := (width - doorGap) / 2 in
      let fOffset := depth / 2 in
      let flX := x + (- frontWallW / 2 - doorGap / 2) * cos rotation - fOffset * sin rotation in
      let flZ := z + (- frontWallW / 2 - doorGap / 2) * sin rotation + fOffset * cos rotation in
      let frX := x + (frontWallW / 2 + doorGap / 2) * cos rotation - fOffset * sin rotation in
      let frZ := z + (frontWallW / 2 + doorGap / 2) * sin rotation + fOffset * cos rotation in
      map (fun w =>
             let c := cos rotation in
             let s := sin rotation in
             let wx := x + (wd_pos_x w * c - wd_pos_z w * s) in
             let wz := z + (wd_pos_x w * s + wd_pos_z w * c) in
             mkObstacle (idPrefix +:+ ":wall:" +:+ wd_tag w) wall
               (mkVector3 wx (y + h / 2) wz) (rotation + wd_rot w)
               unitScale 1 (Some (mkDims (wd_w w) 1 h)))
          walls
      ++ [ mkObstacle (idPrefix +:+ ":wall:fl") wall (mkVector3 flX (y + h / 2) flZ)
             rotation unitScale 1 (Some (mkDims frontWallW 1 h));
           mkObstacle (idPrefix +:+ ":wall:fr") wall (mkVector3 frX (y + h / 2) frZ)
             rotation unitScale 1 (Some (mkDims frontWallW 1 h));
           mkObstacle (idPrefix +:+ ":roof") roof (mkVector3 x (y + h) z)
             rotation (mkVector3 (width + 1) 4 (depth + 1)) 0 None ]
  end.

(** The key [`${x}:${z}`] of a chunk, the prefix of the ids of its obstacles. *)
Definition chunkKey (cx cz : Z) : string := pretty cx +:+ ":" +:+ pretty cz.

Definition generateChunk (chunkX chunkZ : Z) (worldSeed : R) : list Obstacle :=
  let chunkSeed := chunkSeedOf chunkX chunkZ worldSeed in
  let getRand (offset : Z) := seededRandom (IZR (chunkSeed + offset)) in
  let worldX := IZR chunkX * CHUNK_SIZE in
  let worldZ := IZR chunkZ * CHUNK_SIZE in
  let centerX := worldX + CHUNK_SIZE / 2 in
  let centerZ := worldZ + CHUNK_SIZE / 2 in
  let centerRoadInf := getRoadInfluence centerX centerZ worldSeed in
  let villageChance := if gtb centerRoadInf 0 then 0.6 else 0.96 in
  let isVillage := gtb (getRand 999%Z) villageChance in
  let village :=
    if isVillage then
      let cy := getTerrainHeight centerX centerZ worldSeed in
      let shop :=
        if eqb (getRoadInfluence centerX centerZ worldSeed) 0 then
          generateBuilding market centerX centerZ cy 0 (chunkKey chunkX chunkZ +:+ ":market")
        else [] in
      let houseCount := (3 + floorZ (getRand 888%Z * 3))%Z in
      let radius := 15 in
      let houses :=
        forRange (Z.to_nat houseCount) (fun i =>
          let angle := (PI * 2 * IZR i) / IZR houseCount + getRand i * 0.5 in
          let dist := radius + getRand (i + 50)%Z * 10 in
          let hx := centerX + cos angle * dist in
          let hz := centerZ + sin angle * dist in
          if gtb (getRoadInfluence hx hz worldSeed) 0 then []
          else
            let y := getTerrainHeight hx hz worldSeed in
            let rot := Math_atan2 (centerZ - hz) (centerX - hx) in
            let bType := if gtb (getRand (i * 99)%Z) 0.7 then tower else cottage in
            generateBuilding bType hx hz y rot
              (chunkKey chunkX chunkZ +:+ ":b" +:+ pretty i)) in
      let theWell :=
        if gtb (getRand 50%Z) 0.5 then
          let wx := centerX + 5 in
          let wz := centerZ + 5 in
          let wy := getTerrainHeight wx wz worldSeed in
          [ mkObstacle (chunkKey chunkX chunkZ +:+ ":well") well (mkVector3 wx wy wz)
              0 unitScale 2 None ]
        else [] in
      shop ++ houses ++ theWell
    else [] in
  let treeCount := if isVillage then 2%Z else (floorZ (getRand 1%Z * 10) + 2)%Z in
  let trees :=
    forRange (Z.to_nat treeCount) (fun i =>
      let lx := getRand (i * 10)%Z * CHUNK_SIZE - CHUNK_SIZE / 2 in
      let lz := getRand (i * 10 + 1)%Z * CHUNK_SIZE - CHUNK_SIZE / 2 in
      let wx := worldX + lx + CHUNK_SIZE / 2 in
      let wz := worldZ + lz + CHUNK_SIZE / 2 in
      if gtb (getRoadInfluence wx wz worldSeed) 0 then []
      else
        let y := getTerrainHeight wx wz worldSeed in
        [ mkObstacle (chunkKey chunkX chunkZ +:+ ":tree:" +:+ pretty i) tree
            (mkVector3 wx y wz) (getRand (i * 10 + 2)%Z * PI)
            (mkVector3 (1 + getRand i * 0.5) (1 + getRand (i + 5)%Z) (1 + getRand i * 0.5))
            1 None ]) in
  village ++ trees.

(** ** three.js vectors and rays

    The operations of the rendering library the simulation calls, after the
    library's definitions. *)

Definition v_add (a b : Vector3) : Vector3 :=
  mkVector3 (v_x a + v_x b) (v_y a + v_y b) (v_z a + v_z b).
Definition v_sub (a b : Vector3) : Vector3 :=
  mkVector3 (v_x a - v_x b) (v_y a - v_y b) (v_z a - v_z b).
Definition multiplyScalar (a : Vector3) (k : R) : Vector3 :=
  mkVector3 (v_x a * k) (v_y a * k) (v_z a * k).
Definition v_dot (a b : Vector3) : R :=
  v_x a * v_x b + v_y a * v_y b + v_z a * v_z b.
Definition lengthSq (a : Vector3) : R := v_dot a a.
Definition v_length (a : Vector3) : R := sqrt (lengthSq a).
Definition distanceToSquared (a b : Vector3) : R := lengthSq (v_sub a b).
Definition distanceTo (a b : Vector3) : R := sqrt (distanceToSquared a b).

(** [normalize] divides by [length() || 1]. *)
Definition normalize (a : Vector3) : Vector3 :=
  let l := v_length a in
  multiplyScalar a (/ (if bool_decide (l = 0) then 1 else l)).

Record Ray := mkRay { origin : Vector3; direction : Vector3 }.

Definition ray_at (r : Ray) (t : R) : Vector3 :=
  v_add (origin r) (multiplyScalar (direction r) t).

Definition distanceSqToPoint (r : Ray) (point : Vector3) : R :=
  let directionDistance := v_dot (v_sub point (origin r)) (direction r) in
  if ltb directionDistance 0 then distanceToSquared (origin r) point
  else distanceToSquared (ray_at r directionDistance) point.

(** ** Actors and player state *)

Inductive EnemyType := peasant | knight | heavy | villager.

#[global] Instance EnemyType_eq_dec : EqDecision EnemyType.
Proof. solve_decision. Defined.

Record EnemyConfig := mkConfig {
  cfg_hp : R; cfg_speed : R; cfg_score : Z; cfg_gold : Z; cfg_scale : R; cfg_color : string
}.

Definition ENEMY_CONFIG (t : EnemyType) : EnemyConfig :=
  match t with
  | peasant => mkConfig 40 7 50 10 0.8 "#8B4513"
  | knight => mkConfig 100 4 100 25 1.0 "#666666"
  | heavy => mkConfig 300 2.5 300 100 1.4 "#2F4F4F"
  | villager => mkConfig 30 5 (-100) 0 0.8 "#3b82f6"
  end.

(** [isDead] is [false] where the source leaves the optional field unset. *)
Record Enemy := mkEnemy {
  e_id : string;
  e_type : EnemyType;
  e_position : Vector3;
  e_hp : R;
  e_maxHp : R;
  e_speed : R;
  e_isAttacking : bool;
  e_isDead : bool;
  e_deadTime : option R;
  e_velocity : option Vector3
}.

Record GameState := mkGameState {
  score : Z;
  gold : Z;
  health : R;
  wave : Z;
  isPlaying : bool;
  ammo : Z;
  damageMultiplier : R
}.

Definition WALK_SPEED : R := 15.
Definition FIRE_RATE : R := 100.
Definition ENEMY_SPAWN_RATE : R := 2000.
Definition MAX_AMMO : Z := 30.

(** The cues sent to the sound manager, in the order they are played. *)
Inductive Cue := playShoot | playReload | playEmpty | playBuy | playHit.

(** ** Combat resolution (the first [setEnemies] updater of the frame) *)

(** The point the ray is tested against: the actor's position lifted to the
    terrain plus 0.9 of its scale. *)
Definition torso (seed : R) (e : Enemy) : Vector3 :=
  let config := ENEMY_CONFIG (e_type e) in
  let y := getTerrainHeight (v_x (e_position e)) (v_z (e_position e)) seed
           + 0.9 * cfg_scale config in
  mkVector3 (v_x (e_position e)) y (v_z (e_position e)).

Definition hitboxSize (e : Enemy) : R := 2.0 * cfg_scale (ENEMY_CONFIG (e_type e)).

(** The three variables the first [map] assigns: [minDist], [hitId], [hitPoint]. *)
Record Scan := mkScan { minDist : R; hitId : option string; hitPoint : Vector3 }.

Definition scanStep (ray : Ray) (camera : Vector3) (seed : R) (s : Scan) (e : Enemy) : Scan :=
  if e_isDead e then s
  else
    let ePos := torso seed e in
    let distToRay := distanceSqToPoint ray ePos in
    if ltb distToRay (hitboxSize e * hitboxSize e) then
      let distToCam := distanceTo camera ePos in
      if ltb distToCam (minDist s) then mkScan distToCam (Some (e_id e)) ePos
      else s
    else s.

Definition scanEnemies (ray : Ray) (camera : Vector3) (seed : R) (prev : list Enemy) : Scan :=
  fold_left (scanStep ray camera seed) prev (mkScan 100 None (ray_at ray 100)).

(** The second [map]: the actor whose id is [hitId] takes the shot. *)
Definition applyHit (hit : option string) (dmgMult time : R) (ray : Ray) (e : Enemy) : Enemy :=
  if bool_decide (Some (e_id e) = hit) then
    let newHp := e_hp e - 35 * dmgMult in
    if leb newHp 0 then
      mkEnemy (e_id e) (e_type e) (e_position e) 0 (e_maxHp e) (e_speed e)
        (e_isAttacking e) true (Some time)
        (Some (v_add (multiplyScalar (normalize (direction ray)) 8) (mkVector3 0 4 0)))
    else
      mkEnemy (e_id e) (e_type e) (e_position e) newHp (e_maxHp e) (e_speed e)
        (e_isAttacking e) (e_isDead e) (e_deadTime e) (e_velocity e)
  else e.

(** [prev.find(e => e.id === hitId)]. *)
Definition findById (hit : option string) (l : list Enemy) : option Enemy :=
  find (fun e => bool_decide (Some (e_id e) = hit)) l.

(** [if (hitId)]: a hit and a non-empty id. *)
Definition truthyId (hit : option string) : bool :=
  match hit with Some s => negb (bool_decide (s = "")) | None => false end.

(** The kill test: the struck actor had [hp > 0] and has [hp === 0] now. *)
Definition killReward (hit : option string) (prev next : list Enemy) : option EnemyConfig :=
  if truthyId hit then
    match findById hit prev with
    | Some hitEnemy =>
        if gtb (e_hp hitEnemy) 0
           && match findById hit next with
              | Some e' => eqb (e_hp e') 0
              | None => false
              end
        then Some (ENEMY_CONFIG (e_type hitEnemy))
        else None
    | None => None
    end
  else None.

Definition addReward (cfg : option EnemyConfig) (g : GameState) : GameState :=
  match cfg with
  | Some c => mkGameState (score g + cfg_score c) (gold g + cfg_gold c) (health g)
                (wave g) (isPlaying g) (ammo g) (damageMultiplier g)
  | None => g
  end.

(** The whole updater: the next list of actors, the reward of a kill and the
    hit cue. *)
Definition hitscan (ray : Ray) (camera : Vector3) (seed dmgMult time : R)
    (prev : list Enemy) : list Enemy * option EnemyConfig * list Cue :=
  let s := scanEnemies ray camera seed prev in
  let nextEnemies := map (applyHit (hitId s) dmgMult time ray) prev in
  (nextEnemies, killReward (hitId s) prev nextEnemies,
   if truthyId (hitId s) then [playHit] else []).

(** ** Actor simulation (the last [setEnemies] updater of the frame) *)

Definition setPosition (e : Enemy) (p : Vector3) (attacking : bool) : Enemy :=
  mkEnemy (e_id e) (e_type e) p (e_hp e) (e_maxHp e) (e_speed e)
    attacking (e_isDead e) (e_deadTime e) (e_velocity e).

(** One call of the [map] callback: the actor it returns and what it adds to
    [damageDealt]. *)
Definition aiStep (camera : Vector3) (obstacles : list Obstacle) (seed delta : R)
    (e : Enemy) : Enemy * R :=
  if e_isDead e then (e, 0)
  else
    let pPos := mkVector3 (v_x camera) 0 (v_z camera) in
    let ePos := mkVector3 (v_x (e_position e)) 0 (v_z (e_position e)) in
    let dist := distanceTo pPos ePos in
    if gtb dist 50 then (e, 0)
    else
      let grounded (p : Vector3) (attacking : bool) :=
        setPosition e (mkVector3 (v_x p) (getTerrainHeight (v_x p) (v_z p) seed) (v_z p))
          attacking in
      if bool_decide (e_type e = villager) then
        if ltb dist 15 then
          let dir := normalize (v_sub ePos pPos) in
          (grounded (v_add ePos (multiplyScalar dir (e_speed e * delta))) (e_isAttacking e), 0)
        else (grounded ePos (e_isAttacking e), 0)
      else if ltb dist 1.5 then (grounded ePos true, 0.2)
      else
        let dir := normalize (v_sub pPos ePos) in
        let nextPos := v_add ePos (multiplyScalar dir (e_speed e * delta)) in
        if negb (checkCollision nextPos obstacles 0.2) then (grounded nextPos false, 0)
        else
          let sideStep := v_add nextPos (mkVector3 1 0 0) in
          if negb (checkCollision sideStep obstacles 0.2) then (grounded sideStep false, 0)
          else (grounded ePos false, 0).

(** The [map] over the actors, with [damageDealt] accumulated from 0. *)
Fixpoint aiMap (camera : Vector3) (obstacles : list Obstacle) (seed delta : R)
    (damageDealt : R) (prev : list Enemy) : list Enemy * R :=
  match prev with
  | [] => ([], damageDealt)
  | e :: rest =>
      let '(e', d) := aiStep camera obstacles seed delta e in
      let '(rest', total) := aiMap camera obstacles seed delta (damageDealt + d) rest in
      (e' :: rest', total)
  end.

(** The [filter]: a dead actor stays for 3000 ms after [deadTime || 0]. *)
Definition stillShown (time : R) (e : Enemy) : bool :=
  negb (e_isDead e) || ltb (time - default 0 (e_deadTime e)) 3000.

(** The health updater run when [damageDealt > 0]. *)
Definition takeDamage (damageDealt : R) (g : GameState) : GameState :=
  let nh := Rmax 0 (health g - damageDealt) in
  if eqb nh 0 && isPlaying g then
    mkGameState (score g) (gold g) 0 (wave g) false (ammo g) (damageMultiplier g)
  else
    mkGameState (score g) (gold g) nh (wave g) (isPlaying g) (ammo g) (damageMultiplier g).

Definition updateEnemies (camera : Vector3) (obstacles : list Obstacle) (seed delta time : R)
    (prev : list Enemy) : list Enemy * R :=
  let '(mapped, damageDealt) := aiMap camera obstacles seed delta 0 prev in
  (filter (fun e => stillShown time e = true) mapped, damageDealt).

(** ** Spawning *)

(** The four draws of [Math.random] of a spawn; the last one is read through
    [toString] as the id of the new actor. *)
Record SpawnDraws := mkDraws { r_angle : R; r_dist : R; r_type : R; r_id : string }.

Definition spawnType (rand : R) : EnemyType :=
  if ltb rand 0.2 then villager
  else if gtb rand 0.8 then heavy
  else if ltb rand 0.4 then peasant
  else knight.

Definition spawnEnemy (camera : Vector3) (seed : R) (d : SpawnDraws) : Enemy :=
  let angle := r_angle d * PI * 2 in
  let dist := 30 + r_dist d * 20 in
  let ex := v_x camera + cos angle * dist in
  let ez := v_z camera + sin angle * dist in
  let ey := getTerrainHeight ex ez seed in
  let type := spawnType (r_type d) in
  let cfg := ENEMY_CONFIG type in
  mkEnemy (r_id d) type (mkVector3 ex ey ez) (cfg_hp cfg) (cfg_hp cfg) (cfg_speed cfg)
    false false None None.

(** ** The session: React state and refs *)

Record World := mkWorld {
  gameState : GameState;
  enemies : list Enemy;
  lastShot : R;
  lastSpawn : R;
  isFiring : bool;
  obstacles : list Obstacle;
  loadedChunks : gset string;
  seed : R
}.

Definition setAmmo (g : GameState) (a : Z) : GameState :=
  mkGameState (score g) (gold g) (health g) (wave g) (isPlaying g) a (damageMultiplier g).

(** [reload]: the guard reads the [gameState] the closure captured ([seen]),
    the updater refills the current state. *)
Definition reload (seen g : GameState) : GameState * list Cue :=
  if bool_decide (ammo seen < MAX_AMMO)%Z then (setAmmo g MAX_AMMO, [playReload])
  else (g, []).

(** The prompts the frame shows near a shop counter. *)
Definition msgUpgrade : string := "PRESS 'E': UPGRADE DMG (500G)".
Definition msgHealth : string := "PRESS 'E': BUY HEALTH (100G)".
Definition msgAmmo : string := "PRESS 'E': BUY AMMO (50G)".

(** [s.includes(needle)]. *)
Fixpoint includes (needle s : string) : bool :=
  String.prefix needle s ||
  match s with
  | EmptyString => false
  | String _ s' => includes needle s'
  end.

(** [handleShopAction], for the prompt [shopMessage] the handler captured. *)
Definition handleShopAction (shopMessage : option string) (prev : GameState)
    : GameState * list Cue :=
  match shopMessage with
  | None => (prev, [])
  | Some m =>
      if includes "AMMO" m && bool_decide (50 <= gold prev)%Z then
        (mkGameState (score prev) (gold prev - 50) (health prev) (wave prev)
           (isPlaying prev) MAX_AMMO (damageMultiplier prev), [playBuy])
      else if includes "HEALTH" m && bool_decide (100 <= gold prev)%Z then
        (mkGameState (score prev) (gold prev - 100) 100 (wave prev)
           (isPlaying prev) (ammo prev) (damageMultiplier prev), [playBuy])
      else if includes "UPGRADE" m && bool_decide (500 <= gold prev)%Z then
        (mkGameState (score prev) (gold prev - 500) (health prev) (wave prev)
           (isPlaying prev) (ammo prev) (damageMultiplier prev + 0.5), [playBuy])
      else (prev, [playEmpty])
  end.

(** ** The frame callback of [GameController]

    What a frame reads from outside the session: the clock, the mouse button,
    the camera left by the movement step (its position and the direction it
    looks in, the ray through the crosshair) and the draws of a spawn. *)
Record FrameInput := mkInput {
  f_time : R;
  f_delta : R;
  f_mouseDown : bool;
  f_camera : Vector3;
  f_look : Vector3;
  f_draws : SpawnDraws
}.

(** What the shooting block did in a frame. *)
Inductive ShotOutcome := Fired | EmptyFire | NoAttempt.

(** A fire attempt: the button is down and the last shot is more than
    [FIRE_RATE] ms old. *)
Definition fireAttempt (w : World) (i : FrameInput) : bool :=
  f_mouseDown i && gtb (f_time i - lastShot w) FIRE_RATE.

Definition shotOutcome (w : World) (i : FrameInput) : ShotOutcome :=
  if fireAttempt w i then
    if bool_decide (0 < ammo (gameState w))%Z then Fired else EmptyFire
  else NoAttempt.

(** The shooting block: the session after it and the cues it played. *)
Definition shootingStep (w : World) (i : FrameInput) : World * list Cue :=
  if fireAttempt w i then
    if bool_decide (0 < ammo (gameState w))%Z then
      let g1 := setAmmo (gameState w) (ammo (gameState w) - 1) in
      let ray := mkRay (f_camera i) (f_look i) in
      let '(nextEnemies, reward, cues) :=
        hitscan ray (f_camera i) (seed w) (damageMultiplier (gameState w)) (f_time i)
          (enemies w) in
      (mkWorld (addReward reward g1) nextEnemies (f_time i) (lastSpawn w) true
         (obstacles w) (loadedChunks w) (seed w),
       playShoot :: cues)
    else
      let '(g1, cues) :=
        if bool_decide (ammo (gameState w) = 0)%Z then reload (gameState w) (gameState w)
        else (gameState w, []) in
      (mkWorld g1 (enemies w) (lastShot w) (lastSpawn w) false
         (obstacles w) (loadedChunks w) (seed w),
       playEmpty :: cues)
  else if negb (f_mouseDown i) then
    (mkWorld (gameState w) (enemies w) (lastShot w) (lastSpawn w) false
       (obstacles w) (loadedChunks w) (seed w), [])
  else (w, []).

Definition spawnStep (w : World) (i : FrameInput) : World :=
  if gtb (f_time i - lastSpawn w) ENEMY_SPAWN_RATE then
    mkWorld (gameState w) (enemies w ++ [spawnEnemy (f_camera i) (seed w) (f_draws i)])
      (lastShot w) (f_time i) (isFiring w) (obstacles w) (loadedChunks w) (seed w)
  else w.

Definition aiFrameStep (w : World) (i : FrameInput) : World :=
  let '(next, damageDealt) :=
    updateEnemies (f_camera i) (obstacles w) (seed w) (f_delta i) (f_time i) (enemies w) in
  let g := if gtb damageDealt 0 then takeDamage damageDealt (gameState w) else gameState w in
  mkWorld g next (lastShot w) (lastSpawn w) (isFiring w)
    (obstacles w) (loadedChunks w) (seed w).

(** The frame: shooting, then spawning, then the actor update.  The
    controller is mounted only while the game is being played. *)
Definition controllerFrame (w : World) (i : FrameInput) : World * list Cue :=
  if isPlaying (gameState w) then
    let '(w1, cues) := shootingStep w i in
    (aiFrameStep (spawnStep w1 i) i, cues)
  else (w, []).

(** ** Chunk streaming of the final variant ([WorldGen]) *)

(** The chunk of a world coordinate: [Math.floor(p / CHUNK_SIZE)]. *)
Definition chunkOf (p : R) : Z := floorZ (p / CHUNK_SIZE).

(** The integers [lo, lo + 1, ..., lo + n - 1]. *)
Definition zrange (lo : Z) (n : nat) : list Z := map (fun k => (lo + Z.of_nat k)%Z) (seq 0 n).

(** The coordinates the two nested loops visit, in their order. *)
Definition activeCoords (cx cz : Z) : list (Z * Z) :=
  let side := Z.to_nat (2 * RENDER_DISTANCE + 1) in
  flat_map (fun x => map (fun z => (x, z)) (zrange (cz - RENDER_DISTANCE) side))
           (zrange (cx - RENDER_DISTANCE) side).

(** The body of the inner loop, on [loadedChunksRef.current], [newObs] and
    [hasNew]. *)
Definition loadStep (worldSeed : R) (acc : gset string * list Obstacle * bool) (c : Z * Z)
    : gset string * list Obstacle * bool :=
  let '(loaded, newObs, hasNew) := acc in
  let key := chunkKey c.1 c.2 in
  if bool_decide (key ∈ loaded) then acc
  else ({[key]} ∪ loaded, newObs ++ generateChunk c.1 c.2 worldSeed, true).

Definition worldGenFrame (w : World) (camera : Vector3) : World :=
  if negb (isPlaying (gameState w)) then w
  else
    let cx := chunkOf (v_x camera) in
    let cz := chunkOf (v_z camera) in
    let '(loaded, newObs, hasNew) :=
      fold_left (loadStep (seed w)) (activeCoords cx cz) (loadedChunks w, [], false) in
    mkWorld (gameState w) (enemies w) (lastShot w) (lastSpawn w) (isFiring w)
      (if hasNew then obstacles w ++ newObs else obstacles w) loaded (seed w).

(** ** Events of a session *)

Definition initialGameState (playing : bool) : GameState :=
  mkGameState 0 0 100 1 playing MAX_AMMO 1.

Definition initialWorld : World :=
  mkWorld (initialGameState false) [] 0 0 false [] ∅ 123.

(** [startGame], reached from the DEPLOY button, which is shown only while
    the game is not being played; the controller is mounted anew. *)
Definition startGame (w : World) (newSeed : R) : World :=
  if isPlaying (gameState w) then w
  else mkWorld (initialGameState true) [] 0 0 (isFiring w) [] ∅ newSeed.

Inductive Event :=
  | EvFrame (i : FrameInput)
  | EvWorldGen (camera : Vector3)
  | EvKeyReload (seen : GameState)
  | EvKeyShop (shopMessage : option string)
  | EvStart (newSeed : R).

Definition withGameState (w : World) (g : GameState) : World :=
  mkWorld g (enemies w) (lastShot w) (lastSpawn w) (isFiring w)
    (obstacles w) (loadedChunks w) (seed w).

(** The key handlers exist while the controller is mounted. *)
Definition step (w : World) (ev : Event) : World :=
  match ev with
  | EvFrame i => (controllerFrame w i).1
  | EvWorldGen camera => worldGenFrame w camera
  | EvKeyReload seen =>
      if isPlaying (gameState w) then withGameState w (reload seen (gameState w)).1 else w
  | EvKeyShop m =>
      if isPlaying (gameState w) then withGameState w (handleShopAction m (gameState w)).1
      else w
  | EvStart newSeed => startGame w newSeed
  end.

Definition run (w : World) (evs : list Event) : World := fold_left step evs w.

(** A frame that spawns draws an id no live or falling actor carries: the
    tokens of [Math.random().toString()] are taken to be distinct. *)
Definition freshDraw (w : World) (ev : Event) : Prop :=
  match ev with
  | EvFrame i =>
      gtb (f_time i - lastSpawn w) ENEMY_SPAWN_RATE = true ->
      r_id (f_draws i) ∉ map e_id (enemies w)
  | _ => True
  end.

Fixpoint freshRun (w : World) (evs : list Event) : Prop :=
  match evs with
  | [] => True
  | ev :: rest => freshDraw w ev /\ freshRun (step w ev) rest
  end.

(** ** Reading a chunk coordinate back from an id *)

Definition isSpace (c : ascii) : bool :=
  let n := nat_of_ascii c in
  bool_decide (n = 32 \/ 9 <= n <= 13)%nat.

Definition digitOf (c : ascii) : option Z :=
  let n := nat_of_ascii c in
  if bool_decide (48 <= n <= 57)%nat then Some (Z.of_nat n - 48)%Z else None.

Fixpoint skipSpaces (s : string) : string :=
  match s with
  | String c s' => if isSpace c then skipSpaces s' else s
  | EmptyString => s
  end.

(** The digits at the head of [s], read from the value [acc] on; [None] when
    there is none. *)
Fixpoint readDigits (s : string) (acc : option Z) : option Z :=
  match s with
  | String c s' =>
      match digitOf c with
      | Some d => readDigits s' (Some (default 0%Z acc * 10 + d)%Z)
      | None => acc
      end
  | EmptyString => acc
  end.

(** [parseInt(s)] in base ten: white space, a sign, then the longest run of
    digits; [None] is NaN.  (The hexadecimal prefix is outside the model.) *)
Definition parseInt (s : string) : option Z :=
  match skipSpaces s with
  | String c s' =>
      if bool_decide (c = "-"%char) then Z.opp <$> readDigits s' None
      else if bool_decide (c = "+"%char) then readDigits s' None
      else readDigits (String c s') None
  | EmptyString => None
  end.

(** [s.split(':')]. *)
Fixpoint splitColon (s : string) : list string :=
  match s with
  | EmptyString => [EmptyString]
  | String c s' =>
      if bool_decide (c = ":"%char) then EmptyString :: splitColon s'
      else match splitColon s' with
           | p :: ps => String c p :: ps
           | [] => [String c EmptyString]
           end
  end.

(** The chunk coordinate an id embeds: its first two fields, parsed. *)
Definition chunkOfId (id : string) : option (Z * Z) :=
  let parts := splitColon id in
  match parts !! 0%nat ≫= parseInt, parts !! 1%nat ≫= parseInt with
  | Some cx, Some cz => Some (cx, cz)
  | _, _ => None
  end.

(** Chebyshev distance at most [r] between two chunk coordinates. *)
Definition withinRadius (r : Z) (c p : Z * Z) : Prop :=
  (Z.abs (c.1 - p.1) <= r /\ Z.abs (c.2 - p.2) <= r)%Z.

#[global] Instance withinRadius_dec r c p : Decision (withinRadius r c p).
Proof. unfold withinRadius. apply _. Defined.

(** ** The earlier chunked variant: generation and [WorldGenerator]

  This variant has no seed, no buildings and no dead actors; it is the one
  whose streaming manager evicts. *)
Module Earlier.

Inductive ObstacleType := tree | rock | ruin | mountain | house.

#[global] Instance ObstacleType_eq_dec : EqDecision ObstacleType.
Proof. solve_decision. Defined.

Record Obstacle := mkObstacle {
  o_id : string;
  o_type : ObstacleType;
  o_position : Vector3;
  o_rotation : R;
  o_scale : Vector3;
  o_radius : R
}.

Definition noise (x z : R) : R :=
  let sn := sin (x * 12.9898 + z * 78.233) in
  let s := sn * 43758.5453123 in
  s - Math_floor s.

Definition smoothNoise (x z : R) : R :=
  let i := Math_floor x in
  let j := Math_floor z in
  let f := x - i in
  let g := z - j in
  let a := noise i j in
  let b := noise (i + 1) j in
  let c := noise i (j + 1) in
  let d := noise (i + 1) (j + 1) in
  let u := f * f * f * (f * (f * 6 - 15) + 10) in
  let v := g * g * g * (g * (g * 6 - 15) + 10) in
  (1 - u) * (1 - v) * a + u * (1 - v) * b + (1 - u) * v * c + u * v * d.

Definition getTerrainHeight (x z : R) : R :=
  let amp := 10 in
  let freq := 0.02 in
  let y := 0 + smoothNoise (x * freq) (z * freq) * amp in
  let y := y + smoothNoise (x * freq * 2) (z * freq * 2) * (amp / 2) in
  let y := y + smoothNoise (x * freq * 4) (z * freq * 4) * (amp / 4) in
  Math_pow y 1.2.

Definition chunkSeedOf (chunkX chunkZ : Z) : Z :=
  Z.lxor (toInt32 (chunkX * 73856093)) (toInt32 (chunkZ * 19349663)).

(** A loop whose body reads the obstacles pushed so far. *)
Fixpoint forRangeAcc (idx : list Z) (body : list Obstacle -> Z -> list Obstacle)
    (acc : list Obstacle) : list Obstacle :=
  match idx with
  | [] => acc
  | i :: rest => forRangeAcc rest body (acc ++ body acc i)
  end.

Definition indices (n : Z) : list Z := map Z.of_nat (seq 0 (Z.to_nat n)).

Definition generateChunk (chunkX chunkZ : Z) : list Obstacle :=
  let chunkSeed := chunkSeedOf chunkX chunkZ in
  let getRand (offset : Z) := seededRandom (IZR (chunkSeed + offset)) in
  let worldX := IZR chunkX * CHUNK_SIZE in
  let worldZ := IZR chunkZ * CHUNK_SIZE in
  let key := chunkKey chunkX chunkZ in
  let isVillage := gtb (getRand 999%Z) 0.95 in
  let houses :=
    if isVillage then
      let houseCount := (4 + floorZ (getRand 888%Z * 4))%Z in
      flat_map (fun i =>
        let lx := (getRand (i * 30)%Z - 0.5) * (CHUNK_SIZE * 0.6) in
        let lz := (getRand (i * 30 + 1)%Z - 0.5) * (CHUNK_SIZE * 0.6) in
        let wx := worldX + lx in
        let wz := worldZ + lz in
        let y := getTerrainHeight wx wz in
        [ mkObstacle (key +:+ ":house:" +:+ pretty i) house (mkVector3 wx y wz)
            (getRand (i * 30 + 2)%Z * PI * 2) unitScale 2.5 ]) (indices houseCount)
    else [] in
  let treeCount := if isVillage then 2%Z else (floorZ (getRand 1%Z * 10) + 2)%Z in
  let withTrees :=
    forRangeAcc (indices treeCount) (fun obstacles i =>
      let lx := getRand (i * 10)%Z * CHUNK_SIZE - CHUNK_SIZE / 2 in
      let lz := getRand (i * 10 + 1)%Z * CHUNK_SIZE - CHUNK_SIZE / 2 in
      let wx := worldX + lx in
      let wz := worldZ + lz in
      let y := getTerrainHeight wx wz in
      let tooClose :=
        existsb (fun o =>
          bool_decide (o_type o = house) &&
          (let dx := wx - v_x (o_position o) in
           let dz := wz - v_z (o_position o) in
           ltb (sqrt (dx * dx + dz * dz)) 4)) obstacles in
      if isVillage && tooClose then []
      else
        [ mkObstacle (key +:+ ":tree:" +:+ pretty i) tree (mkVector3 wx y wz)
            (getRand (i * 10 + 2)%Z * PI)
            (mkVector3 (1 + getRand i * 0.5) (1 + getRand (i + 5)%Z) (1 + getRand i * 0.5))
            1 ]) houses in
  let rockCount := (floorZ (getRand 2%Z * 5) + 2)%Z in
  let rocks :=
    flat_map (fun i =>
      let lx := getRand (i * 20 + 50)%Z * CHUNK_SIZE - CHUNK_SIZE / 2 in
      let lz := getRand (i * 20 + 51)%Z * CHUNK_SIZE - CHUNK_SIZE / 2 in
      let wx := worldX + lx in
      let wz := worldZ + lz in
      let y := getTerrainHeight wx wz in
      [ mkObstacle (key +:+ ":rock:" +:+ pretty i) rock (mkVector3 wx y wz)
          (getRand (i * 20 + 52)%Z * PI) unitScale 1.5 ]) (indices rockCount) in
  let ruins :=
    if negb isVillage && gtb (getRand 100%Z) 0.85 then
      let lx := getRand 101%Z * CHUNK_SIZE - CHUNK_SIZE / 2 in
      let lz := getRand 102%Z * CHUNK_SIZE - CHUNK_SIZE / 2 in
      let wx := worldX + lx in
      let wz := worldZ + lz in
      let y := getTerrainHeight wx wz in
      [ mkObstacle (key +:+ ":ruin") ruin (mkVector3 wx y wz) (getRand 103%Z * PI)
          (mkVector3 (1 + getRand 104%Z) (1 + getRand 105%Z) (1 + getRand 104%Z)) 3.5 ]
    else [] in
  withTrees ++ rocks ++ ruins.

(** The refs of [WorldGenerator] and the obstacle list it updates. *)
Record Streaming := mkStreaming {
  loadedChunks : gset string;
  lastChunk : option (Z * Z);
  obstacles : list Obstacle
}.

(** The body of the inner loop, on [activeKeys], [loadedChunks.current]
    and [newObstacles]. *)
Definition loadStep (acc : gset string * gset string * list Obstacle) (c : Z * Z)
    : gset string * gset string * list Obstacle :=
  let '(activeKeys, loaded, newObstacles) := acc in
  let key := chunkKey c.1 c.2 in
  if bool_decide (key ∈ loaded) then ({[key]} ∪ activeKeys, loaded, newObstacles)
  else ({[key]} ∪ activeKeys, {[key]} ∪ loaded, newObstacles ++ generateChunk c.1 c.2).

(** The predicate of [prev.filter]: both fields parse and lie within
    [RENDER_DISTANCE + 1] of the current chunk (a NaN fails both
    comparisons). *)
Definition keeps (chunkX chunkZ : Z) (obs : Obstacle) : bool :=
  let parts := splitColon (o_id obs) in
  match parts !! 0%nat ≫= parseInt, parts !! 1%nat ≫= parseInt with
  | Some cx, Some cz =>
      bool_decide (Z.abs (cx - chunkX) <= RENDER_DISTANCE + 1)%Z
      && bool_decide (Z.abs (cz - chunkZ) <= RENDER_DISTANCE + 1)%Z
  | _, _ => false
  end.

(** [`${parts[0]}:${parts[1]}`]; a missing field prints as [undefined]. *)
Definition keyOfId (id : string) : string :=
  let parts := splitColon id in
  default "undefined" (parts !! 0%nat) +:+ ":" +:+ default "undefined" (parts !! 1%nat).

Definition worldGeneratorFrame (s : Streaming) (player : Vector3) : Streaming :=
  let chunkX := chunkOf (v_x player) in
  let chunkZ := chunkOf (v_z player) in
  if bool_decide (lastChunk s = Some (chunkX, chunkZ)) then s
  else
    let '(activeKeys, loaded, newObstacles) :=
      fold_left loadStep (activeCoords chunkX chunkZ) (∅, loadedChunks s, []) in
    match newObstacles with
    | [] => mkStreaming loaded (Some (chunkX, chunkZ)) (obstacles s)
    | _ :: _ =>
        let filtered := filter (fun obs => keeps chunkX chunkZ obs = true) (obstacles s) in
        let currentLoaded : gset string := list_to_set (map (fun o => keyOfId (o_id o)) filtered) in
        mkStreaming (currentLoaded ∪ activeKeys) (Some (chunkX, chunkZ))
          (filtered ++ newObstacles)
    end.

End Earlier.

(** * Specification predicates *)

(** ** Collision footprints *)

(** The planar offset of a query point from an obstacle. *)
Definition offsetX (position : Vector3) (obs : Obstacle) : R :=
  v_x position - v_x (o_position obs).
Definition offsetZ (position : Vector3) (obs : Obstacle) : R :=
  v_z position - v_z (o_position obs).

(** The footprint test the code applies to an obstacle inside the cutoff. *)
Definition inFootprint (position : Vector3) (radius : R) (obs : Obstacle) : Prop :=
  let dx := offsetX position obs in
  let dz := offsetZ position obs in
  match o_type obs, o_dims obs with
  | wall, Some dims =>
      let localX := dx * cos (- o_rotation obs) - dz * sin (- o_rotation obs) in
      let localZ := dx * sin (- o_rotation obs) + dz * cos (- o_rotation obs) in
      Rabs localX < d_w dims / 2 + radius /\ Rabs localZ < d_d dims / 2 + radius
  | _, _ =>
      0 < o_radius obs /\
      dx * dx + dz * dz < (o_radius obs + radius) * (o_radius obs + radius)
  end.

(** The footprint test as the specification words it: no guard on the
    radius of a circular obstacle. *)
Definition inFootprintAsSpecified (position : Vector3) (radius : R) (obs : Obstacle) : Prop :=
  let dx := offsetX position obs in
  let dz := offsetZ position obs in
  match o_type obs, o_dims obs with
  | wall, Some dims =>
      let localX := dx * cos (- o_rotation obs) - dz * sin (- o_rotation obs) in
      let localZ := dx * sin (- o_rotation obs) + dz * cos (- o_rotation obs) in
      Rabs localX < d_w dims / 2 + radius /\ Rabs localZ < d_d dims / 2 + radius
  | _, _ =>
      dx * dx + dz * dz < (o_radius obs + radius) * (o_radius obs + radius)
  end.

Definition insideCutoff (position : Vector3) (obs : Obstacle) : Prop :=
  Rabs (offsetX position obs) <= 15 /\ Rabs (offsetZ position obs) <= 15.

(** An obstacle that is no wall and has radius 0. *)
Definition zeroRadiusNonWall (obs : Obstacle) : Prop :=
  o_type obs <> wall /\ o_radius obs = 0.

(** Two obstacle records agree field by field. *)
Definition sameFields (a b : Obstacle) : Prop :=
  o_id a = o_id b /\ o_type a = o_type b /\ o_position a = o_position b /\
  o_rotation a = o_rotation b /\ o_scale a = o_scale b /\
  o_radius a = o_radius b /\ o_dims a = o_dims b.

(** The roof of a cottage, as [generateBuilding] emits it at the origin. *)
Definition cottageRoof : Obstacle :=
  mkObstacle "0:0:b0:roof" roof (mkVector3 0 5 0) 0 (mkVector3 9 4 9) 0 None.

(** ** Hitscan *)

(** A live actor whose torso point is closer to the ray than its hitbox
    size (squared distance against squared size). *)
Definition qualifies (ray : Ray) (seed : R) (e : Enemy) : Prop :=
  e_isDead e = false /\
  distanceSqToPoint ray (torso seed e) < hitboxSize e * hitboxSize e.

(** The distance of an actor's torso point from the camera. *)
Definition camDist (camera : Vector3) (seed : R) (e : Enemy) : R :=
  distanceTo camera (torso seed e).

(** A qualifying actor within the range of the weapon, the initial
    [minDist] of the scan. *)
Definition candidate (ray : Ray) (camera : Vector3) (seed : R) (e : Enemy) : Prop :=
  qualifies ray seed e /\ camDist camera seed e < 100.

(** [e'] is [e] after a shot of multiplier [mult] at [time]: hit points
    floored at 0, and the actor marked dead exactly when the floor applies. *)
Definition struck (mult time : R) (e e' : Enemy) : Prop :=
  e_id e' = e_id e /\ e_type e' = e_type e /\ e_position e' = e_position e /\
  e_maxHp e' = e_maxHp e /\ e_speed e' = e_speed e /\
  e_isAttacking e' = e_isAttacking e /\
  e_hp e' = Rmax 0 (e_hp e - 35 * mult) /\
  (e_hp e - 35 * mult <= 0 -> e_isDead e' = true /\ e_deadTime e' = Some time) /\
  (0 < e_hp e - 35 * mult ->
   e_isDead e' = e_isDead e /\ e_deadTime e' = e_deadTime e /\ e_velocity e' = e_velocity e).

(** A camera [d] units in front of the point (0, 0) of the ground, at the
    height of the torso point of a peasant or villager standing there, and
    the ray it looks along, toward that point. *)
Definition cameraAt (d : R) : Vector3 :=
  mkVector3 0 (getTerrainHeight 0 0 123 + 0.9 * 0.8) d.
Definition rayFrom (d : R) : Ray := mkRay (cameraAt d) (mkVector3 0 0 (-1)).

(** A live actor standing at the point (0, 0) of the ground. *)
Definition standing (id : string) (type : EnemyType) : Enemy :=
  mkEnemy id type (mkVector3 0 (getTerrainHeight 0 0 123) 0)
    (cfg_hp (ENEMY_CONFIG type)) (cfg_hp (ENEMY_CONFIG type)) (cfg_speed (ENEMY_CONFIG type))
    false false None None.

(** A peasant on the crosshair, 150 units in front of the camera. *)
Definition farPeasant : Enemy := standing "0.4217" peasant.
Definition farCamera : Vector3 := cameraAt 150.
Definition farRay : Ray := rayFrom 150.

(** ** Actors and sessions *)

(** The hit-point invariant of an actor: within [0, maxHp], positive while
    alive and 0 once dead. *)
Definition wfEnemy (e : Enemy) : Prop :=
  0 <= e_hp e <= e_maxHp e /\
  (e_isDead e = false -> 0 < e_hp e) /\
  (e_isDead e = true -> e_hp e = 0).

(** A session whose actors carry distinct ids and satisfy the invariant,
    with the damage multiplier at least its initial 1. *)
Definition wfWorld (w : World) : Prop :=
  NoDup (map e_id (enemies w)) /\
  Forall wfEnemy (enemies w) /\
  1 <= damageMultiplier (gameState w).

(** The id the frame's shot strikes, if it fires and strikes. *)
Definition frameHit (w : World) (i : FrameInput) : option string :=
  match shotOutcome w i with
  | Fired => hitId (scanEnemies (mkRay (f_camera i) (f_look i)) (f_camera i) (seed w) (enemies w))
  | _ => None
  end.

(** The actor returned for [e] by the actor update. *)
Definition aiActor (camera : Vector3) (obstacles : list Obstacle) (seed delta : R)
    (e : Enemy) : Enemy :=
  (aiStep camera obstacles seed delta e).1.

(** The planar distance of an actor from the camera. *)
Definition planarDist (camera : Vector3) (e : Enemy) : R :=
  distanceTo (mkVector3 (v_x camera) 0 (v_z camera))
             (mkVector3 (v_x (e_position e)) 0 (v_z (e_position e))).

(** A live actor that is no villager and stands within 1.5 units. *)
Definition attacks (camera : Vector3) (e : Enemy) : Prop :=
  e_isDead e = false /\ e_type e <> villager /\ planarDist camera e < 1.5.

#[global] Instance attacks_dec camera e : Decision (attacks camera e).
Proof. unfold attacks. apply _. Defined.

(** The number of attackers among the actors. *)
Definition attackers (camera : Vector3) (l : list Enemy) : nat :=
  length (filter (attacks camera) l).

Definition ammoOk (w : World) : Prop := (0 <= ammo (gameState w) <= MAX_AMMO)%Z.

(** ** Sample sessions and frames *)

(** A frame 2.5 s into a session, the button up: the first spawn. *)
Definition firstFrame : FrameInput :=
  mkInput 2500 0.016 false (mkVector3 0 1.7 0) (mkVector3 0 0 (-1))
    (mkDraws 0.25 0.5 0.5 "0.8731").

(** A knight standing on the player's planar position. *)
Definition knightAt (id : string) : Enemy :=
  mkEnemy id knight (mkVector3 0 0 0) 100 100 4 false false None None.

(** A session with 0.2 health left and two knights on the player. *)
Definition cornered : World :=
  mkWorld (mkGameState 0 0 0.2 1 true MAX_AMMO 1) [knightAt "0.1"; knightAt "0.2"]
    0 0 false [] ∅ 123.

(** A session with an empty magazine and no actor; the last spawn was at
    1000 ms. *)
Definition dry : World :=
  mkWorld (mkGameState 0 0 100 1 true 0 1) [] 0 1000 false [] ∅ 123.

(** Two frames one millisecond apart, the button held. *)
Definition pullAt (time : R) : FrameInput :=
  mkInput time 0.016 true (mkVector3 0 1.7 0) (mkVector3 0 0 (-1))
    (mkDraws 0.25 0.5 0.5 "0.8731").

(** The frame takes a shot.  Its shooting block is the fired branch: the
    hitscan is resolved on the actors, one round is taken, the time of the
    shot is recorded, the firing flag is raised and the shot cue is played
    first.  And, the game being played, the frame as a whole ends with that
    count and that time and has played these cues. *)
Definition shotTaken (w : World) (i : FrameInput) : Prop :=
  let ray := mkRay (f_camera i) (f_look i) in
  let scan :=
    hitscan ray (f_camera i) (seed w) (damageMultiplier (gameState w)) (f_time i)
      (enemies w) in
  shootingStep w i
  = (mkWorld (addReward scan.1.2 (setAmmo (gameState w) (ammo (gameState w) - 1)))
       scan.1.1 (f_time i) (lastSpawn w) true (obstacles w) (loadedChunks w) (seed w),
     playShoot :: scan.2) /\
  (isPlaying (gameState w) = true ->
   ammo (gameState (controllerFrame w i).1) = (ammo (gameState w) - 1)%Z /\
   lastShot (controllerFrame w i).1 = f_time i /\
   (controllerFrame w i).2 = playShoot :: scan.2).

(** A session with one villager on the crosshair, 10 units ahead, and the
    frame that shoots at it. *)
Definition hunt : World :=
  mkWorld (mkGameState 0 0 100 1 true MAX_AMMO 1) [standing "0.3306" villager]
    0 1000 false [] ∅ 123.
Definition huntShot : FrameInput :=
  mkInput 1000 0.016 true (cameraAt 10) (mkVector3 0 0 (-1)) (mkDraws 0.25 0.5 0.5 "0.8731").

(** ** Streaming *)

(** The keys of the chunks within [RENDER_DISTANCE] of a chunk. *)
Definition activeKeys (cx cz : Z) : gset string :=
  list_to_set (map (fun c => chunkKey c.1 c.2) (activeCoords cx cz)).

(** The chunks a streaming update has to load: the active coordinates, in
    the order of the two loops, whose key is not among the loaded ones. *)
Definition chunksToLoad (loaded : gset string) (cx cz : Z) : list (Z * Z) :=
  filter (fun c => chunkKey c.1 c.2 ∉ loaded) (activeCoords cx cz).

(** The id embeds a chunk coordinate within Chebyshev radius
    [RENDER_DISTANCE + 1] of the chunk [(cx, cz)]. *)
Definition inReach (cx cz : Z) (id : string) : Prop :=
  match chunkOfId id with
  | Some c => withinRadius (RENDER_DISTANCE + 1) c (cx, cz)
  | None => False
  end.

#[global] Instance inReach_dec cx cz id : Decision (inReach cx cz id).
Proof. unfold inReach. destruct (chunkOfId id); apply _. Defined.

(** A tree of chunk (10, 0), and a session of the final variant that holds
    it while the player stands in chunk (0, 0). *)
Definition farTree : Obstacle :=
  mkObstacle "10:0:tree:0" tree (mkVector3 630 0 30) 0 unitScale 1 None.
Definition roamed : World :=
  mkWorld (initialGameState true) [] 0 0 false [farTree] {[ "10:0" ]} 123.

(** An event that is no restart: the seed is rolled again by [startGame]
    alone. *)
Definition keepsSeed (ev : Event) : Prop :=
  match ev with
  | EvStart _ => False
  | _ => True
  end.

(** ** Ids *)

(** No colon occurs in the string. *)
Fixpoint noColon (s : string) : bool :=
  match s with
  | EmptyString => true
  | String c s' => negb (bool_decide (c = ":"%char)) && noColon s'
  end.

(** The id starts with the key of the chunk [(cx, cz)] and a colon. *)
Definition ownedBy (cx cz : Z) (id : string) : Prop :=
  exists rest, id = chunkKey cx cz +:+ String ":" rest.

(** A rock of chunk (10, 0), and a streaming state of the earlier variant
    that holds it and has no chunk loaded. *)
Definition farRock : Earlier.Obstacle :=
  Earlier.mkObstacle "10:0:rock:0" Earlier.rock (mkVector3 600 0 0) 0 unitScale 1.5.
Definition strayed : Earlier.Streaming := Earlier.mkStreaming ∅ None [farRock].
(** * The rest of the final variant: movement, shop prompt, weapon, bodies *)

(** ** Player movement (the head of the frame callback of [GameController]) *)

Definition PLAYER_HEIGHT : R := 1.7.

Record Quaternion := mkQuaternion { q_x : R; q_y : R; q_z : R; q_w : R }.

(** [Vector3.applyQuaternion], after the library's definition. *)
Definition applyQuaternion (v : Vector3) (q : Quaternion) : Vector3 :=
  let vx := v_x v in let vy := v_y v in let vz := v_z v in
  let qx := q_x q in let qy := q_y q in let qz := q_z q in let qw := q_w q in
  let tx := 2 * (qy * vz - qz * vy) in
  let ty := 2 * (qz * vx - qx * vz) in
  let tz := 2 * (qx * vy - qy * vx) in
  mkVector3 (vx + qw * tx + qy * tz - qz * ty)
            (vy + qw * ty + qz * tx - qx * tz)
            (vz + qw * tz + qx * ty - qy * tx).

(** [Number(b)] on a boolean. *)
Definition Number (b : bool) : R := if b then 1 else 0.

(** The state of the keyboard controls [get()] returns. *)
Record Controls := mkControls { k_fwd : bool; k_back : bool; k_left : bool; k_right : bool }.

(** What the movement block of a frame reads: the clock, the orientation of
    the camera, the keys and the joystick. *)
Record MoveInput := mkMoveInput {
  mv_time : R;
  mv_delta : R;
  mv_quaternion : Quaternion;
  mv_keys : Controls;
  mv_joyX : R;
  mv_joyY : R
}.

(** [v.y = 0; v.normalize()]. *)
Definition levelled (v : Vector3) : Vector3 := normalize (mkVector3 (v_x v) 0 (v_z v)).

(** The vector [move] of a frame. *)
Definition moveVector (i : MoveInput) : Vector3 :=
  let speed := WALK_SPEED * mv_delta i in
  let fwdVec := levelled (applyQuaternion (mkVector3 0 0 (-1)) (mv_quaternion i)) in
  let rightVec := levelled (applyQuaternion (mkVector3 1 0 0) (mv_quaternion i)) in
  let joyX := mv_joyX i in
  let joyY := mv_joyY i in
  let keyX := Number (k_right (mv_keys i)) - Number (k_left (mv_keys i)) in
  let keyY := Number (k_back (mv_keys i)) - Number (k_fwd (mv_keys i)) in
  let finalX := joyX + keyX in
  let finalY := joyY + keyY in
  let move := mkVector3 0 0 0 in
  if negb (eqb finalX 0) || negb (eqb finalY 0) then
    let move := v_add (v_add move (multiplyScalar rightVec finalX))
                      (multiplyScalar fwdVec (- finalY)) in
    let move := if gtb (lengthSq move) 1 then normalize move else move in
    multiplyScalar move speed
  else move.

(** The position of the camera after the movement block: the planar step is
    taken when the next position is free for a body of radius 0.5, and the
    height is the terrain's plus the player's, with the bob of a walk. *)
Definition movePlayer (camera : Vector3) (obstacles : list Obstacle) (seed : R)
    (i : MoveInput) : Vector3 :=
  let move := moveVector i in
  let nextPos := v_add camera move in
  let stepped :=
    if negb (checkCollision nextPos obstacles 0.5)
    then mkVector3 (v_x nextPos) (v_y camera) (v_z nextPos)
    else camera in
  let ground := getTerrainHeight (v_x stepped) (v_z stepped) seed in
  let bob := if gtb (v_length move) 0 then sin (mv_time i * 0.015) * 0.1 else 0 in
  mkVector3 (v_x stepped) (ground + PLAYER_HEIGHT + bob) (v_z stepped).

(** ** The shop prompt *)

(** The prompt chosen from the player's gold and health. *)
Definition shopPrompt (g : GameState) : string :=
  if bool_decide (500 <= gold g)%Z then msgUpgrade
  else if ltb (health g) 50 then msgHealth
  else msgAmmo.

(** The loop of the shop check: the value handed to [setShopMessage], [None]
    where the loop ends with [nearShop] false. *)
Fixpoint shopCheck (camera : Vector3) (obstacles : list Obstacle) (g : GameState)
    : option string :=
  match obstacles with
  | [] => None
  | obs :: rest =>
      if gtb (Rabs (v_x (o_position obs) - v_x camera)) 10 then shopCheck camera rest g
      else if bool_decide (o_type obs = shop_table)
              && ltb (distanceTo camera (o_position obs)) 3
      then Some (shopPrompt g)
      else shopCheck camera rest g
  end.

(** The movement block and the shop check of a frame: the camera and the
    prompt they leave. *)
Definition playerFrame (w : World) (camera : Vector3) (i : MoveInput)
    : Vector3 * option string :=
  let camera' := movePlayer camera (obstacles w) (seed w) i in
  (camera', shopCheck camera' (obstacles w) (gameState w)).

(** ** The weapon model ([Weapon]) *)

(** [THREE.MathUtils.lerp]. *)
Definition lerp (x y t : R) : R := (1 - t) * x + t * y.

(** The position and the rotation of the group of the weapon. *)
Record WeaponPose := mkWeaponPose {
  wp_x : R; wp_y : R; wp_z : R; wr_x : R; wr_z : R
}.

(** The pose the group is mounted with. *)
Definition weaponRest : WeaponPose := mkWeaponPose 0.3 (-0.25) (-0.5) 0 0.

(** The frame callback of [Weapon], at [t] seconds. *)
Definition weaponFrame (t : R) (isFiring isReloading : bool) (p : WeaponPose) : WeaponPose :=
  let y := -0.25 + sin (t * 2) * 0.005 in
  let x := 0.3 + cos (t * 1.5) * 0.005 in
  let '(z, rx) :=
    if isFiring then (Rmin (wp_z p + 0.1) (-0.3), 0.1)
    else (lerp (wp_z p) (-0.5) 0.1, lerp (wr_x p) 0 0.1) in
  let '(rx, rz) := if isReloading then (-0.5, -0.5) else (rx, 0) in
  mkWeaponPose x y z rx rz.

(** A run of frames of the weapon: the time and the two flags of each. *)
Definition weaponRun (frames : list (R * bool * bool)) (p : WeaponPose) : WeaponPose :=
  fold_left (fun p f => weaponFrame f.1.1 f.1.2 f.2 p) frames p.

(** ** The body of an actor ([ProceduralCharacter])

    The position of the group and the two refs of the fall; the rotation of
    the group and of the limbs, which the position does not read, is left
    out. *)
Record Body := mkBody {
  b_position : Vector3;
  b_isDead : bool;
  b_velocity : Vector3
}.

Definition characterFrame (enemy : Enemy) (seed delta : R) (b : Body) : Body :=
  if e_isDead enemy then
    let vel :=
      if negb (b_isDead b) then
        match e_velocity enemy with
        | Some v => v
        | None => mkVector3 0 5 0
        end
      else b_velocity b in
    let pos := v_add (b_position b) (multiplyScalar vel delta) in
    let vel := mkVector3 (v_x vel) (v_y vel - 25 * delta) (v_z vel) in
    let ground := getTerrainHeight (v_x pos) (v_z pos) seed in
    if ltb (v_y pos) (ground + 0.2) then
      let pos := mkVector3 (v_x pos) (ground + 0.2) (v_z pos) in
      let vel := multiplyScalar vel 0.9 in
      let vel :=
        if ltb (Rabs (v_y vel)) 0.1 then mkVector3 (v_x vel) 0 (v_z vel)
        else mkVector3 (v_x vel) (v_y vel * -0.3) (v_z vel) in
      mkBody pos true vel
    else mkBody pos true vel
  else
    let config := ENEMY_CONFIG (e_type enemy) in
    let terrainH := getTerrainHeight (v_x (e_position enemy)) (v_z (e_position enemy)) seed in
    mkBody (mkVector3 (v_x (e_position enemy)) (terrainH + 0.9 * cfg_scale config)
              (v_z (e_position enemy)))
           (b_isDead b) (b_velocity b).

(** * The on-screen joystick ([components/Joystick]) *)

Module Joystick.

Definition maxRadius : R := 40.

(** The rectangle [getBoundingClientRect] returns for the container. *)
Record DOMRect := mkRect { r_left : R; r_top : R; r_width : R; r_height : R }.

(** The two pieces of state of the component. *)
Record State := mkState { active : bool; position : R * R }.

Definition initial : State := mkState false (0, 0).

(** What a handler leaves: the state, and the arguments of its call of
    [onMove] when it makes one. *)
Definition Outcome : Type := State * option (R * R).

(** [handleMove]; [container] is [None] while the ref is not attached. *)
Definition handleMove (container : option DOMRect) (clientX clientY : R) (st : State)
    : Outcome :=
  match container with
  | None => (st, None)
  | Some rect =>
      let centerX := r_left rect + r_width rect / 2 in
      let centerY := r_top rect + r_height rect / 2 in
      let dx := clientX - centerX in
      let dy := clientY - centerY in
      let distance := sqrt (dx * dx + dy * dy) in
      let '(dx, dy) :=
        if gtb distance maxRadius then
          let angle := Math_atan2 dy dx in
          (cos angle * maxRadius, sin angle * maxRadius)
        else (dx, dy) in
      (mkState (active st) (dx, dy), Some (dx / maxRadius, dy / maxRadius))
  end.

Definition handleStart (container : option DOMRect) (clientX clientY : R) (st : State)
    : Outcome :=
  handleMove container clientX clientY (mkState true (position st)).

Definition handleEnd (st : State) : Outcome := (mkState false (0, 0), Some (0, 0)).

(** The events the component listens to. *)
Inductive Event :=
  | MouseDown (clientX clientY : R)
  | MouseMove (clientX clientY : R)
  | MouseUp
  | TouchStart (clientX clientY : R)
  | TouchMove (clientX clientY : R)
  | TouchEnd.

Definition handle (container : option DOMRect) (st : State) (ev : Event) : Outcome :=
  match ev with
  | MouseDown cx cy => handleStart container cx cy st
  | MouseMove cx cy => if active st then handleMove container cx cy st else (st, None)
  | MouseUp => if active st then handleEnd st else (st, None)
  | TouchStart cx cy => handleStart container cx cy st
  | TouchMove cx cy => if active st then handleMove container cx cy st else (st, None)
  | TouchEnd => handleEnd st
  end.

(** The state after a run of events and the calls of [onMove] made, in
    their order. *)
Fixpoint run (container : option DOMRect) (st : State) (evs : list Event)
    : State * list (R * R) :=
  match evs with
  | [] => (st, [])
  | ev :: rest =>
      let '(st', call) := handle container st ev in
      let '(st'', calls) := run container st' rest in
      (st'', match call with Some c => c :: calls | None => calls end)
  end.

End Joystick.

(** * The earlier chunked variant: the handlers of [App] and the controller

    The session of a page: the state of [App], the refs and the actors of
    the [GameController] that is mounted while a game is being played, and
    the reload callbacks handed to [setTimeout] that have not run yet, over
    game after game. *)

Module EarlierGame.

Definition PLAYER_SPEED : R := 10.
Definition DAMAGE_PER_SHOT : R := 35.

Record EnemyConfig := mkConfig {
  cfg_hp : R; cfg_speed : R; cfg_score : Z; cfg_scale : R; cfg_color : string
}.

Definition ENEMY_CONFIG (t : EnemyType) : EnemyConfig :=
  match t with
  | peasant => mkConfig 40 7 50 0.8 "#8B4513"
  | knight => mkConfig 100 4 100 1.0 "#666666"
  | heavy => mkConfig 300 2.5 300 1.4 "#2F4F4F"
  | villager => mkConfig 30 5 (-100) 0.8 "#3b82f6"
  end.

Record Enemy := mkEnemy {
  e_id : string;
  e_type : EnemyType;
  e_position : Vector3;
  e_hp : R;
  e_maxHp : R;
  e_speed : R;
  e_isAttacking : bool
}.

Record GameState := mkGameState {
  score : Z;
  health : R;
  wave : Z;
  isPlaying : bool;
  ammo : Z
}.

(** ** The handlers of [App] *)

Definition handleStart (prev : GameState) : GameState :=
  mkGameState 0 100 (wave prev) true (ammo prev).

Definition handleScore (points : Z) (prev : GameState) : GameState :=
  mkGameState (score prev + points) (health prev) (wave prev) (isPlaying prev) (ammo prev).

Definition handleDamage (amount : R) (prev : GameState) : GameState :=
  let newHp := Rmax 0 (health prev - amount) in
  if eqb newHp 0 then
    mkGameState (score prev) (health prev) (wave prev) false (ammo prev)
  else
    mkGameState (score prev) newHp (wave prev) (isPlaying prev) (ammo prev).

(** The [setAmmo] handed to the controller. *)
Definition setAmmo (a : Z) (prev : GameState) : GameState :=
  mkGameState (score prev) (health prev) (wave prev) (isPlaying prev) a.

(** A call of one of the handlers. *)
Inductive Call :=
  | CallStart
  | CallScore (points : Z)
  | CallDamage (amount : R)
  | CallSetAmmo (a : Z).

Definition applyCall (g : GameState) (c : Call) : GameState :=
  match c with
  | CallStart => handleStart g
  | CallScore points => handleScore points g
  | CallDamage amount => handleDamage amount g
  | CallSetAmmo a => setAmmo a g
  end.

(** The condition under which the menu shows the failure banner. *)
Definition missionFailed (g : GameState) : bool :=
  negb (isPlaying g) && leb (health g) 0 && bool_decide (0 < score g)%Z.

(** ** Collision *)

Fixpoint checkCollision (position : Vector3) (obstacles : list Earlier.Obstacle) (radius : R)
    : bool :=
  match obstacles with
  | [] => false
  | obs :: rest =>
      let dx := v_x position - v_x (Earlier.o_position obs) in
      let dz := v_z position - v_z (Earlier.o_position obs) in
      if gtb (Rabs dx) 20 || gtb (Rabs dz) 20 then checkCollision position rest radius
      else
        let distSq := dx * dx + dz * dz in
        let minDist := Earlier.o_radius obs + radius in
        if ltb distSq (minDist * minDist) then true
        else checkCollision position rest radius
  end.

(** ** The controller *)

Record Controller := mkController {
  enemies : list Enemy;
  lastShotTime : R;
  lastSpawnTime : R;
  ammoRef : Z;
  isReloading : bool
}.

(** The state of [App] and the refs and state of the controller that is
    mounted (after the game has ended and until the next start, those of the
    controller that was unmounted: its timer callback still writes them).
    [timers] counts the reload callbacks that controller has scheduled and
    that have not run yet; [stale] counts those left by the controllers
    mounted before it, which no unmount cancels. *)
Record Session := mkSession {
  gameState : GameState;
  controller : Controller;
  isFiring : bool;
  timers : nat;
  stale : nat
}.

(** The controller as it is mounted. *)
Definition mounted : Controller := mkController [] 0 0 MAX_AMMO false.

(** [reload]: the flag is raised, [onShoot(false)] is called and the
    callback is scheduled. *)
Definition reload (s : Session) : Session :=
  let c := controller s in
  mkSession (gameState s)
    (mkController (enemies c) (lastShotTime c) (lastSpawnTime c) (ammoRef c) true)
    false (S (timers s)) (stale s).

(** The callback of [reload], run by the timer 1500 ms later. *)
Definition reloaded (s : Session) : Session :=
  let c := controller s in
  mkSession (setAmmo MAX_AMMO (gameState s))
    (mkController (enemies c) (lastShotTime c) (lastSpawnTime c) MAX_AMMO false)
    (isFiring s) (timers s) (stale s).

(** The point the ray is tested against. *)
Definition torso (e : Enemy) : Vector3 :=
  let config := ENEMY_CONFIG (e_type e) in
  mkVector3 (v_x (e_position e)) (v_y (e_position e) + 0.75 * cfg_scale config)
            (v_z (e_position e)).

(** The first [map] of the shot: [hitDist] and [hitId]. *)
Definition scanStep (ray : Ray) (camera : Vector3) (acc : R * option string) (e : Enemy)
    : R * option string :=
  let config := ENEMY_CONFIG (e_type e) in
  let ePos := torso e in
  let distToRay := distanceSqToPoint ray ePos in
  if ltb distToRay (0.5 * cfg_scale config) && gtb (e_hp e) 0 then
    let dist := distanceTo camera ePos in
    if ltb dist acc.1 then (dist, Some (e_id e)) else acc
  else acc.

Definition setHp (e : Enemy) (hp : R) : Enemy :=
  mkEnemy (e_id e) (e_type e) (e_position e) hp (e_maxHp e) (e_speed e) (e_isAttacking e).

(** The second [map], with [hitTypeScore] threaded through it. *)
Fixpoint strike (hitId : option string) (hitTypeScore : Z) (l : list Enemy)
    : list Enemy * Z :=
  match l with
  | [] => ([], hitTypeScore)
  | e :: rest =>
      if bool_decide (Some (e_id e) = hitId) then
        let newHp := e_hp e - DAMAGE_PER_SHOT in
        let hitTypeScore :=
          if leb newHp 0 then cfg_score (ENEMY_CONFIG (e_type e)) else hitTypeScore in
        let '(rest', total) := strike hitId hitTypeScore rest in
        (setHp e newHp :: rest', total)
      else
        let '(rest', total) := strike hitId hitTypeScore rest in
        (e :: rest', total)
  end.

(** The updater of the shot: the actors left and the points handed to
    [onScore], if any. *)
Definition hitscan (ray : Ray) (camera : Vector3) (prev : list Enemy)
    : list Enemy * option Z :=
  let hit := fold_left (scanStep ray camera) prev (50, None) in
  let '(struck, hitTypeScore) := strike hit.2 0 prev in
  (filter (fun e => 0 < e_hp e) struck,
   if bool_decide (0 < hitTypeScore)%Z then Some hitTypeScore else None).

(** The draws of a spawn, in the order of the calls of [Math.random]. *)
Record SpawnDraws := mkDraws {
  r_angle : R; r_dist : R; r_type : R; r_id : string; r_speed : R
}.

Definition spawnType (rand : R) : EnemyType :=
  if ltb rand 0.2 then villager
  else if ltb rand 0.5 then peasant
  else if gtb rand 0.9 then heavy
  else knight.

Definition spawnEnemy (camera : Vector3) (d : SpawnDraws) : Enemy :=
  let angle := r_angle d * PI * 2 in
  let dist := 30 + r_dist d * 20 in
  let spawnX := v_x camera + cos angle * dist in
  let spawnZ := v_z camera + sin angle * dist in
  let spawnY := Earlier.getTerrainHeight spawnX spawnZ in
  let type := spawnType (r_type d) in
  let config := ENEMY_CONFIG type in
  mkEnemy (r_id d) type (mkVector3 spawnX spawnY spawnZ) (cfg_hp config) (cfg_hp config)
    (cfg_speed config + (r_speed d - 0.5)) false.

Definition moved (e : Enemy) (nextPos : Vector3) : Enemy :=
  mkEnemy (e_id e) (e_type e) (mkVector3 (v_x nextPos) 0 (v_z nextPos)) (e_hp e) (e_maxHp e)
    (e_speed e) false.

Definition calm (e : Enemy) : Enemy :=
  mkEnemy (e_id e) (e_type e) (e_position e) (e_hp e) (e_maxHp e) (e_speed e) false.

Definition attacking (e : Enemy) : Enemy :=
  mkEnemy (e_id e) (e_type e) (e_position e) (e_hp e) (e_maxHp e) (e_speed e) true.

(** One call of the callback of the last [map]: the actor it returns and
    whether it sets [takingDamage]; [draw] holds the two draws a wandering
    villager may make. *)
Definition aiStep (camera : Vector3) (obstacles : list Earlier.Obstacle) (delta : R)
    (draw : R * R) (e : Enemy) : Enemy * bool :=
  let eVec := mkVector3 (v_x (e_position e)) 0 (v_z (e_position e)) in
  let pVec := mkVector3 (v_x camera) 0 (v_z camera) in
  let dist := distanceTo eVec pVec in
  if bool_decide (e_type e = villager) then
    if ltb dist 10 then
      let dir := normalize (v_sub eVec pVec) in
      let moveVec := multiplyScalar dir (e_speed e * delta) in
      let nextPos := v_add (mkVector3 (v_x (e_position e)) 0 (v_z (e_position e))) moveVec in
      if negb (checkCollision nextPos obstacles 0.5) then (moved e nextPos, false)
      else (calm e, false)
    else if ltb draw.1 0.05 then
      let angle := draw.2 * PI * 2 in
      let moveVec := multiplyScalar (mkVector3 (cos angle) 0 (sin angle))
                       (e_speed e * delta * 0.5) in
      let nextPos := v_add (mkVector3 (v_x (e_position e)) 0 (v_z (e_position e))) moveVec in
      if negb (checkCollision nextPos obstacles 0.5) then (moved e nextPos, false)
      else (calm e, false)
    else (calm e, false)
  else
    let config := ENEMY_CONFIG (e_type e) in
    let attackRange := 1.5 * cfg_scale config in
    if gtb dist attackRange then
      let dir := normalize (v_sub pVec eVec) in
      let moveVec := multiplyScalar dir (e_speed e * delta) in
      let nextPos := v_add eVec moveVec in
      if negb (checkCollision nextPos obstacles 0.5) then (moved e nextPos, false)
      else (calm e, false)
    else (attacking e, true).

(** The last [map], with [takingDamage] threaded through it; the actor at
    index [k] reads the draws [draws k]. *)
Fixpoint aiMap (camera : Vector3) (obstacles : list Earlier.Obstacle) (delta : R)
    (draws : nat -> R * R) (k : nat) (takingDamage : bool) (prev : list Enemy)
    : list Enemy * bool :=
  match prev with
  | [] => ([], takingDamage)
  | e :: rest =>
      let '(e', hit) := aiStep camera obstacles delta (draws k) e in
      let '(rest', total) :=
        aiMap camera obstacles delta draws (S k) (takingDamage || hit) rest in
      (e' :: rest', total)
  end.

(** What a frame of the controller reads from outside the session. *)
Record FrameInput := mkInput {
  f_time : R;
  f_delta : R;
  f_mouseDown : bool;
  f_camera : Vector3;
  f_look : Vector3;
  f_obstacles : list Earlier.Obstacle;
  f_spawn : SpawnDraws;
  f_wander : nat -> R * R
}.

Definition withEnemies (c : Controller) (l : list Enemy) : Controller :=
  mkController l (lastShotTime c) (lastSpawnTime c) (ammoRef c) (isReloading c).

(** The shooting block. *)
Definition shootingStep (s : Session) (i : FrameInput) : Session :=
  let c := controller s in
  if f_mouseDown i && negb (isReloading c) && gtb (f_time i - lastShotTime c) FIRE_RATE then
    if bool_decide (0 < ammoRef c)%Z then
      let ammo' := (ammoRef c - 1)%Z in
      let '(updatedEnemies, points) :=
        hitscan (mkRay (f_camera i) (f_look i)) (f_camera i) (enemies c) in
      let g := setAmmo ammo' (gameState s) in
      let g := match points with Some p => handleScore p g | None => g end in
      mkSession g
        (mkController updatedEnemies (f_time i) (lastSpawnTime c) ammo' (isReloading c))
        true (timers s) (stale s)
    else
      let s' := mkSession (gameState s) c false (timers s) (stale s) in
      if bool_decide (ammoRef c = 0)%Z then reload s' else s'
  else if negb (f_mouseDown i) then mkSession (gameState s) c false (timers s) (stale s)
  else s.

Definition spawnStep (s : Session) (i : FrameInput) : Session :=
  let c := controller s in
  if gtb (f_time i - lastSpawnTime c) ENEMY_SPAWN_RATE then
    mkSession (gameState s)
      (mkController (enemies c ++ [spawnEnemy (f_camera i) (f_spawn i)])
         (lastShotTime c) (f_time i) (ammoRef c) (isReloading c))
      (isFiring s) (timers s) (stale s)
  else s.

Definition enemyStep (s : Session) (i : FrameInput) : Session :=
  let c := controller s in
  let '(next, takingDamage) :=
    aiMap (f_camera i) (f_obstacles i) (f_delta i) (f_wander i) 0 false (enemies c) in
  mkSession (if takingDamage then handleDamage 0.5 (gameState s) else gameState s)
    (withEnemies c next) (isFiring s) (timers s) (stale s).

(** The frame of the controller, which is mounted while the game is being
    played. *)
Definition controllerFrame (s : Session) (i : FrameInput) : Session :=
  if isPlaying (gameState s) then enemyStep (spawnStep (shootingStep s i) i) i
  else s.

(** The key [r]. *)
Definition keyReload (s : Session) : Session :=
  if isPlaying (gameState s)
     && bool_decide (ammoRef (controller s) < MAX_AMMO)%Z
     && negb (isReloading (controller s))
  then reload s else s.

(** A timer runs one callback scheduled by the present controller, if there
    is one. *)
Definition timeout (s : Session) : Session :=
  match timers s with
  | O => s
  | S n =>
      let s' := reloaded s in
      mkSession (gameState s') (controller s') (isFiring s') n (stale s')
  end.

(** A timer runs a callback left by a controller mounted earlier: it writes
    the refs of that controller, which nothing reads any more, and calls
    [setAmmo(MAX_AMMO)], which reaches the state of [App]. *)
Definition staleTimeout (s : Session) : Session :=
  match stale s with
  | O => s
  | S n =>
      mkSession (setAmmo MAX_AMMO (gameState s)) (controller s) (isFiring s) (timers s) n
  end.

(** The start button, which the menu shows while the game is not being
    played: [handleStart] runs and a controller is mounted anew, with its
    refs and its list of actors as they are created; the callbacks the
    controller before it has scheduled stay pending. *)
Definition start (s : Session) : Session :=
  if isPlaying (gameState s) then s
  else mkSession (handleStart (gameState s)) mounted (isFiring s) 0 (stale s + timers s).

Inductive Event :=
  | EvFrame (i : FrameInput)
  | EvKeyReload
  | EvTimeout
  | EvStaleTimeout
  | EvStart.

Definition step (s : Session) (ev : Event) : Session :=
  match ev with
  | EvFrame i => controllerFrame s i
  | EvKeyReload => keyReload s
  | EvTimeout => timeout s
  | EvStaleTimeout => staleTimeout s
  | EvStart => start s
  end.

Definition run (s : Session) (evs : list Event) : Session := fold_left step evs s.

(** The state [App] is created with. *)
Definition initialGameState : GameState := mkGameState 0 100 1 false MAX_AMMO.

(** The session as the page is loaded: the menu is shown and no controller
    has been mounted yet. *)
Definition initialSession : Session := mkSession initialGameState mounted false 0 0.

End EarlierGame.
(** * Specification predicates of the further properties *)

(** The planar distance between two points. *)
Definition planar (a b : Vector3) : R :=
  distanceTo (mkVector3 (v_x a) 0 (v_z a)) (mkVector3 (v_x b) 0 (v_z b)).

(** A shop counter has the radius [generateBuilding] gives it. *)
Definition shopAsBuilt (obs : Obstacle) : Prop :=
  o_type obs = shop_table -> o_radius obs = 3.

(** A market at the centre of chunk (0, 0), and a session that holds it. *)
Definition marketPlace : list Obstacle := generateBuilding market 30 30 0 0 "0:0:market".
Definition marketTown : World :=
  mkWorld (initialGameState true) [] 0 0 false marketPlace {[ "0:0" ]} 123.

(** A frame with the forward key held, the camera looking along -z. *)
Definition walking : MoveInput :=
  mkMoveInput 1000 0.016 (mkQuaternion 0 0 0 1) (mkControls true false false false) 0 0.

(** The player's resources are in range: gold is not negative, health lies
    within [0, 100] and is positive while the game is being played. *)
Definition resourcesOk (w : World) : Prop :=
  (0 <= gold (gameState w))%Z /\
  0 <= health (gameState w) <= 100 /\
  (isPlaying (gameState w) = true -> 0 < health (gameState w)).

(** The obstacle stands inside the square of chunk [(cx, cz)]. *)
Definition insideChunk (cx cz : Z) (obs : Obstacle) : Prop :=
  chunkOf (v_x (o_position obs)) = cx /\ chunkOf (v_z (o_position obs)) = cz.

(** The obstacle stands within [m] of the point [(x, z)] along each axis. *)
Definition nearPoint (x z m : R) (obs : Obstacle) : Prop :=
  Rabs (v_x (o_position obs) - x) <= m /\ Rabs (v_z (o_position obs) - z) <= m.

(** The obstacle sits on the surface of the terrain. *)
Definition grounded (S : R) (obs : Obstacle) : Prop :=
  v_y (o_position obs) = getTerrainHeight (v_x (o_position obs)) (v_z (o_position obs)) S.

(** The obstacle stands off the road. *)
Definition offRoad (S : R) (obs : Obstacle) : Prop :=
  getRoadInfluence (v_x (o_position obs)) (v_z (o_position obs)) S = 0.

(** Trees, wells and shop counters sit on the terrain; trees, shop counters
    and the roofs of cottages and towers (which mark the anchor of the
    building) stand off the road. *)
Definition wellPlaced (S : R) (obs : Obstacle) : Prop :=
  (o_type obs = tree \/ o_type obs = well \/ o_type obs = shop_table -> grounded S obs) /\
  (o_type obs = tree \/ o_type obs = roof \/ o_type obs = shop_table -> offRoad S obs).

(** The chunk is a village: the draw [getRand(999)] is above the chance,
    which a road through the centre of the chunk lowers. *)
Definition isVillage (chunkX chunkZ : Z) (worldSeed : R) : bool :=
  let chunkSeed := chunkSeedOf chunkX chunkZ worldSeed in
  let getRand (offset : Z) := seededRandom (IZR (chunkSeed + offset)) in
  let centerX := IZR chunkX * CHUNK_SIZE + CHUNK_SIZE / 2 in
  let centerZ := IZR chunkZ * CHUNK_SIZE + CHUNK_SIZE / 2 in
  let centerRoadInf := getRoadInfluence centerX centerZ worldSeed in
  let villageChance := if gtb centerRoadInf 0 then 0.6 else 0.96 in
  gtb (getRand 999%Z) villageChance.

(** The point at [(t, u)] in the frame of a building anchored at [(x, z)]
    and turned by [rotation], [t] along its width and [u] toward its front,
    as [generateBuilding] places the walls. *)
Definition inFrame (x z y rotation t u : R) : Vector3 :=
  mkVector3 (x + (t * cos rotation - u * sin rotation)) y
            (z + (t * sin rotation + u * cos rotation)).

(** The footprint of the five walls of a cottage for a body of radius 0.5,
    in the frame of the cottage: the back wall, the two side walls and the
    two front walls, which leave the door between them. *)
Definition cottageWalls (t u : R) : Prop :=
  (Rabs t < 4.5 /\ Rabs (u + 4) < 1) \/
  (Rabs (t + 4) < 1 /\ Rabs u < 4.5) \/
  (Rabs (t - 4) < 1 /\ Rabs u < 4.5) \/
  (Rabs (t + 2.75) < 1.75 /\ Rabs (u - 4) < 1) \/
  (Rabs (t - 2.75) < 1.75 /\ Rabs (u - 4) < 1).

(** The footprint of the four walls of a tower for a body of radius 0.5,
    in the frame of the tower. *)
Definition towerWalls (t u : R) : Prop :=
  (Rabs t < 3 /\ Rabs (u + 2.5) < 1) \/
  (Rabs t < 3 /\ Rabs (u - 2.5) < 1) \/
  (Rabs (t + 2.5) < 1 /\ Rabs u < 3) \/
  (Rabs (t - 2.5) < 1 /\ Rabs u < 3).

(** Each coordinate of the point lies within [-r, r]. *)
Definition inBox (r : R) (p : R * R) : Prop := Rabs p.1 <= r /\ Rabs p.2 <= r.

(** The offset of a pointer from the centre of the container. *)
Definition pointerOffset (rect : Joystick.DOMRect) (clientX clientY : R) : R * R :=
  (clientX - (Joystick.r_left rect + Joystick.r_width rect / 2),
   clientY - (Joystick.r_top rect + Joystick.r_height rect / 2)).

(** The container of the joystick as the style sheet sizes it: 112 pixels
    wide and high, 40 pixels from the left and the bottom of an 800 by 600
    window. *)
Definition pad : Joystick.DOMRect := Joystick.mkRect 40 448 112 112.

(** The pose of the weapon is within the range of its sway and recoil. *)
Definition weaponInRange (p : WeaponPose) : Prop :=
  0.295 <= wp_x p <= 0.305 /\ -0.255 <= wp_y p <= -0.245 /\
  -0.5 <= wp_z p <= -0.3 /\ -0.5 <= wr_x p <= 0.1 /\ -0.5 <= wr_z p <= 0.

(** ** The earlier variant *)

(** The gun of the earlier controller is consistent: the count in the gun
    and the count shown are both within [0, MAX_AMMO], and the controller
    has a reload callback pending exactly while its gun is reloading. *)
Definition gunOk (s : EarlierGame.Session) : Prop :=
  (0 <= EarlierGame.ammoRef (EarlierGame.controller s) <= MAX_AMMO)%Z /\
  (0 <= EarlierGame.ammo (EarlierGame.gameState s) <= MAX_AMMO)%Z /\
  EarlierGame.timers s
    = (if EarlierGame.isReloading (EarlierGame.controller s) then 1 else 0)%nat.

(** An event of the earlier variant that is no press of the start button. *)
Definition withinGame (ev : EarlierGame.Event) : Prop :=
  match ev with
  | EarlierGame.EvStart => False
  | _ => True
  end.

(** The id and the hit points of an actor. *)
Definition vitals (e : EarlierGame.Enemy) : string * R :=
  (EarlierGame.e_id e, EarlierGame.e_hp e).

(** Every actor of the session has hit points left. *)
Definition allAlive (s : EarlierGame.Session) : Prop :=
  Forall (fun e => 0 < EarlierGame.e_hp e) (EarlierGame.enemies (EarlierGame.controller s)).

(** An actor of the earlier variant that is no villager and stands within
    its attack range of the camera. *)
Definition inAttackRange (camera : Vector3) (e : EarlierGame.Enemy) : bool :=
  negb (bool_decide (EarlierGame.e_type e = villager))
  && negb (gtb (distanceTo (mkVector3 (v_x (EarlierGame.e_position e)) 0
                              (v_z (EarlierGame.e_position e)))
                           (mkVector3 (v_x camera) 0 (v_z camera)))
               (1.5 * EarlierGame.cfg_scale (EarlierGame.ENEMY_CONFIG (EarlierGame.e_type e)))).

(** The obstacle of the earlier variant stands within half a chunk of the
    corner [(cx * CHUNK_SIZE, cz * CHUNK_SIZE)] of the chunk, along each
    axis. *)
Definition aroundCorner (cx cz : Z) (obs : Earlier.Obstacle) : Prop :=
  IZR cx * CHUNK_SIZE - CHUNK_SIZE / 2 <= v_x (Earlier.o_position obs)
    < IZR cx * CHUNK_SIZE + CHUNK_SIZE / 2 /\
  IZR cz * CHUNK_SIZE - CHUNK_SIZE / 2 <= v_z (Earlier.o_position obs)
    < IZR cz * CHUNK_SIZE + CHUNK_SIZE / 2.

(** ** Ids of obstacles *)

(** The fields of an id after the two fields of the key of its chunk. *)
Definition idFields (id : string) : list string := drop 2 (splitColon id).

(** The first of these fields, which names the group of the obstacle: the
    market, a building or the well of a village, or a tree. *)
Definition slot (id : string) : option string := head (idFields id).

(** The first character of the slot. *)
Definition kind (id : string) : option ascii :=
  match slot id with
  | Some (String c _) => Some c
  | _ => None
  end.

(** What [generateBuilding] appends to the prefix of a building for each of
    its parts, in their order. *)
Definition partSuffixes (type : BuildingType) : list string :=
  match type with
  | market =>
      [":pillar:-1:-1"; ":pillar:-1:1"; ":pillar:1:-1"; ":pillar:1:1"; ":roof"; ":shop"]
  | tower => [":wall:0"; ":wall:1"; ":wall:2"; ":wall:3"; ":roof"]
  | cottage => [":wall:back"; ":wall:left"; ":wall:right"; ":wall:fl"; ":wall:fr"; ":roof"]
  end.

(** The ids of a list are distinct and each names a chunk of [loaded]. *)
Definition idsIn (loaded : gset string) (l : list Obstacle) : Prop :=
  NoDup (map o_id l) /\
  Forall (fun o => exists c, chunkOfId (o_id o) = Some c /\ chunkKey c.1 c.2 ∈ loaded) l.

Definition idsOk (w : World) : Prop := idsIn (loadedChunks w) (obstacles w).

(** * Properties *)

(** ** Comparisons *)

Lemma ltb_true (a b : R) : ltb a b = true <-> a < b.
Proof. unfold ltb. apply bool_decide_eq_true. Qed.

Lemma ltb_false (a b : R) : ltb a b = false <-> b <= a.
Proof. unfold ltb. rewrite bool_decide_eq_false. split; lra. Qed.

Lemma gtb_true (a b : R) : gtb a b = true <-> b < a.
Proof. unfold gtb. apply bool_decide_eq_true. Qed.

Lemma gtb_false (a b : R) : gtb a b = false <-> a <= b.
Proof. unfold gtb. rewrite bool_decide_eq_false. split; lra. Qed.

Lemma leb_true (a b : R) : leb a b = true <-> a <= b.
Proof. unfold leb. apply bool_decide_eq_true. Qed.

Lemma leb_false (a b : R) : leb a b = false <-> b < a.
Proof. unfold leb. rewrite bool_decide_eq_false. split; lra. Qed.

Lemma eqb_true (a b : R) : eqb a b = true <-> a = b.
Proof. unfold eqb. apply bool_decide_eq_true. Qed.

(** Rewriting a comparison whose outcome follows by linear arithmetic. *)
Ltac decide_cmp :=
  repeat match goal with
  | |- context [ltb ?a ?b] =>
      first [ rewrite (proj2 (ltb_true a b)) by lra
            | rewrite (proj2 (ltb_false a b)) by lra ]
  | |- context [gtb ?a ?b] =>
      first [ rewrite (proj2 (gtb_true a b)) by lra
            | rewrite (proj2 (gtb_false a b)) by lra ]
  | |- context [leb ?a ?b] =>
      first [ rewrite (proj2 (leb_true a b)) by lra
            | rewrite (proj2 (leb_false a b)) by lra ]
  end.

(** ** Collision *)

Lemma blocksAt_spec (position : Vector3) (radius : R) (obs : Obstacle) :
  blocksAt position radius obs = true <->
  insideCutoff position obs /\ inFootprint position radius obs.
Proof.
  unfold blocksAt, insideCutoff, inFootprint, skipped, offsetX, offsetZ.
  set (dx := v_x position - v_x (o_position obs)).
  set (dz := v_z position - v_z (o_position obs)).
  destruct (gtb (Rabs dx) 15) eqn:Hx; simpl.
  { apply gtb_true in Hx. split; [discriminate | intros [[? ?] _]; lra]. }
  destruct (gtb (Rabs dz) 15) eqn:Hz; simpl.
  { apply gtb_true in Hz. split; [discriminate | intros [[? ?] _]; lra]. }
  apply gtb_false in Hx. apply gtb_false in Hz.
  assert (Hcircle : circleBlocks dx dz obs radius = true <->
          0 < o_radius obs /\
          dx * dx + dz * dz < (o_radius obs + radius) * (o_radius obs + radius)).
  { unfold circleBlocks. rewrite andb_true_iff, gtb_true, ltb_true. tauto. }
  destruct (o_type obs), (o_dims obs) as [dims|];
    try (rewrite Hcircle; tauto).
  unfold wallBlocks. rewrite andb_true_iff, !ltb_true. tauto.
Qed.

Lemma checkCollision_exists (position : Vector3) (obstacles : list Obstacle) (radius : R) :
  checkCollision position obstacles radius = true <->
  exists obs, obs ∈ obstacles /\ blocksAt position radius obs = true.
Proof.
  induction obstacles as [|o rest IH]; simpl.
  - split; [discriminate | intros (obs & Hin & _); inversion Hin].
  - destruct (blocksAt position radius o) eqn:Hb.
    + split; [intros _; exists o; split; [left | exact Hb] | reflexivity].
    + rewrite IH. split.
      * intros (obs & Hin & Hobs). exists obs. split; [right; exact Hin | exact Hobs].
      * intros (obs & Hin & Hobs). apply elem_of_cons in Hin as [-> | Hin].
        -- congruence.
        -- exists obs. split; assumption.
Qed.

Lemma checkCollision_app (position : Vector3) (l1 l2 : list Obstacle) (radius : R) :
  checkCollision position (l1 ++ l2) radius =
  checkCollision position l1 radius || checkCollision position l2 radius.
Proof.
  induction l1 as [|o rest IH]; simpl; [reflexivity|].
  destruct (blocksAt position radius o); [reflexivity | exact IH].
Qed.

Lemma zeroRadiusNonWall_blocksAt (position : Vector3) (radius : R) (obs : Obstacle) :
  zeroRadiusNonWall obs -> blocksAt position radius obs = false.
Proof.
  intros [Hty Hr]. apply not_true_is_false. rewrite blocksAt_spec.
  intros [_ Hfoot]. unfold inFootprint in Hfoot.
  destruct (o_type obs), (o_dims obs); try congruence; lra.
Qed.

Lemma roof_of_building (type : BuildingType) (x z y rotation : R) (idPrefix : string)
    (obs : Obstacle) :
  obs ∈ generateBuilding type x z y rotation idPrefix ->
  o_type obs = roof ->
  type <> market /\ zeroRadiusNonWall obs.
Proof.
  intros Hin Hroof. unfold zeroRadiusNonWall.
  destruct type; simpl in Hin;
    repeat (apply elem_of_cons in Hin as [-> | Hin]);
    simpl in *; try discriminate; try (inversion Hin; fail);
    (split; [discriminate | split; [discriminate | reflexivity]]).
Qed.

Lemma building_has_roof (type : BuildingType) (x z y rotation : R) (idPrefix : string) :
  type <> market ->
  exists obs, obs ∈ generateBuilding type x z y rotation idPrefix /\ o_type obs = roof.
Proof.
  intros Hty. destruct type; [| | congruence]; eexists; split.
  - apply list_elem_of_lookup. exists 5%nat. reflexivity.
  - reflexivity.
  - apply list_elem_of_lookup. exists 4%nat. reflexivity.
  - reflexivity.
Qed.

(** C6 (as amended): [checkCollision] answers [true] exactly when some
    obstacle of the list lies within the broad-phase cutoff (15 units on
    each axis) and the query point is in its footprint grown by the actor's
    radius: the oriented box of a wall that has dims, and for any other
    obstacle the circle of its radius provided that radius is positive. *)
Theorem checkCollision_footprints (position : Vector3) (obstacles : list Obstacle)
    (radius : R) :
  checkCollision position obstacles radius = true <->
  exists obs, obs ∈ obstacles /\ insideCutoff position obs /\
              inFootprint position radius obs.
Proof.
  rewrite checkCollision_exists. split.
  - intros (obs & Hin & Hb). apply blocksAt_spec in Hb. exists obs. tauto.
  - intros (obs & Hin & Hcut & Hfoot). exists obs. split; [exact Hin|].
    apply blocksAt_spec. tauto.
Qed.

(** C6, counterexample: a cottage roof (no wall, radius 0) at the query
    point.  The circular test as the claim words it holds, since
    0 < (0 + 0.5)², and the roof is inside the cutoff, yet [checkCollision]
    answers [false]. *)
Lemma circular_test_ignores_zero_radius :
  checkCollision (mkVector3 0 5 0) [cottageRoof] 0.5 = false /\
  insideCutoff (mkVector3 0 5 0) cottageRoof /\
  inFootprintAsSpecified (mkVector3 0 5 0) 0.5 cottageRoof.
Proof.
  split; [|split].
  - simpl. rewrite zeroRadiusNonWall_blocksAt; [reflexivity|].
    split; [discriminate | reflexivity].
  - unfold insideCutoff, offsetX, offsetZ; simpl.
    rewrite Rminus_diag, Rabs_R0. lra.
  - unfold inFootprintAsSpecified, offsetX, offsetZ; simpl. lra.
Qed.

(** C9: an obstacle that is no wall and has radius 0 never makes
    [checkCollision] answer [true]: its own iteration does not return, and
    the answer with it in the list is the answer without it.  The roofs of
    cottages and towers are such obstacles, and every cottage and tower has
    one. *)
Theorem zero_radius_never_blocks (position : Vector3) (radius : R) (obs : Obstacle)
    (before after : list Obstacle) :
  zeroRadiusNonWall obs ->
  blocksAt position radius obs = false /\
  checkCollision position (before ++ obs :: after) radius =
    checkCollision position (before ++ after) radius /\
  (forall type x z y rotation idPrefix part,
     part ∈ generateBuilding type x z y rotation idPrefix ->
     o_type part = roof -> type <> market /\ zeroRadiusNonWall part) /\
  (forall type x z y rotation idPrefix,
     type <> market ->
     exists part, part ∈ generateBuilding type x z y rotation idPrefix /\
                  o_type part = roof).
Proof.
  intros Hz. pose proof (zeroRadiusNonWall_blocksAt position radius obs Hz) as Hb.
  split; [exact Hb|]. split; [|split].
  - rewrite !checkCollision_app. simpl. rewrite Hb. reflexivity.
  - intros. eapply roof_of_building; eassumption.
  - intros. apply building_has_roof. assumption.
Qed.

Lemma zero_radius_never_blocks_witness :
  zeroRadiusNonWall cottageRoof /\
  checkCollision (mkVector3 0 5 0) ([] ++ cottageRoof :: []) 0.5 =
    checkCollision (mkVector3 0 5 0) ([] ++ []) 0.5.
Proof.
  assert (Hz : zeroRadiusNonWall cottageRoof) by (split; [discriminate | reflexivity]).
  split; [exact Hz|].
  exact (proj1 (proj2 (zero_radius_never_blocks (mkVector3 0 5 0) 0.5 cottageRoof [] [] Hz))).
Defined.

(** ** Generation *)

Lemma sameFields_refl (l : list Obstacle) : Forall2 sameFields l l.
Proof.
  induction l as [|o l IH]; constructor; [|exact IH].
  unfold sameFields. repeat split.
Qed.

(** ** Hitscan: the scan picks the nearest candidate *)

Section Scan.
Context (ray : Ray) (camera : Vector3) (seed : R).

Lemma scanStep_cases (s : Scan) (e : Enemy) :
  (qualifies ray seed e /\ camDist camera seed e < minDist s /\
   scanStep ray camera seed s e = mkScan (camDist camera seed e) (Some (e_id e)) (torso seed e))
  \/
  ((qualifies ray seed e -> minDist s <= camDist camera seed e) /\
   scanStep ray camera seed s e = s).
Proof.
  unfold scanStep, qualifies, camDist.
  destruct (e_isDead e) eqn:Hd.
  { right. split; [intros [? _]; discriminate | reflexivity]. }
  destruct (ltb (distanceSqToPoint ray (torso seed e)) (hitboxSize e * hitboxSize e)) eqn:Hq.
  - apply ltb_true in Hq.
    destruct (ltb (distanceTo camera (torso seed e)) (minDist s)) eqn:Hc.
    + apply ltb_true in Hc. left. tauto.
    + apply ltb_false in Hc. right. tauto.
  - apply ltb_false in Hq. right. split; [intros [_ ?]; lra | reflexivity].
Qed.

(** The variables after the scan of [l] from [s0]: either no actor of [l]
    improved on [s0], or they describe the first actor of [l] that is nearest
    among the qualifying ones and nearer than [minDist s0]. *)
Lemma scan_fold (l : list Enemy) (s0 : Scan) :
  ((forall e, e ∈ l -> qualifies ray seed e -> minDist s0 <= camDist camera seed e) /\
   fold_left (scanStep ray camera seed) l s0 = s0)
  \/
  (exists before target after,
     l = before ++ target :: after /\
     qualifies ray seed target /\ camDist camera seed target < minDist s0 /\
     fold_left (scanStep ray camera seed) l s0 =
       mkScan (camDist camera seed target) (Some (e_id target)) (torso seed target) /\
     (forall e, e ∈ before -> qualifies ray seed e ->
                camDist camera seed target < camDist camera seed e) /\
     (forall e, e ∈ after -> qualifies ray seed e ->
                camDist camera seed target <= camDist camera seed e)).
Proof.
  revert s0. induction l as [|a l IH]; intros s0; simpl.
  { left. split; [intros e He; inversion He | reflexivity]. }
  destruct (scanStep_cases s0 a) as [(Hq & Hlt & ->) | (Hge & ->)].
  - destruct (IH (mkScan (camDist camera seed a) (Some (e_id a)) (torso seed a)))
      as [(Hall & ->) | (before & t & after & -> & Hqt & Hdt & -> & Hb & Ha)]; simpl in *.
    + right. exists [], a, l. split_and!; try assumption; try reflexivity.
      intros e He; inversion He.
    + right. exists (a :: before), t, after. split_and!; try assumption;
        try reflexivity; [lra|].
      intros e He Hqe. apply elem_of_cons in He as [-> | He]; [lra | auto].
  - destruct (IH s0) as [(Hall & ->) | (before & t & after & -> & Hqt & Hdt & -> & Hb & Ha)].
    + left. split; [|reflexivity].
      intros e He Hqe. apply elem_of_cons in He as [-> | He]; auto.
    + right. exists (a :: before), t, after. split_and!; try assumption;
        try reflexivity.
      intros e He Hqe. apply elem_of_cons in He as [-> | He]; [|auto].
      specialize (Hge Hqe). lra.
Qed.

End Scan.

Lemma applyHit_None (mult time : R) (ray : Ray) (l : list Enemy) :
  map (applyHit None mult time ray) l = l.
Proof.
  induction l as [|e l IH]; simpl; [reflexivity|].
  rewrite IH. unfold applyHit. rewrite bool_decide_eq_false_2 by discriminate. reflexivity.
Qed.

(** Actors that do not carry the struck id are returned as they are. *)
Lemma applyHit_other (id : string) (mult time : R) (ray : Ray) (l : list Enemy) :
  id ∉ map e_id l -> map (applyHit (Some id) mult time ray) l = l.
Proof.
  induction l as [|e l IH]; simpl; intros Hnot; [reflexivity|].
  apply not_elem_of_cons in Hnot as [Hne Hnot].
  rewrite IH by exact Hnot. unfold applyHit.
  rewrite bool_decide_eq_false_2; [reflexivity | congruence].
Qed.

Lemma applyHit_struck (mult time : R) (ray : Ray) (e : Enemy) :
  struck mult time e (applyHit (Some (e_id e)) mult time ray e).
Proof.
  unfold struck, applyHit. rewrite bool_decide_eq_true_2 by reflexivity.
  destruct (leb (e_hp e - 35 * mult) 0) eqn:Hle; simpl.
  - apply leb_true in Hle. repeat split; try reflexivity; try lra.
    rewrite Rmax_left by lra. reflexivity.
  - apply leb_false in Hle. repeat split; try reflexivity; try lra.
    rewrite Rmax_right by lra. reflexivity.
Qed.

(** With distinct ids, a shot that struck [target] rewrites it in place. *)
Lemma applyHit_in_place (mult time : R) (ray : Ray) (before after : list Enemy)
    (target : Enemy) :
  NoDup (map e_id (before ++ target :: after)) ->
  map (applyHit (Some (e_id target)) mult time ray) (before ++ target :: after) =
  before ++ applyHit (Some (e_id target)) mult time ray target :: after.
Proof.
  intros Hnd. rewrite map_app in Hnd. simpl in Hnd.
  apply NoDup_app in Hnd as (_ & Hdisj & Hnd).
  apply NoDup_cons in Hnd as [Hafter _].
  rewrite map_app. simpl.
  rewrite !applyHit_other; [reflexivity | exact Hafter |].
  intros Hin. apply (Hdisj _ Hin). left.
Qed.

(** The outcome of the scan, from the initial range of 100. *)
Lemma scanEnemies_outcome (ray : Ray) (camera : Vector3) (seed : R) (prev : list Enemy) :
  ((forall e, e ∈ prev -> ~ candidate ray camera seed e) /\
   hitId (scanEnemies ray camera seed prev) = None)
  \/
  (exists before target after,
     prev = before ++ target :: after /\
     candidate ray camera seed target /\
     hitId (scanEnemies ray camera seed prev) = Some (e_id target) /\
     (forall e, e ∈ prev -> qualifies ray seed e ->
                camDist camera seed target <= camDist camera seed e) /\
     (forall e, e ∈ before -> qualifies ray seed e ->
                camDist camera seed target < camDist camera seed e)).
Proof.
  unfold scanEnemies.
  destruct (scan_fold ray camera seed prev (mkScan 100 None (ray_at ray 100)))
    as [(Hall & ->) | (before & t & after & -> & Hqt & Hdt & -> & Hb & Ha)]; simpl in *.
  - left. split; [|reflexivity]. intros e He [Hq Hd]. specialize (Hall e He Hq). lra.
  - right. exists before, t, after. split_and!; try assumption; try reflexivity.
    { split; assumption. }
    intros e He Hqe. apply elem_of_app in He as [He | He].
    + specialize (Hb e He Hqe). lra.
    + apply elem_of_cons in He as [-> | He]; [lra | auto].
Qed.

(** C2 (as amended): for every shot and every list of actors with pairwise
    distinct ids, the shot changes at most one actor.  When no live actor
    qualifies at a camera distance below the range of 100, the list is
    returned unchanged.  Otherwise the struck actor is the first of the list
    with the least camera distance among the qualifying actors; its hit
    points become hp - 35 x multiplier floored at 0, it is marked dead when
    the floor applies, and every other actor is returned as it was. *)
Theorem hitscan_nearest_takes_all (ray : Ray) (camera : Vector3) (seed mult time : R)
    (prev : list Enemy) :
  NoDup (map e_id prev) ->
  let next := (hitscan ray camera seed mult time prev).1.1 in
  ((forall e, e ∈ prev -> ~ candidate ray camera seed e) /\ next = prev)
  \/
  (exists before target after target',
     prev = before ++ target :: after /\
     next = before ++ target' :: after /\
     candidate ray camera seed target /\
     (forall e, e ∈ prev -> qualifies ray seed e ->
                camDist camera seed target <= camDist camera seed e) /\
     (forall e, e ∈ before -> qualifies ray seed e ->
                camDist camera seed target < camDist camera seed e) /\
     struck mult time target target').
Proof.
  intros Hnd. unfold hitscan; simpl.
  destruct (scanEnemies_outcome ray camera seed prev)
    as [(Hnone & ->) | (before & t & after & Hprev & Hc & -> & Hmin & Hfirst)].
  - left. split; [exact Hnone | apply applyHit_None].
  - right. exists before, t, after, (applyHit (Some (e_id t)) mult time ray t).
    subst prev. split_and!; try assumption; try reflexivity.
    + apply applyHit_in_place. exact Hnd.
    + apply applyHit_struck.
Qed.

(** An actor of scale 0.8 standing at the point (0, 0) of the ground is on
    the ray of a camera [d] units in front of it, at camera distance [d]. *)
Lemma torso_standing (id : string) (type : EnemyType) :
  cfg_scale (ENEMY_CONFIG type) = 0.8 ->
  torso 123 (standing id type) = cameraAt 0.
Proof. intros Hs. unfold torso, standing, cameraAt. simpl. rewrite Hs. reflexivity. Qed.

Lemma camDist_standing (id : string) (type : EnemyType) (d : R) :
  cfg_scale (ENEMY_CONFIG type) = 0.8 -> 0 <= d ->
  camDist (cameraAt d) 123 (standing id type) = d.
Proof.
  intros Hs Hd. unfold camDist. rewrite torso_standing by exact Hs.
  unfold distanceTo, distanceToSquared, lengthSq, v_dot, v_sub, cameraAt. simpl.
  match goal with |- sqrt ?e = _ => replace e with (d * d) by ring end.
  apply sqrt_square. exact Hd.
Qed.

Lemma qualifies_standing (id : string) (type : EnemyType) (d : R) :
  cfg_scale (ENEMY_CONFIG type) = 0.8 -> 0 <= d ->
  qualifies (rayFrom d) 123 (standing id type).
Proof.
  intros Hs Hd. split; [reflexivity|]. rewrite torso_standing by exact Hs.
  unfold distanceSqToPoint, rayFrom, cameraAt, ray_at, distanceToSquared, lengthSq, v_dot,
    v_sub, v_add, multiplyScalar, hitboxSize. simpl. rewrite Hs.
  rewrite (proj2 (ltb_false _ 0)) by lra. simpl. nra.
Qed.

(** C2, counterexample: a single live peasant stands on the crosshair ray
    (squared distance 0 from it, so it qualifies and is the nearest
    qualifying actor) 150 units from the camera.  The shot leaves it with
    its 40 hit points: the scan starts from a range of 100. *)
Lemma shot_beyond_range_hits_nothing :
  qualifies farRay 123 farPeasant /\
  (hitscan farRay farCamera 123 1 0 [farPeasant]).1.1 = [farPeasant] /\
  e_hp farPeasant = 40.
Proof.
  split; [apply qualifies_standing; [reflexivity | lra]|]. split; [|simpl; lra].
  unfold hitscan; simpl fst.
  destruct (scanEnemies_outcome farRay farCamera 123 [farPeasant])
    as [(_ & ->) | (before & t & after & Hprev & [_ Hd] & _)].
  - apply (applyHit_None 1 0 farRay [farPeasant]).
  - exfalso. destruct before as [|b before]; simpl in Hprev.
    + injection Hprev as <- _. unfold farCamera, farPeasant in Hd.
      rewrite camDist_standing in Hd by (try reflexivity; lra). lra.
    + injection Hprev as _ Hprev. destruct before; discriminate.
Qed.

Lemma hitscan_nearest_takes_all_witness :
  NoDup (map e_id [farPeasant]) /\
  ((hitscan farRay farCamera 123 1 0 [farPeasant]).1.1 = [farPeasant] \/
   exists target', struck 1 0 farPeasant target' /\
                   (hitscan farRay farCamera 123 1 0 [farPeasant]).1.1 = [target']).
Proof.
  assert (Hnd : NoDup (map e_id [farPeasant])).
  { simpl. apply NoDup_singleton. }
  split; [exact Hnd|].
  destruct (hitscan_nearest_takes_all farRay farCamera 123 1 0 [farPeasant] Hnd)
    as [[_ Hsame] | (before & t & after & t' & Hprev & Hnext & _ & _ & _ & Hs)].
  - left. exact Hsame.
  - right. destruct before as [|b before]; simpl in Hprev.
    + injection Hprev as <- <-. exists t'. split; [exact Hs | exact Hnext].
    + injection Hprev as _ Hprev. destruct before; discriminate.
Defined.

(** ** The actor update *)

Section ActorUpdate.
Context (camera : Vector3) (obstacles : list Obstacle) (seed delta : R).

Lemma aiStep_dead (e : Enemy) :
  e_isDead e = true -> aiStep camera obstacles seed delta e = (e, 0).
Proof. intros Hd. unfold aiStep. rewrite Hd. reflexivity. Qed.

(** The update moves an actor and sets its attacking flag; nothing else. *)
Lemma aiActor_keeps (e : Enemy) :
  let e' := aiActor camera obstacles seed delta e in
  e_id e' = e_id e /\ e_type e' = e_type e /\ e_hp e' = e_hp e /\
  e_maxHp e' = e_maxHp e /\ e_isDead e' = e_isDead e /\ e_deadTime e' = e_deadTime e.
Proof.
  unfold aiActor, aiStep. repeat case_match; simpl; repeat split; congruence.
Qed.

(** What an actor adds to [damageDealt]. *)
Lemma aiStep_damage (e : Enemy) :
  (aiStep camera obstacles seed delta e).2 = if decide (attacks camera e) then 0.2 else 0.
Proof.
  destruct (decide (attacks camera e)) as [(Hd & Hv & Hr) | Hno].
  - unfold aiStep. unfold planarDist in Hr. rewrite Hd.
    rewrite (proj2 (gtb_false _ 50)) by lra.
    rewrite bool_decide_eq_false_2 by exact Hv.
    rewrite (proj2 (ltb_true _ 1.5)) by exact Hr. reflexivity.
  - unfold aiStep. unfold attacks, planarDist in Hno.
    destruct (e_isDead e) eqn:Hd; [reflexivity|].
    destruct (gtb _ 50) eqn:H50; [reflexivity|].
    destruct (bool_decide (e_type e = villager)) eqn:Hv.
    { destruct (ltb _ 15); reflexivity. }
    apply bool_decide_eq_false in Hv.
    destruct (ltb _ 1.5) eqn:Hr.
    + apply ltb_true in Hr. exfalso. apply Hno. tauto.
    + repeat case_match; reflexivity.
Qed.

Lemma aiStep_attacking (e : Enemy) :
  attacks camera e -> e_isAttacking (aiActor camera obstacles seed delta e) = true.
Proof.
  intros (Hd & Hv & Hr). unfold aiActor, aiStep. unfold planarDist in Hr. rewrite Hd.
  rewrite (proj2 (gtb_false _ 50)) by lra.
  rewrite bool_decide_eq_false_2 by exact Hv.
  rewrite (proj2 (ltb_true _ 1.5)) by exact Hr. reflexivity.
Qed.

Lemma aiMap_actors (l : list Enemy) (acc : R) :
  (aiMap camera obstacles seed delta acc l).1 = map (aiActor camera obstacles seed delta) l.
Proof.
  revert acc. induction l as [|e l IH]; intros acc; simpl; [reflexivity|].
  unfold aiActor at 1. destruct (aiStep camera obstacles seed delta e) as [e' d].
  specialize (IH (acc + d)).
  destruct (aiMap camera obstacles seed delta (acc + d) l) as [rest total].
  simpl in *. rewrite IH. reflexivity.
Qed.

(** [damageDealt] grows by 0.2 for each attacker. *)
Lemma aiMap_damage (l : list Enemy) (acc : R) :
  (aiMap camera obstacles seed delta acc l).2 = acc + 0.2 * INR (attackers camera l).
Proof.
  revert acc. induction l as [|e l IH]; intros acc; simpl.
  { unfold attackers. simpl. lra. }
  pose proof (aiStep_damage e) as Hd.
  destruct (aiStep camera obstacles seed delta e) as [e' d]. simpl in Hd.
  specialize (IH (acc + d)).
  destruct (aiMap camera obstacles seed delta (acc + d) l) as [rest total].
  simpl in *. rewrite IH, Hd. unfold attackers. rewrite filter_cons.
  destruct (decide (attacks camera e)); [rewrite length_cons, S_INR|]; lra.
Qed.

Lemma updateEnemies_actors (time : R) (l : list Enemy) :
  (updateEnemies camera obstacles seed delta time l).1 =
  filter (fun e => stillShown time e = true) (map (aiActor camera obstacles seed delta) l).
Proof.
  unfold updateEnemies. pose proof (aiMap_actors l 0) as H.
  destruct (aiMap camera obstacles seed delta 0 l). simpl in *. rewrite H. reflexivity.
Qed.

Lemma updateEnemies_damage (time : R) (l : list Enemy) :
  (updateEnemies camera obstacles seed delta time l).2 = 0.2 * INR (attackers camera l).
Proof.
  unfold updateEnemies. pose proof (aiMap_damage l 0) as H.
  destruct (aiMap camera obstacles seed delta 0 l). simpl in *. rewrite H. lra.
Qed.

Lemma aiActor_wf (e : Enemy) : wfEnemy e -> wfEnemy (aiActor camera obstacles seed delta e).
Proof.
  unfold wfEnemy. destruct (aiActor_keeps e) as (_ & _ & -> & -> & -> & _). tauto.
Qed.

Lemma aiActor_ids (l : list Enemy) :
  map e_id (map (aiActor camera obstacles seed delta) l) = map e_id l.
Proof.
  rewrite map_map. apply map_ext. intros e. apply (aiActor_keeps e).
Qed.

End ActorUpdate.

(** ** Lists keyed by distinct ids *)

Lemma same_id_same_actor (l : list Enemy) (a b : Enemy) :
  NoDup (map e_id l) -> a ∈ l -> b ∈ l -> e_id a = e_id b -> a = b.
Proof.
  induction l as [|x l IH]; simpl; intros Hnd Ha Hb Hid; [inversion Ha|].
  apply NoDup_cons in Hnd as [Hx Hnd].
  apply elem_of_cons in Ha as [-> | Ha]; apply elem_of_cons in Hb as [-> | Hb].
  - reflexivity.
  - exfalso. apply Hx. rewrite Hid. apply (list_elem_of_fmap_2 e_id). exact Hb.
  - exfalso. apply Hx. rewrite <- Hid. apply (list_elem_of_fmap_2 e_id). exact Ha.
  - auto.
Qed.

(** ** The shooting block *)

Lemma applyHit_id (hit : option string) (mult time : R) (ray : Ray) (e : Enemy) :
  e_id (applyHit hit mult time ray e) = e_id e.
Proof. unfold applyHit. repeat case_match; reflexivity. Qed.

Lemma applyHit_ids (hit : option string) (mult time : R) (ray : Ray) (l : list Enemy) :
  map e_id (map (applyHit hit mult time ray) l) = map e_id l.
Proof. rewrite map_map. apply map_ext. intros e. apply applyHit_id. Qed.

Lemma applyHit_miss (hit : option string) (mult time : R) (ray : Ray) (e : Enemy) :
  hit <> Some (e_id e) -> applyHit hit mult time ray e = e.
Proof.
  intros Hne. unfold applyHit. rewrite bool_decide_eq_false_2 by congruence. reflexivity.
Qed.

Lemma applyHit_wf (hit : option string) (mult time : R) (ray : Ray) (e : Enemy) :
  0 <= mult -> wfEnemy e -> wfEnemy (applyHit hit mult time ray e).
Proof.
  intros Hm (Hb & Ha & Hd). unfold applyHit, wfEnemy.
  destruct (bool_decide (Some (e_id e) = hit)); [|tauto].
  destruct (leb (e_hp e - 35 * mult) 0) eqn:Hle; simpl.
  - split; [lra|]. split; [discriminate | reflexivity].
  - apply leb_false in Hle. split; [lra|]. split; [lra|].
    intros Hdead. specialize (Hd Hdead). lra.
Qed.

(** The id a frame strikes is the id of a live actor of the session. *)
Lemma frameHit_alive (w : World) (i : FrameInput) (id : string) :
  frameHit w i = Some id ->
  exists t, t ∈ enemies w /\ e_id t = id /\ e_isDead t = false.
Proof.
  unfold frameHit. destruct (shotOutcome w i); try discriminate.
  destruct (scanEnemies_outcome (mkRay (f_camera i) (f_look i)) (f_camera i) (seed w) (enemies w))
    as [(_ & ->) | (before & t & after & Hprev & [[Hd _] _] & -> & _)]; [discriminate|].
  intros [= <-]. exists t. split_and!; try done.
  rewrite Hprev. apply elem_of_app. right. left.
Qed.

Lemma shootingStep_enemies (w : World) (i : FrameInput) :
  enemies (shootingStep w i).1 =
  map (applyHit (frameHit w i) (damageMultiplier (gameState w)) (f_time i)
         (mkRay (f_camera i) (f_look i))) (enemies w).
Proof.
  unfold shootingStep, frameHit, shotOutcome, hitscan.
  destruct (fireAttempt w i).
  - destruct (bool_decide (0 < ammo (gameState w))%Z); simpl.
    + reflexivity.
    + rewrite applyHit_None. repeat case_match; reflexivity.
  - rewrite applyHit_None. repeat case_match; reflexivity.
Qed.

(** What the shooting block leaves alone. *)
Lemma shootingStep_keeps (w : World) (i : FrameInput) :
  let w' := (shootingStep w i).1 in
  lastSpawn w' = lastSpawn w /\ seed w' = seed w /\ obstacles w' = obstacles w /\
  loadedChunks w' = loadedChunks w /\
  damageMultiplier (gameState w') = damageMultiplier (gameState w) /\
  isPlaying (gameState w') = isPlaying (gameState w) /\
  health (gameState w') = health (gameState w).
Proof.
  unfold shootingStep, hitscan, reload, addReward.
  repeat case_match; simplify_eq/=; repeat split.
Qed.

Lemma shootingStep_wf (w : World) (i : FrameInput) :
  wfWorld w -> wfWorld (shootingStep w i).1.
Proof.
  intros (Hnd & Hwf & Hm). unfold wfWorld.
  destruct (shootingStep_keeps w i) as (_ & _ & _ & _ & -> & _).
  rewrite shootingStep_enemies, applyHit_ids. split_and!; [exact Hnd | | exact Hm].
  apply Forall_map. eapply Forall_impl; [exact Hwf|].
  intros e He. apply applyHit_wf; [lra | exact He].
Qed.

(** A dead actor is not the one the frame strikes. *)
Lemma shootingStep_dead (w : World) (i : FrameInput) (e : Enemy) :
  NoDup (map e_id (enemies w)) -> e ∈ enemies w -> e_isDead e = true ->
  applyHit (frameHit w i) (damageMultiplier (gameState w)) (f_time i)
    (mkRay (f_camera i) (f_look i)) e = e.
Proof.
  intros Hnd He Hd. apply applyHit_miss. intros Hhit.
  destruct (frameHit_alive w i _ Hhit) as (t & Ht & Hid & Halive).
  assert (t = e); [|congruence].
  eapply same_id_same_actor; [exact Hnd | exact Ht | exact He | exact Hid].
Qed.

(** ** Spawning and the whole frame *)

Lemma spawnEnemy_wf (camera : Vector3) (seed : R) (d : SpawnDraws) :
  wfEnemy (spawnEnemy camera seed d).
Proof.
  unfold wfEnemy, spawnEnemy; simpl.
  destruct (spawnType (r_type d)); simpl; split_and!; try lra; discriminate.
Qed.

Lemma spawnStep_enemies (w : World) (i : FrameInput) :
  enemies (spawnStep w i) =
  enemies w ++ (if gtb (f_time i - lastSpawn w) ENEMY_SPAWN_RATE
                then [spawnEnemy (f_camera i) (seed w) (f_draws i)] else []).
Proof.
  unfold spawnStep. destruct (gtb _ _); simpl; [reflexivity | rewrite app_nil_r; reflexivity].
Qed.

Lemma spawnStep_keeps (w : World) (i : FrameInput) :
  gameState (spawnStep w i) = gameState w /\ seed (spawnStep w i) = seed w /\
  obstacles (spawnStep w i) = obstacles w /\ lastShot (spawnStep w i) = lastShot w.
Proof. unfold spawnStep. destruct (gtb _ _); simpl; repeat split. Qed.

Lemma spawnStep_wf (w : World) (i : FrameInput) :
  wfWorld w -> freshDraw w (EvFrame i) -> wfWorld (spawnStep w i).
Proof.
  intros (Hnd & Hwf & Hm) Hfresh. unfold wfWorld.
  destruct (spawnStep_keeps w i) as (-> & _). rewrite spawnStep_enemies.
  simpl in Hfresh. destruct (gtb _ _).
  - split_and!; [| | exact Hm].
    + rewrite map_app. apply NoDup_app. split_and!; [exact Hnd | | apply NoDup_singleton].
      intros id Hid Hnew. apply list_elem_of_singleton in Hnew. subst id.
      exact (Hfresh eq_refl Hid).
    + apply Forall_app. split; [exact Hwf|]. constructor; [apply spawnEnemy_wf | constructor].
  - rewrite app_nil_r. split_and!; assumption.
Qed.

Lemma aiFrameStep_enemies (w : World) (i : FrameInput) :
  enemies (aiFrameStep w i) =
  filter (fun e => stillShown (f_time i) e = true)
    (map (aiActor (f_camera i) (obstacles w) (seed w) (f_delta i)) (enemies w)).
Proof.
  unfold aiFrameStep.
  rewrite <- (updateEnemies_actors (f_camera i) (obstacles w) (seed w) (f_delta i) (f_time i)).
  destruct (updateEnemies _ _ _ _ _ _). reflexivity.
Qed.

(** The health after the actor update: floored at 0 once any damage is
    dealt, untouched otherwise. *)
Lemma aiFrameStep_gameState (w : World) (i : FrameInput) :
  gameState (aiFrameStep w i) =
  let damageDealt := 0.2 * INR (attackers (f_camera i) (enemies w)) in
  if gtb damageDealt 0 then takeDamage damageDealt (gameState w) else gameState w.
Proof.
  unfold aiFrameStep.
  rewrite <- (updateEnemies_damage (f_camera i) (obstacles w) (seed w) (f_delta i) (f_time i)).
  destruct (updateEnemies _ _ _ _ _ _). reflexivity.
Qed.

Lemma takeDamage_keeps (d : R) (g : GameState) :
  score (takeDamage d g) = score g /\ gold (takeDamage d g) = gold g /\
  ammo (takeDamage d g) = ammo g /\
  damageMultiplier (takeDamage d g) = damageMultiplier g.
Proof. unfold takeDamage. destruct (_ && _); simpl; repeat split. Qed.

Lemma aiFrameStep_keeps (w : World) (i : FrameInput) :
  let g' := gameState (aiFrameStep w i) in
  score g' = score (gameState w) /\ gold g' = gold (gameState w) /\
  ammo g' = ammo (gameState w) /\
  damageMultiplier g' = damageMultiplier (gameState w).
Proof.
  simpl. rewrite aiFrameStep_gameState. simpl.
  destruct (gtb _ 0); [apply takeDamage_keeps | repeat split].
Qed.

Lemma aiFrameStep_wf (w : World) (i : FrameInput) :
  wfWorld w -> wfWorld (aiFrameStep w i).
Proof.
  intros (Hnd & Hwf & Hm). unfold wfWorld.
  destruct (aiFrameStep_keeps w i) as (_ & _ & _ & ->).
  rewrite aiFrameStep_enemies. split_and!; [| | exact Hm].
  - apply (NoDup_fmap_1 e_id) in Hnd as Hnd'.
    assert (Hmid : NoDup (map e_id (map (aiActor (f_camera i) (obstacles w) (seed w) (f_delta i))
                                     (enemies w)))).
    { rewrite aiActor_ids. exact Hnd. }
    revert Hmid. generalize (map (aiActor (f_camera i) (obstacles w) (seed w) (f_delta i))
                               (enemies w)).
    intros l. induction l as [|e l IH]; simpl; intros Hl; [constructor|].
    apply NoDup_cons in Hl as [He Hl]. rewrite filter_cons.
    destruct (decide (stillShown (f_time i) e = true)); [|auto].
    simpl. apply NoDup_cons. split; [|auto].
    intros Hin. apply He. apply list_elem_of_fmap in Hin as (x & -> & Hx).
    apply list_elem_of_filter in Hx as [_ Hx]. apply (list_elem_of_fmap_2 e_id). exact Hx.
  - apply Forall_forall. intros e He.
    apply list_elem_of_filter in He as [_ He].
    apply list_elem_of_fmap in He as (x & -> & Hx).
    apply aiActor_wf. rewrite Forall_forall in Hwf. apply Hwf. exact Hx.
Qed.

(** The actor update returns a dead actor as it is, or drops it. *)
Lemma aiFrameStep_frozen (w : World) (i : FrameInput) (e e' : Enemy) :
  NoDup (map e_id (enemies w)) -> e ∈ enemies w -> e_isDead e = true ->
  e' ∈ enemies (aiFrameStep w i) -> e_id e' = e_id e -> e' = e.
Proof.
  intros Hnd He Hd He' Hid. rewrite aiFrameStep_enemies in He'.
  apply list_elem_of_filter in He' as [_ He'].
  apply list_elem_of_fmap in He' as (x & -> & Hx).
  destruct (aiActor_keeps (f_camera i) (obstacles w) (seed w) (f_delta i) x) as (Hidx & _).
  assert (x = e) as ->.
  { eapply same_id_same_actor; [exact Hnd | exact Hx | exact He | congruence]. }
  unfold aiActor. rewrite aiStep_dead by exact Hd. reflexivity.
Qed.

Lemma controllerFrame_playing (w : World) (i : FrameInput) :
  isPlaying (gameState w) = true ->
  controllerFrame w i =
  (aiFrameStep (spawnStep (shootingStep w i).1 i) i, (shootingStep w i).2).
Proof.
  intros Hp. unfold controllerFrame. rewrite Hp.
  destruct (shootingStep w i). reflexivity.
Qed.

Lemma worldGenFrame_keeps (w : World) (camera : Vector3) :
  gameState (worldGenFrame w camera) = gameState w /\
  enemies (worldGenFrame w camera) = enemies w /\
  seed (worldGenFrame w camera) = seed w.
Proof.
  unfold worldGenFrame. destruct (negb _); [repeat split|].
  destruct (fold_left _ _ _) as [[loaded newObs] hasNew]. repeat split.
Qed.

Lemma freshDraw_after_shooting (w : World) (i : FrameInput) :
  freshDraw w (EvFrame i) -> freshDraw (shootingStep w i).1 (EvFrame i).
Proof.
  simpl. destruct (shootingStep_keeps w i) as (-> & _).
  rewrite shootingStep_enemies, applyHit_ids. auto.
Qed.

(** ** Sessions: the invariant along a run *)

Lemma step_wf (w : World) (ev : Event) :
  wfWorld w -> freshDraw w ev -> wfWorld (step w ev).
Proof.
  intros Hwf Hfresh. destruct ev as [i | camera | seen | m | newSeed]; simpl.
  - unfold controllerFrame. destruct (isPlaying (gameState w)) eqn:Hp; [|exact Hwf].
    destruct (shootingStep w i) as [w1 cues] eqn:Hs. simpl.
    assert (w1 = (shootingStep w i).1) as -> by (rewrite Hs; reflexivity).
    apply aiFrameStep_wf, spawnStep_wf; [apply shootingStep_wf; exact Hwf|].
    apply freshDraw_after_shooting. exact Hfresh.
  - destruct Hwf as (Hnd & Hall & Hm). unfold wfWorld.
    destruct (worldGenFrame_keeps w camera) as (-> & -> & _). tauto.
  - destruct (isPlaying (gameState w)); [|exact Hwf].
    destruct Hwf as (Hnd & Hall & Hm). unfold wfWorld, reload; simpl.
    destruct (bool_decide _); simpl; tauto.
  - destruct (isPlaying (gameState w)); [|exact Hwf].
    destruct Hwf as (Hnd & Hall & Hm). unfold wfWorld, handleShopAction; simpl.
    split_and!; [exact Hnd | exact Hall|].
    repeat case_match; simpl; lra.
  - unfold startGame. destruct (isPlaying (gameState w)); [exact Hwf|].
    unfold wfWorld; simpl. split_and!; [constructor | constructor | lra].
Qed.

Lemma run_wf (evs : list Event) (w : World) :
  wfWorld w -> freshRun w evs -> wfWorld (run w evs).
Proof.
  revert w. induction evs as [|ev evs IH]; intros w Hwf Hfresh; simpl; [exact Hwf|].
  destruct Hfresh as [Hev Hrest]. apply IH; [apply step_wf; assumption | exact Hrest].
Qed.

Lemma run_snoc (evs : list Event) (ev : Event) (w : World) :
  run w (evs ++ [ev]) = step (run w evs) ev.
Proof. unfold run. rewrite fold_left_app. reflexivity. Qed.

Lemma freshRun_snoc (evs : list Event) (ev : Event) (w : World) :
  freshRun w (evs ++ [ev]) <-> freshRun w evs /\ freshDraw (run w evs) ev.
Proof.
  revert w. induction evs as [|a evs IH]; intros w; simpl; [tauto|].
  rewrite IH. tauto.
Qed.

(** A step returns a dead actor as it is, or drops it. *)
Lemma step_frozen (w : World) (ev : Event) (e e' : Enemy) :
  wfWorld w -> freshDraw w ev ->
  e ∈ enemies w -> e_isDead e = true ->
  e' ∈ enemies (step w ev) -> e_id e' = e_id e -> e' = e.
Proof.
  intros Hwf Hfresh He Hd He' Hid.
  assert (Hsame : e' ∈ enemies w -> e' = e).
  { intros Hin. destruct Hwf as (Hnd & _).
    eapply same_id_same_actor; [exact Hnd | exact Hin | exact He | exact Hid]. }
  destruct ev as [i | camera | seen | m | newSeed]; simpl in He'.
  - destruct (isPlaying (gameState w)) eqn:Hp.
    2:{ unfold controllerFrame in He'. rewrite Hp in He'. auto. }
    rewrite controllerFrame_playing in He' by exact Hp. simpl in He'.
    pose proof (shootingStep_wf w i Hwf) as Hwf1.
    pose proof (spawnStep_wf _ i Hwf1 (freshDraw_after_shooting w i Hfresh)) as (Hnd2 & _).
    eapply aiFrameStep_frozen; [exact Hnd2 | | exact Hd | exact He' | exact Hid].
    rewrite spawnStep_enemies. apply elem_of_app. left.
    rewrite shootingStep_enemies.
    eapply list_elem_of_fmap_2'; [exact He|].
    symmetry. apply shootingStep_dead; [apply Hwf | exact He | exact Hd].
  - destruct (worldGenFrame_keeps w camera) as (_ & Hen & _). rewrite Hen in He'. auto.
  - destruct (isPlaying (gameState w)); auto.
  - destruct (isPlaying (gameState w)); auto.
  - unfold startGame in He'. destruct (isPlaying (gameState w)); [auto|].
    simpl in He'. inversion He'.
Qed.

(** C3: along every run of a session from a state whose actors satisfy the
    hit-point invariant (spawn ids being distinct), every actor of every
    state reached has its hit points within [0, maxHp]; its hit points are 0
    exactly when it is dead, so a shot that brings them to 0 is the transition
    into the dead state; and a step returns a dead actor as the identical
    record or drops it: it is not moved, its attacking flag and its hit points
    are not written again, and it never returns to the live states. *)
Theorem actor_hp_and_one_shot_death (w : World) (evs : list Event) (ev : Event) :
  wfWorld w -> freshRun w (evs ++ [ev]) ->
  let w1 := run w evs in
  let w2 := step w1 ev in
  (forall e, e ∈ enemies w2 -> 0 <= e_hp e <= e_maxHp e) /\
  (forall e, e ∈ enemies w2 -> e_hp e = 0 <-> e_isDead e = true) /\
  (forall e e', e ∈ enemies w1 -> e_isDead e = true ->
                e' ∈ enemies w2 -> e_id e' = e_id e -> e' = e).
Proof.
  intros Hwf Hfresh. apply freshRun_snoc in Hfresh as [Hrun Hev].
  pose proof (run_wf evs w Hwf Hrun) as Hwf1.
  pose proof (step_wf _ ev Hwf1 Hev) as (_ & Hall2 & _).
  rewrite Forall_forall in Hall2. simpl. split_and!.
  - intros e He. apply (Hall2 e He).
  - intros e He. destruct (Hall2 e He) as (Hb & Ha & Hd).
    destruct (e_isDead e); split; auto; try discriminate.
    intros H0. specialize (Ha eq_refl). lra.
  - intros e e' He Hd He' Hid. eapply step_frozen; eassumption.
Qed.

Lemma actor_hp_and_one_shot_death_witness :
  wfWorld initialWorld /\
  freshRun initialWorld ([EvStart 7] ++ [EvFrame firstFrame]) /\
  (forall e, e ∈ enemies (step (run initialWorld [EvStart 7]) (EvFrame firstFrame)) ->
             0 <= e_hp e <= e_maxHp e).
Proof.
  assert (Hwf : wfWorld initialWorld).
  { unfold wfWorld, initialWorld; simpl. split_and!; [constructor | constructor | lra]. }
  assert (Hfresh : freshRun initialWorld ([EvStart 7] ++ [EvFrame firstFrame])).
  { simpl. split_and!; try exact I. intros _ Hin. inversion Hin. }
  split; [exact Hwf|]. split; [exact Hfresh|].
  exact (proj1 (actor_hp_and_one_shot_death initialWorld [EvStart 7] (EvFrame firstFrame)
                  Hwf Hfresh)).
Defined.

(** ** Kill rewards *)

Lemma findById_unique (l : list Enemy) (t : Enemy) :
  NoDup (map e_id l) -> t ∈ l -> findById (Some (e_id t)) l = Some t.
Proof.
  unfold findById. induction l as [|x l IH]; simpl; intros Hnd Ht; [inversion Ht|].
  apply NoDup_cons in Hnd as [Hx Hnd].
  apply elem_of_cons in Ht as [-> | Ht].
  - rewrite bool_decide_eq_true_2 by reflexivity. reflexivity.
  - rewrite bool_decide_eq_false_2; [auto|].
    intros [= Hid]. apply Hx. rewrite Hid. apply (list_elem_of_fmap_2 e_id). exact Ht.
Qed.

Lemma findById_map (f : Enemy -> Enemy) (hit : option string) (l : list Enemy) :
  (forall e, e_id (f e) = e_id e) ->
  findById hit (map f l) = f <$> findById hit l.
Proof.
  intros Hf. unfold findById. induction l as [|x l IH]; simpl; [reflexivity|].
  rewrite Hf. destruct (bool_decide _); [reflexivity | exact IH].
Qed.

Lemma shootingStep_gameState (w : World) (i : FrameInput) :
  gameState (shootingStep w i).1 =
  match shotOutcome w i with
  | Fired =>
      addReward (killReward (frameHit w i) (enemies w) (enemies (shootingStep w i).1))
        (setAmmo (gameState w) (ammo (gameState w) - 1))
  | EmptyFire =>
      if bool_decide (ammo (gameState w) = 0)%Z then setAmmo (gameState w) MAX_AMMO
      else gameState w
  | NoAttempt => gameState w
  end.
Proof.
  rewrite shootingStep_enemies.
  unfold shootingStep, frameHit, shotOutcome, hitscan, reload.
  destruct (fireAttempt w i).
  - destruct (bool_decide (0 < ammo (gameState w))%Z) eqn:Ha; simpl; [reflexivity|].
    destruct (bool_decide (ammo (gameState w) = 0)%Z) eqn:H0; simpl; [|reflexivity].
    apply bool_decide_eq_true in H0. rewrite H0. reflexivity.
  - destruct (negb (f_mouseDown i)); reflexivity.
Qed.

(** The score and the gold of a frame are those the shooting block leaves. *)
Lemma controllerFrame_score (w : World) (i : FrameInput) :
  isPlaying (gameState w) = true ->
  let g' := gameState (controllerFrame w i).1 in
  let g1 := gameState (shootingStep w i).1 in
  score g' = score g1 /\ gold g' = gold g1 /\ ammo g' = ammo g1.
Proof.
  intros Hp. rewrite controllerFrame_playing by exact Hp. simpl.
  destruct (aiFrameStep_keeps (spawnStep (shootingStep w i).1 i) i) as (-> & -> & -> & _).
  destruct (spawnStep_keeps (shootingStep w i).1 i) as (-> & _). repeat split.
Qed.

(** C10: in the final variant, when the shot of a frame brings a live
    villager's hit points to 0, the score of the player drops by 100 (so it
    strictly decreases, and becomes negative from any score below 100) and the
    gold is unchanged. *)
Theorem villager_kill_costs_score (w : World) (i : FrameInput) (target : Enemy) :
  wfWorld w -> isPlaying (gameState w) = true ->
  target ∈ enemies w -> e_type target = villager -> e_isDead target = false ->
  e_id target <> "" ->
  (exists e', e' ∈ enemies (shootingStep w i).1 /\ e_id e' = e_id target /\ e_hp e' = 0) ->
  let g := gameState w in
  let g' := gameState (controllerFrame w i).1 in
  score g' = (score g - 100)%Z /\ gold g' = gold g /\
  (score g' < score g)%Z /\ ((score g < 100)%Z -> (score g' < 0)%Z).
Proof.
  intros Hwf Hp Ht Hv Halive Hid (e' & He' & Hide' & Hhp).
  destruct Hwf as (Hnd & Hall & Hm).
  rewrite Forall_forall in Hall. destruct (Hall target Ht) as (_ & Hpos & _).
  specialize (Hpos Halive).
  set (f := applyHit (frameHit w i) (damageMultiplier (gameState w)) (f_time i)
              (mkRay (f_camera i) (f_look i))).
  assert (Hf : forall e, e_id (f e) = e_id e) by (intros e; apply applyHit_id).
  assert (Hstruck : e_hp (f target) = 0).
  { rewrite shootingStep_enemies in He'.
    apply list_elem_of_fmap in He' as (x & -> & Hx). fold f in Hide', Hhp.
    rewrite Hf in Hide'.
    assert (x = target) as <-; [|exact Hhp].
    eapply same_id_same_actor; [exact Hnd | exact Hx | exact Ht | exact Hide']. }
  assert (Hhit : frameHit w i = Some (e_id target)).
  { destruct (decide (frameHit w i = Some (e_id target))) as [|Hne]; [assumption|].
    exfalso. unfold f in Hstruck. rewrite applyHit_miss in Hstruck by exact Hne. lra. }
  assert (Hfired : shotOutcome w i = Fired).
  { unfold frameHit in Hhit. destruct (shotOutcome w i); [reflexivity | discriminate..]. }
  assert (Hg1 : score (gameState (shootingStep w i).1) = (score (gameState w) - 100)%Z /\
                gold (gameState (shootingStep w i).1) = gold (gameState w)).
  { rewrite shootingStep_gameState, Hfired, shootingStep_enemies. fold f.
    unfold killReward. rewrite Hhit. unfold truthyId.
    rewrite bool_decide_eq_false_2 by exact Hid. simpl negb. cbv iota.
    rewrite findById_map by exact Hf.
    rewrite findById_unique by assumption. simpl.
    rewrite (proj2 (gtb_true _ 0)) by exact Hpos.
    rewrite (proj2 (eqb_true _ 0)) by exact Hstruck. simpl.
    rewrite Hv. simpl. split; lia. }
  destruct Hg1 as [Hs Hg].
  destruct (controllerFrame_score w i Hp) as (Hs' & Hg' & _). simpl in *.
  rewrite Hs', Hg', Hs, Hg. split_and!; try reflexivity; lia.
Qed.

Lemma hunt_frameHit : frameHit hunt huntShot = Some "0.3306".
Proof.
  assert (Hout : shotOutcome hunt huntShot = Fired).
  { unfold shotOutcome, fireAttempt, hunt, huntShot, FIRE_RATE; simpl. decide_cmp. reflexivity. }
  unfold frameHit. rewrite Hout.
  destruct (scanEnemies_outcome (mkRay (f_camera huntShot) (f_look huntShot))
              (f_camera huntShot) (seed hunt) (enemies hunt))
    as [(Hnone & _) | (before & t & after & Hprev & _ & -> & _)].
  - exfalso. apply (Hnone (standing "0.3306" villager)); [left|].
    split; [apply (qualifies_standing "0.3306" villager 10); [reflexivity | lra]|].
    unfold huntShot; simpl.
    rewrite camDist_standing by (try reflexivity; lra). lra.
  - destruct before as [|b before]; simpl in Hprev.
    + injection Hprev as <- _. reflexivity.
    + injection Hprev as _ Hprev. destruct before; discriminate.
Qed.

Lemma villager_kill_costs_score_witness :
  wfWorld hunt /\
  score (gameState (controllerFrame hunt huntShot).1) = (score (gameState hunt) - 100)%Z /\
  gold (gameState (controllerFrame hunt huntShot).1) = gold (gameState hunt).
Proof.
  assert (Hwf : wfWorld hunt).
  { unfold wfWorld, hunt; simpl. split_and!; [apply NoDup_singleton | | lra].
    constructor; [|constructor]. unfold wfEnemy; simpl. split_and!; try lra; discriminate. }
  assert (Hkill : exists e', e' ∈ enemies (shootingStep hunt huntShot).1 /\
                             e_id e' = e_id (standing "0.3306" villager) /\ e_hp e' = 0).
  { rewrite shootingStep_enemies, hunt_frameHit.
    eexists. split; [left|]. split; [apply applyHit_id|].
    unfold applyHit. rewrite bool_decide_eq_true_2 by reflexivity. simpl.
    decide_cmp. reflexivity. }
  pose proof (villager_kill_costs_score hunt huntShot (standing "0.3306" villager) Hwf
                eq_refl (list_elem_of_here _ _) eq_refl eq_refl
                ltac:(discriminate) Hkill) as H.
  split; [exact Hwf|]. split; [exact (proj1 H) | exact (proj1 (proj2 H))].
Defined.

(** ** Attack damage *)

Lemma aiFrameStep_health (w : World) (i : FrameInput) :
  let k := attackers (f_camera i) (enemies w) in
  (k = 0%nat -> health (gameState (aiFrameStep w i)) = health (gameState w)) /\
  ((0 < k)%nat ->
   health (gameState (aiFrameStep w i)) = Rmax 0 (health (gameState w) - 0.2 * INR k)).
Proof.
  simpl. rewrite aiFrameStep_gameState. simpl. split.
  - intros ->. simpl. rewrite (proj2 (gtb_false _ 0)) by lra. reflexivity.
  - intros Hk. apply lt_0_INR in Hk.
    rewrite (proj2 (gtb_true _ 0)) by lra. unfold takeDamage.
    destruct (eqb _ 0 && _) eqn:Hz; simpl; [|reflexivity].
    apply andb_true_iff in Hz as [Hz _]. apply eqb_true in Hz. symmetry. exact Hz.
Qed.

(** C8 (as amended): in the actor update of a frame every live actor that
    is no villager and stands within attack range (1.5 units) of the player
    is returned with its attacking flag set and adds 0.2 to the damage of the
    frame; with k such attackers the health of the player drops by k x 0.2,
    floored at 0, and with none it is untouched. *)
Theorem attack_damage_stacks (w : World) (i : FrameInput) :
  let k := attackers (f_camera i) (enemies w) in
  let w' := aiFrameStep w i in
  (forall e, e ∈ enemies w -> attacks (f_camera i) e ->
     exists e', e' ∈ enemies w' /\ e_id e' = e_id e /\ e_isAttacking e' = true) /\
  (k = 0%nat -> health (gameState w') = health (gameState w)) /\
  ((0 < k)%nat -> health (gameState w') = Rmax 0 (health (gameState w) - 0.2 * INR k)).
Proof.
  simpl. split; [|apply aiFrameStep_health].
  intros e He Hatt. exists (aiActor (f_camera i) (obstacles w) (seed w) (f_delta i) e).
  destruct (aiActor_keeps (f_camera i) (obstacles w) (seed w) (f_delta i) e)
    as (Hid & _ & _ & _ & Hdead & _).
  split_and!; [| exact Hid | apply aiStep_attacking; exact Hatt].
  rewrite aiFrameStep_enemies. apply list_elem_of_filter. split.
  - unfold stillShown. rewrite Hdead. destruct Hatt as (-> & _). reflexivity.
  - apply (list_elem_of_fmap_2 (aiActor _ _ _ _)). exact He.
Qed.

Lemma attacks_knightAt (id : string) : attacks (mkVector3 0 1.7 0) (knightAt id).
Proof.
  unfold attacks, planarDist, distanceTo, distanceToSquared, lengthSq, v_dot, v_sub; simpl.
  split_and!; [reflexivity | discriminate|].
  match goal with |- sqrt ?e < _ => replace e with (0 * 0) by ring end.
  rewrite sqrt_square; lra.
Qed.

(** C8, counterexample: two knights attack a player who has 0.2 health
    left.  Twice the fixed amount is 0.4, yet the frame takes 0.2: the health
    stops at 0. *)
Lemma damage_stops_at_zero_health :
  attackers (f_camera firstFrame) (enemies cornered) = 2%nat /\
  health (gameState cornered) = 0.2 /\
  health (gameState (aiFrameStep cornered firstFrame)) = 0.
Proof.
  assert (Hk : attackers (f_camera firstFrame) (enemies cornered) = 2%nat).
  { unfold attackers, cornered, firstFrame; simpl.
    rewrite !filter_cons, !decide_True by apply attacks_knightAt. reflexivity. }
  split; [exact Hk|]. split; [reflexivity|].
  destruct (aiFrameStep_health cornered firstFrame) as [_ H]. cbv zeta in H.
  rewrite Hk in H. rewrite H by lia. simpl.
  apply Rmax_left. lra.
Qed.

(** ** Ammunition and reload *)

Lemma shotOutcome_Fired (w : World) (i : FrameInput) :
  shotOutcome w i = Fired <-> fireAttempt w i = true /\ (0 < ammo (gameState w))%Z.
Proof.
  unfold shotOutcome. destruct (fireAttempt w i).
  - destruct (bool_decide (0 < ammo (gameState w))%Z) eqn:Ha.
    + apply bool_decide_eq_true in Ha. tauto.
    + apply bool_decide_eq_false in Ha. split; [discriminate | tauto].
  - split; [discriminate | intros [? _]; discriminate].
Qed.

Lemma shotOutcome_EmptyFire (w : World) (i : FrameInput) :
  fireAttempt w i = true -> ammo (gameState w) = 0%Z -> shotOutcome w i = EmptyFire.
Proof.
  intros Hf H0. unfold shotOutcome. rewrite Hf, H0. reflexivity.
Qed.

(** The empty-fire path: the empty cue, the refill and its cue, and nothing
    else written but the firing flag. *)
Lemma shootingStep_empty (w : World) (i : FrameInput) :
  fireAttempt w i = true -> ammo (gameState w) = 0%Z ->
  shootingStep w i =
  (mkWorld (setAmmo (gameState w) MAX_AMMO) (enemies w) (lastShot w) (lastSpawn w) false
     (obstacles w) (loadedChunks w) (seed w),
   [playEmpty; playReload]).
Proof.
  intros Hf H0. unfold shootingStep, reload. rewrite Hf, H0. reflexivity.
Qed.

Lemma controllerFrame_lastShot (w : World) (i : FrameInput) :
  isPlaying (gameState w) = true ->
  lastShot (controllerFrame w i).1 = lastShot (shootingStep w i).1.
Proof.
  intros Hp. rewrite controllerFrame_playing by exact Hp. simpl.
  unfold aiFrameStep. destruct (updateEnemies _ _ _ _ _ _). simpl.
  apply spawnStep_keeps.
Qed.

Lemma step_ammo (w : World) (ev : Event) : ammoOk w -> ammoOk (step w ev).
Proof.
  unfold ammoOk, MAX_AMMO. intros Hok.
  destruct ev as [i | camera | seen | m | newSeed]; simpl.
  - destruct (isPlaying (gameState w)) eqn:Hp.
    2:{ unfold controllerFrame. rewrite Hp. exact Hok. }
    destruct (controllerFrame_score w i Hp) as (_ & _ & Ha). simpl in Ha. rewrite Ha.
    rewrite shootingStep_gameState.
    destruct (shotOutcome w i) eqn:Ho.
    + apply shotOutcome_Fired in Ho as [_ Hpos].
      unfold addReward. destruct (killReward _ _ _); simpl; lia.
    + destruct (bool_decide _); simpl; [unfold MAX_AMMO; lia | exact Hok].
    + exact Hok.
  - destruct (worldGenFrame_keeps w camera) as (-> & _). exact Hok.
  - destruct (isPlaying (gameState w)); [|exact Hok].
    unfold reload. destruct (bool_decide _); simpl; [unfold MAX_AMMO; lia | exact Hok].
  - destruct (isPlaying (gameState w)); [|exact Hok].
    unfold handleShopAction. repeat case_match; simpl; unfold MAX_AMMO; lia.
  - unfold startGame. destruct (isPlaying (gameState w)); simpl; [exact Hok|].
    unfold MAX_AMMO; lia.
Qed.

Lemma run_ammo (evs : list Event) (w : World) : ammoOk w -> ammoOk (run w evs).
Proof.
  revert w. induction evs as [|ev evs IH]; intros w Hok; simpl; [exact Hok|].
  apply IH, step_ammo, Hok.
Qed.

(** C7: along every run of a session (frames, reload and shop keys,
    restarts) the ammunition count stays within [0, MAX_AMMO]; and a fire
    attempt with 0 ammunition takes the empty-fire path: no actor is struck
    or changed by the shooting block, the score and gold, the time of the
    last shot are as before, the cues are the empty cue followed by the
    reload cue, and the count after the frame is MAX_AMMO, never below 0. *)
Theorem ammo_bounds_and_empty_fire (w : World) (evs : list Event) (i : FrameInput) :
  ammoOk w ->
  let w1 := run w evs in
  ammoOk w1 /\
  (isPlaying (gameState w1) = true -> fireAttempt w1 i = true ->
   ammo (gameState w1) = 0%Z ->
   shotOutcome w1 i = EmptyFire /\
   frameHit w1 i = None /\
   enemies (shootingStep w1 i).1 = enemies w1 /\
   lastShot (controllerFrame w1 i).1 = lastShot w1 /\
   score (gameState (controllerFrame w1 i).1) = score (gameState w1) /\
   gold (gameState (controllerFrame w1 i).1) = gold (gameState w1) /\
   (controllerFrame w1 i).2 = [playEmpty; playReload] /\
   ammo (gameState (controllerFrame w1 i).1) = MAX_AMMO).
Proof.
  intros Hok. simpl. split; [apply run_ammo, Hok|].
  generalize (run w evs). clear w Hok. intros w Hp Hf H0.
  pose proof (shotOutcome_EmptyFire w i Hf H0) as Ho.
  destruct (controllerFrame_score w i Hp) as (Hs & Hg & Ha). simpl in Hs, Hg, Ha.
  rewrite Hs, Hg, Ha, controllerFrame_lastShot by exact Hp.
  rewrite (controllerFrame_playing w i Hp).
  rewrite (shootingStep_empty w i Hf H0). simpl.
  unfold frameHit. rewrite Ho. split_and!; reflexivity.
Qed.

Lemma ammo_bounds_and_empty_fire_witness :
  ammoOk initialWorld /\ ammoOk (run initialWorld [EvStart 7; EvFrame firstFrame]).
Proof.
  assert (Hok : ammoOk initialWorld) by (unfold ammoOk, initialWorld, initialGameState, MAX_AMMO; simpl; lia).
  split; [exact Hok|].
  exact (proj1 (ammo_bounds_and_empty_fire initialWorld [EvStart 7; EvFrame firstFrame]
                  firstFrame Hok)).
Defined.

Lemma fireAttempt_time (w : World) (i : FrameInput) :
  fireAttempt w i = true -> FIRE_RATE < f_time i - lastShot w.
Proof.
  unfold fireAttempt. intros H. apply andb_true_iff in H as [_ H]. apply gtb_true. exact H.
Qed.

Lemma frame_after_empty (w : World) (i : FrameInput) :
  isPlaying (gameState w) = true -> fireAttempt w i = true -> ammo (gameState w) = 0%Z ->
  ammo (gameState (controllerFrame w i).1) = MAX_AMMO /\
  lastShot (controllerFrame w i).1 = lastShot w.
Proof.
  intros Hp Hf H0.
  destruct (controllerFrame_score w i Hp) as (_ & _ & Ha). simpl in Ha.
  rewrite Ha, controllerFrame_lastShot by exact Hp.
  rewrite (shootingStep_empty w i Hf H0). simpl. split; reflexivity.
Qed.
Lemma fireAttempt_dry : fireAttempt dry (pullAt 1000) = true.
Proof. unfold fireAttempt, dry, pullAt, FIRE_RATE; simpl. decide_cmp. reflexivity. Qed.

(** ** Streaming *)

(** Equalities of key sets that follow from the propositional structure of
    membership. *)
Ltac set_taut := apply set_eq; intros ?; set_unfold; intuition (subst; auto).

Lemma triple_eq {A B C : Type} (a a' : A) (b b' : B) (c c' : C) :
  a = a' -> b = b' -> c = c' -> (a, b, c) = (a', b', c').
Proof. intros -> -> ->. reflexivity. Qed.

Lemma loadStep_fold (worldSeed : R) (coords : list (Z * Z)) (loaded : gset string)
    (newObs : list Obstacle) (hasNew : bool) :
  exists extra hasNew',
    fold_left (loadStep worldSeed) coords (loaded, newObs, hasNew) =
    (loaded ∪ list_to_set (map (fun c => chunkKey c.1 c.2) coords), newObs ++ extra, hasNew').
Proof.
  revert loaded newObs hasNew.
  induction coords as [|c coords IH]; intros loaded newObs hasNew; simpl.
  { exists [], hasNew. apply triple_eq; [set_taut | rewrite app_nil_r | ]; reflexivity. }
  destruct (bool_decide (chunkKey c.1 c.2 ∈ loaded)) eqn:Hin.
  - apply bool_decide_eq_true in Hin.
    destruct (IH loaded newObs hasNew) as (extra & hasNew' & ->).
    exists extra, hasNew'. apply triple_eq; [set_taut | reflexivity..].
  - destruct (IH ({[chunkKey c.1 c.2]} ∪ loaded)
                (newObs ++ generateChunk c.1 c.2 worldSeed) true) as (extra & hasNew' & ->).
    exists (generateChunk c.1 c.2 worldSeed ++ extra), hasNew'.
    apply triple_eq; [set_taut | rewrite <- app_assoc; reflexivity | reflexivity].
Qed.

(** The final variant only ever appends obstacles and adds keys. *)
Lemma worldGenFrame_appends (w : World) (camera : Vector3) :
  isPlaying (gameState w) = true ->
  exists newObs,
    obstacles (worldGenFrame w camera) = obstacles w ++ newObs /\
    loadedChunks (worldGenFrame w camera) =
      loadedChunks w ∪ activeKeys (chunkOf (v_x camera)) (chunkOf (v_z camera)).
Proof.
  intros Hp. unfold worldGenFrame. rewrite Hp. lazy beta iota zeta delta [negb].
  destruct (loadStep_fold (seed w) (activeCoords (chunkOf (v_x camera)) (chunkOf (v_z camera)))
              (loadedChunks w) [] false) as (extra & hasNew' & ->).
  lazy beta iota zeta delta [obstacles loadedChunks]. destruct hasNew'.
  - exists extra. split; reflexivity.
  - exists []. rewrite app_nil_r. split; reflexivity.
Qed.

Lemma earlier_loadStep_fold (coords : list (Z * Z)) (active loaded : gset string)
    (newObstacles : list Earlier.Obstacle) :
  exists extra,
    fold_left Earlier.loadStep coords (active, loaded, newObstacles) =
    (active ∪ list_to_set (map (fun c => chunkKey c.1 c.2) coords),
     loaded ∪ list_to_set (map (fun c => chunkKey c.1 c.2) coords),
     newObstacles ++ extra) /\
    Forall (fun o => exists c, c ∈ coords /\ o ∈ Earlier.generateChunk c.1 c.2) extra.
Proof.
  revert active loaded newObstacles.
  induction coords as [|c coords IH]; intros active loaded newObstacles; simpl.
  { exists []. split; [|constructor].
    apply triple_eq; [set_taut | set_taut | rewrite app_nil_r; reflexivity]. }
  assert (Hlater : forall extra,
            Forall (fun o => exists c', c' ∈ coords /\ o ∈ Earlier.generateChunk c'.1 c'.2) extra ->
            Forall (fun o => exists c', c' ∈ c :: coords /\ o ∈ Earlier.generateChunk c'.1 c'.2)
                   extra).
  { intros extra Hextra. eapply Forall_impl; [exact Hextra|].
    intros o (c' & Hc' & Ho). exists c'. split; [right|]; assumption. }
  destruct (bool_decide (chunkKey c.1 c.2 ∈ loaded)) eqn:Hin.
  - apply bool_decide_eq_true in Hin.
    destruct (IH ({[chunkKey c.1 c.2]} ∪ active) loaded newObstacles) as (extra & -> & Hfrom).
    exists extra. split; [|apply Hlater; exact Hfrom].
    apply triple_eq; [set_taut | set_taut | reflexivity].
  - destruct (IH ({[chunkKey c.1 c.2]} ∪ active) ({[chunkKey c.1 c.2]} ∪ loaded)
                (newObstacles ++ Earlier.generateChunk c.1 c.2)) as (extra & -> & Hfrom).
    exists (Earlier.generateChunk c.1 c.2 ++ extra). split.
    + apply triple_eq; [set_taut | set_taut | rewrite <- app_assoc; reflexivity].
    + apply Forall_app. split; [|apply Hlater; exact Hfrom].
      apply Forall_forall. intros o Ho. exists c. split; [left | exact Ho].
Qed.

Lemma keeps_inReach (cx cz : Z) (obs : Earlier.Obstacle) :
  Earlier.keeps cx cz obs = true <-> inReach cx cz (Earlier.o_id obs).
Proof.
  unfold Earlier.keeps, inReach, chunkOfId, withinRadius.
  destruct (splitColon (Earlier.o_id obs) !! 0%nat ≫= parseInt) as [x|];
    [|split; [discriminate | tauto]].
  destruct (splitColon (Earlier.o_id obs) !! 1%nat ≫= parseInt) as [z|];
    [|split; [discriminate | tauto]].
  simpl. rewrite andb_true_iff, !bool_decide_eq_true. tauto.
Qed.

Lemma floorZ_eq (r : R) (z : Z) : IZR z <= r < IZR z + 1 -> floorZ r = z.
Proof.
  intros [Hlo Hhi]. unfold floorZ, Int_part.
  assert (Hup : (z + 1)%Z = up r).
  { apply tech_up; rewrite plus_IZR; simpl; lra. }
  lia.
Qed.

Lemma chunkOf_origin : chunkOf 0 = 0%Z.
Proof. unfold chunkOf, CHUNK_SIZE. apply floorZ_eq. simpl. lra. Qed.

(** C4, counterexample: a session of the final variant holds a tree of
    chunk (10, 0) while the player stands in chunk (0, 0), ten chunks away.
    After the streaming update the tree is still in the live obstacle list:
    [WorldGen] has no eviction. *)
Lemma final_variant_never_evicts :
  isPlaying (gameState roamed) = true /\
  chunkOf (v_x (mkVector3 0 1.7 0)) = 0%Z /\ chunkOf (v_z (mkVector3 0 1.7 0)) = 0%Z /\
  chunkOfId (o_id farTree) = Some (10, 0)%Z /\
  ~ withinRadius (RENDER_DISTANCE + 1) (10, 0)%Z (0, 0)%Z /\
  farTree ∈ obstacles (worldGenFrame roamed (mkVector3 0 1.7 0)).
Proof.
  split_and!.
  - reflexivity.
  - exact chunkOf_origin.
  - exact chunkOf_origin.
  - vm_compute. reflexivity.
  - unfold withinRadius, RENDER_DISTANCE; simpl. lia.
  - destruct (worldGenFrame_appends roamed (mkVector3 0 1.7 0) eq_refl) as (newObs & -> & _).
    apply elem_of_app. left. left.
Qed.

(** ** Generation within a session *)

Lemma step_seed (w : World) (ev : Event) : keepsSeed ev -> seed (step w ev) = seed w.
Proof.
  destruct ev as [i | camera | seen | m | newSeed]; simpl; intros Hk.
  - unfold controllerFrame. destruct (isPlaying (gameState w)); [|reflexivity].
    destruct (shootingStep w i) as [w1 cues] eqn:Hs. simpl.
    unfold aiFrameStep. destruct (updateEnemies _ _ _ _ _ _). simpl.
    destruct (spawnStep_keeps w1 i) as (_ & -> & _).
    destruct (shootingStep_keeps w i) as (_ & Hseed & _). rewrite Hs in Hseed. exact Hseed.
  - apply worldGenFrame_keeps.
  - destruct (isPlaying (gameState w)); reflexivity.
  - destruct (isPlaying (gameState w)); reflexivity.
  - contradiction.
Qed.

Lemma run_seed (evs : list Event) (w : World) :
  Forall keepsSeed evs -> seed (run w evs) = seed w.
Proof.
  revert w. induction evs as [|ev evs IH]; intros w Hall; simpl; [reflexivity|].
  apply Forall_cons in Hall as [Hev Hall]. rewrite IH by exact Hall.
  apply step_seed. exact Hev.
Qed.

(** C1: for every chunk coordinate and every world seed S, two calls of
    [generateChunk] with S return the same list: the same number of
    obstacles and, position by position, the same id, type, position,
    rotation, scale, radius and dims.  The generator reads nothing but its
    arguments, and the calls may be separated by any events of the session
    whose seed is S (frames, streaming updates, key presses): none but a
    restart writes the seed. *)
Theorem generateChunk_deterministic (cx cz : Z) (S : R) (w : World) (evs : list Event) :
  seed w = S -> Forall keepsSeed evs ->
  forall first second : list Obstacle,
    first = generateChunk cx cz S ->
    second = generateChunk cx cz (seed (run w evs)) ->
    first = second /\ length first = length second /\ Forall2 sameFields first second.
Proof.
  intros HS Hevs first second -> ->. rewrite run_seed by exact Hevs. rewrite HS.
  split; [reflexivity|]. split; [reflexivity|]. apply sameFields_refl.
Qed.

Lemma generateChunk_deterministic_witness :
  seed hunt = 123 /\
  Forall keepsSeed [EvFrame huntShot; EvWorldGen (cameraAt 10)] /\
  generateChunk 2 (-1) 123 =
    generateChunk 2 (-1) (seed (run hunt [EvFrame huntShot; EvWorldGen (cameraAt 10)])).
Proof.
  assert (Hevs : Forall keepsSeed [EvFrame huntShot; EvWorldGen (cameraAt 10)]).
  { repeat constructor. }
  split; [reflexivity|]. split; [exact Hevs|].
  exact (proj1 (generateChunk_deterministic 2 (-1) 123 hunt
                  [EvFrame huntShot; EvWorldGen (cameraAt 10)] eq_refl Hevs
                  _ _ eq_refl eq_refl)).
Defined.

(** ** Ids embed the chunk they were generated for *)

Lemma append_cons (x : ascii) (a b : string) : String x a +:+ b = String x (a +:+ b).
Proof. reflexivity. Qed.

Lemma append_nil (b : string) : "" +:+ b = b.
Proof. reflexivity. Qed.

Lemma string_app_assoc (a b c : string) : (a +:+ b) +:+ c = a +:+ (b +:+ c).
Proof.
  induction a as [|x a IH]; [reflexivity|].
  rewrite !append_cons, IH. reflexivity.
Qed.

Lemma digitOf_pretty_N_char (d : N) :
  (d < 10)%N -> digitOf (pretty_N_char d) = Some (Z.of_N d).
Proof.
  intros Hd.
  assert (d = 0 \/ d = 1 \/ d = 2 \/ d = 3 \/ d = 4 \/ d = 5 \/ d = 6 \/ d = 7 \/ d = 8 \/ d = 9)%N
    as Hcases by lia.
  repeat (destruct Hcases as [-> | Hcases]; [reflexivity|]). subst d. reflexivity.
Qed.

(** A digit is no white space, no sign and no colon. *)
Lemma digit_plain (c : ascii) (d : Z) :
  digitOf c = Some d ->
  isSpace c = false /\ c <> "-"%char /\ c <> "+"%char /\ c <> ":"%char.
Proof.
  unfold digitOf, isSpace. intros H.
  destruct (bool_decide (48 <= nat_of_ascii c <= 57)%nat) eqn:Hr; [|discriminate].
  apply bool_decide_eq_true in Hr. split_and!.
  - apply bool_decide_eq_false. lia.
  - intros ->. vm_compute in Hr. lia.
  - intros ->. vm_compute in Hr. lia.
  - intros ->. vm_compute in Hr. lia.
Qed.

(** [pretty_N_go x s] writes the digits of [x] in front of [s]: reading them
    back multiplies what was read before by a power of ten and adds [x]. *)
Lemma readDigits_pretty_N_go (x : N) :
  (0 < x)%N ->
  exists p, forall s acc,
    readDigits (pretty_N_go x s) acc = readDigits s (Some (default 0%Z acc * p + Z.of_N x)%Z).
Proof.
  induction (N.lt_wf_0 x) as [x _ IH]. intros Hx.
  assert (Hmod : (x `mod` 10 < 10)%N) by (apply N.mod_lt; lia).
  pose proof (digitOf_pretty_N_char _ Hmod) as Hdigit.
  pose proof (N.div_mod x 10 ltac:(lia)) as Hdm.
  destruct (decide (x < 10)%N) as [Hsmall | Hbig].
  - exists 10%Z. intros s acc.
    rewrite pretty_N_go_step by exact Hx.
    replace (x `div` 10)%N with 0%N by (symmetry; apply N.div_small; exact Hsmall).
    rewrite pretty_N_go_0. simpl. rewrite Hdigit.
    rewrite N.mod_small by exact Hsmall. reflexivity.
  - assert (Hq : (0 < x `div` 10)%N) by (apply N.div_str_pos; lia).
    destruct (IH (x `div` 10)%N ltac:(apply N.div_lt; lia) Hq) as (p & Hp).
    exists (p * 10)%Z. intros s acc.
    rewrite pretty_N_go_step by exact Hx. rewrite Hp. simpl. rewrite Hdigit.
    f_equal. f_equal. lia.
Qed.

Lemma pretty_N_go_head (x : N) (s : string) :
  (0 < x)%N ->
  exists c rest d, pretty_N_go x s = String c rest /\ digitOf c = Some d.
Proof.
  revert s. induction (N.lt_wf_0 x) as [x _ IH]. intros s Hx.
  assert (Hmod : (x `mod` 10 < 10)%N) by (apply N.mod_lt; lia).
  rewrite pretty_N_go_step by exact Hx.
  destruct (decide (x `div` 10 = 0)%N) as [-> | Hq].
  - rewrite pretty_N_go_0. eexists _, _, _. split; [reflexivity|].
    apply digitOf_pretty_N_char. exact Hmod.
  - apply IH; first [apply N.div_lt; lia | apply N.neq_0_lt_0; exact Hq].
Qed.

Lemma pretty_N_go_noColon (x : N) (s : string) :
  noColon s = true -> noColon (pretty_N_go x s) = true.
Proof.
  revert s. induction (N.lt_wf_0 x) as [x _ IH]. intros s Hs.
  destruct (decide (0 < x)%N) as [Hx | Hx].
  - rewrite pretty_N_go_step by exact Hx.
    apply IH; [apply N.div_lt; lia|]. simpl. rewrite Hs.
    assert (Hmod : (x `mod` 10 < 10)%N) by (apply N.mod_lt; lia).
    destruct (digit_plain _ _ (digitOf_pretty_N_char _ Hmod)) as (_ & _ & _ & Hc).
    rewrite bool_decide_eq_false_2 by exact Hc. reflexivity.
  - replace x with 0%N by lia. rewrite pretty_N_go_0. exact Hs.
Qed.

Lemma pretty_positive_eq (p : positive) : pretty p = pretty_N_go (Npos p) "".
Proof. reflexivity. Qed.

Lemma pretty_Z_noColon (z : Z) : noColon (pretty z) = true.
Proof.
  destruct z as [|p|p]; [reflexivity | |].
  - change (pretty (Zpos p)) with (pretty p). rewrite pretty_positive_eq.
    apply pretty_N_go_noColon. reflexivity.
  - change (pretty (Zneg p)) with ("-" +:+ pretty p). rewrite pretty_positive_eq.
    rewrite append_cons, append_nil. simpl. apply pretty_N_go_noColon. reflexivity.
Qed.

Lemma readDigits_pretty_positive (p : positive) :
  readDigits (pretty_N_go (Npos p) "") None = Some (Zpos p).
Proof.
  destruct (readDigits_pretty_N_go (Npos p) ltac:(lia)) as (q & Hq).
  rewrite Hq. simpl. reflexivity.
Qed.

Lemma parseInt_digits (c : ascii) (rest : string) (d : Z) :
  digitOf c = Some d -> parseInt (String c rest) = readDigits (String c rest) None.
Proof.
  intros Hd. destruct (digit_plain c d Hd) as (Hsp & Hminus & Hplus & _).
  unfold parseInt. cbn [skipSpaces]. rewrite Hsp.
  rewrite !bool_decide_eq_false_2 by assumption. reflexivity.
Qed.

(** Parsing the decimal writing of an integer gives the integer back. *)
Lemma parseInt_pretty (z : Z) : parseInt (pretty z) = Some z.
Proof.
  destruct z as [|p|p]; [reflexivity | |].
  - change (pretty (Zpos p)) with (pretty p). rewrite pretty_positive_eq.
    destruct (pretty_N_go_head (Npos p) "" ltac:(lia)) as (c & rest & d & Heq & Hd).
    rewrite Heq, (parseInt_digits c rest d Hd), <- Heq.
    apply readDigits_pretty_positive.
  - change (pretty (Zneg p)) with ("-" +:+ pretty p). rewrite pretty_positive_eq.
    rewrite append_cons, append_nil. unfold parseInt. cbn [skipSpaces].
    change (isSpace "-") with false. cbv iota.
    rewrite bool_decide_eq_true_2 by reflexivity.
    rewrite readDigits_pretty_positive. reflexivity.
Qed.

Lemma splitColon_app (a rest : string) :
  noColon a = true -> splitColon (a +:+ String ":" rest) = a :: splitColon rest.
Proof.
  induction a as [|c a IH]; intros Ha.
  - reflexivity.
  - simpl in Ha. apply andb_true_iff in Ha as [Hc Ha]. apply negb_true_iff in Hc.
    rewrite append_cons. simpl. rewrite Hc, IH by exact Ha. reflexivity.
Qed.

(** An id that starts with the key of a chunk and a colon embeds the
    coordinate of that chunk, and the key read from it is that key. *)
Lemma ownedBy_chunkOfId (cx cz : Z) (id : string) :
  ownedBy cx cz id ->
  chunkOfId id = Some (cx, cz) /\ Earlier.keyOfId id = chunkKey cx cz.
Proof.
  intros (rest & ->). unfold chunkOfId, Earlier.keyOfId, chunkKey.
  rewrite !string_app_assoc, !append_cons, !append_nil.
  rewrite splitColon_app by apply pretty_Z_noColon.
  rewrite splitColon_app by apply pretty_Z_noColon.
  simpl. rewrite !parseInt_pretty. split; reflexivity.
Qed.

Lemma owned_extend (cx cz : Z) (infix rest : string) :
  ownedBy cx cz ((chunkKey cx cz +:+ String ":" infix) +:+ String ":" rest).
Proof.
  exists (infix +:+ String ":" rest). rewrite string_app_assoc, append_cons. reflexivity.
Qed.

Lemma generateBuilding_ids (type : BuildingType) (x z y rotation : R) (idPrefix : string) :
  Forall (fun o => exists rest, o_id o = idPrefix +:+ String ":" rest)
         (generateBuilding type x z y rotation idPrefix).
Proof.
  destruct type; simpl; repeat constructor; simpl; eexists; reflexivity.
Qed.

Lemma generateBuilding_owned (cx cz : Z) (type : BuildingType) (x z y rotation : R)
    (infix : string) :
  Forall (fun o => ownedBy cx cz (o_id o))
         (generateBuilding type x z y rotation (chunkKey cx cz +:+ String ":" infix)).
Proof.
  eapply Forall_impl; [apply generateBuilding_ids|].
  intros o (rest & ->). apply owned_extend.
Qed.

Lemma forRange_Forall (P : Obstacle -> Prop) (n : nat) (body : Z -> list Obstacle) :
  (forall i, Forall P (body i)) -> Forall P (forRange n body).
Proof.
  intros Hbody. unfold forRange. apply Forall_flat_map.
  apply Forall_forall. intros i _. apply Hbody.
Qed.

(** Every id [generateChunk] emits starts with the key of its chunk. *)
Lemma generateChunk_owned (cx cz : Z) (S : R) :
  Forall (fun o => ownedBy cx cz (o_id o)) (generateChunk cx cz S).
Proof.
  unfold generateChunk. lazy zeta.
  apply Forall_app. split.
  - destruct (gtb _ _); [|constructor].
    apply Forall_app. split; [|apply Forall_app; split].
    + destruct (eqb _ 0); [|constructor]. apply (generateBuilding_owned cx cz market).
    + apply forRange_Forall. intros i.
      destruct (gtb _ 0); [constructor|].
      apply (generateBuilding_owned cx cz _ _ _ _ _ ("b" +:+ pretty i)).
    + destruct (gtb _ 0.5); repeat constructor. simpl. eexists. reflexivity.
  - apply forRange_Forall. intros i.
    destruct (gtb _ 0); repeat constructor. simpl. eexists. reflexivity.
Qed.

Lemma forRangeAcc_Forall (P : Earlier.Obstacle -> Prop) (idx : list Z)
    (body : list Earlier.Obstacle -> Z -> list Earlier.Obstacle) (acc : list Earlier.Obstacle) :
  Forall P acc -> (forall a i, Forall P (body a i)) ->
  Forall P (Earlier.forRangeAcc idx body acc).
Proof.
  intros Hacc Hbody. revert acc Hacc.
  induction idx as [|i idx IH]; intros acc Hacc; simpl; [exact Hacc|].
  apply IH. apply Forall_app. split; [exact Hacc | apply Hbody].
Qed.

Lemma earlier_generateChunk_owned (cx cz : Z) :
  Forall (fun o => ownedBy cx cz (Earlier.o_id o)) (Earlier.generateChunk cx cz).
Proof.
  unfold Earlier.generateChunk. lazy zeta.
  apply Forall_app. split; [|apply Forall_app; split].
  - apply forRangeAcc_Forall.
    + destruct (gtb _ 0.95); [|constructor].
      apply Forall_flat_map. apply Forall_forall. intros i _.
      repeat constructor. simpl. eexists. reflexivity.
    + intros a i. destruct (_ && _); repeat constructor. simpl. eexists. reflexivity.
  - apply Forall_flat_map. apply Forall_forall. intros i _.
    repeat constructor. simpl. eexists. reflexivity.
  - destruct (_ && _); repeat constructor. simpl. eexists. reflexivity.
Qed.

(** ** The active chunks lie within [RENDER_DISTANCE] *)

Lemma elem_of_zrange (x lo : Z) (n : nat) :
  x ∈ zrange lo n -> (lo <= x < lo + Z.of_nat n)%Z.
Proof.
  unfold zrange. intros Hin. apply list_elem_of_fmap in Hin as (k & -> & Hk).
  apply elem_of_seq in Hk. lia.
Qed.

Lemma activeCoords_near (c : Z * Z) (cx cz : Z) :
  c ∈ activeCoords cx cz -> withinRadius RENDER_DISTANCE c (cx, cz).
Proof.
  unfold activeCoords, withinRadius, RENDER_DISTANCE. intros Hin.
  apply list_elem_of_In, in_flat_map in Hin as (x & Hx & Hin).
  apply list_elem_of_In in Hx, Hin.
  apply list_elem_of_fmap in Hin as (z & -> & Hz).
  apply elem_of_zrange in Hx, Hz. simpl in *. lia.
Qed.

(** ** Eviction in the earlier variant *)

(** An obstacle freshly generated for an active chunk is within reach, and
    its key is an active key. *)
Lemma fresh_obstacle_active (cx cz : Z) (o : Earlier.Obstacle) :
  (exists c, c ∈ activeCoords cx cz /\ o ∈ Earlier.generateChunk c.1 c.2) ->
  inReach cx cz (Earlier.o_id o) /\
  Earlier.keyOfId (Earlier.o_id o) ∈ activeKeys cx cz.
Proof.
  intros (c & Hc & Ho).
  pose proof (earlier_generateChunk_owned c.1 c.2) as Howned.
  rewrite Forall_forall in Howned.
  destruct (ownedBy_chunkOfId _ _ _ (Howned o Ho)) as [Hchunk Hkey].
  split.
  - unfold inReach. rewrite Hchunk.
    apply activeCoords_near in Hc. unfold withinRadius in *. simpl in *. lia.
  - rewrite Hkey. unfold activeKeys. apply elem_of_list_to_set.
    apply (list_elem_of_fmap_2 (fun c => chunkKey c.1 c.2)). exact Hc.
Qed.

(** ** Further properties of the final variant *)

(** X1: every obstacle [generateChunk] emits for a chunk carries an id whose
    first two fields parse back to the coordinate of that chunk. *)
Theorem generated_ids_embed_chunk (cx cz : Z) (S : R) :
  Forall (fun o => chunkOfId (o_id o) = Some (cx, cz)) (generateChunk cx cz S).
Proof.
  eapply Forall_impl; [apply generateChunk_owned|].
  intros o Ho. apply (ownedBy_chunkOfId cx cz (o_id o) Ho).
Qed.

(** The actors after a frame: each comes from an actor of the session, shot
    at and then updated, or is the actor spawned by the frame. *)
Lemma frame_actor_origin (w : World) (i : FrameInput) (e' : Enemy) :
  isPlaying (gameState w) = true ->
  e' ∈ enemies (controllerFrame w i).1 ->
  (exists e, e ∈ enemies w /\
     e' = aiActor (f_camera i) (obstacles w) (seed w) (f_delta i)
            (applyHit (frameHit w i) (damageMultiplier (gameState w)) (f_time i)
               (mkRay (f_camera i) (f_look i)) e))
  \/
  (gtb (f_time i - lastSpawn w) ENEMY_SPAWN_RATE = true /\ e_id e' = r_id (f_draws i)).
Proof.
  intros Hp He'. rewrite controllerFrame_playing in He' by exact Hp. simpl in He'.
  rewrite aiFrameStep_enemies in He'.
  apply list_elem_of_filter in He' as [_ He'].
  apply list_elem_of_fmap in He' as (x & -> & Hx).
  destruct (spawnStep_keeps (shootingStep w i).1 i) as (_ & Hseed & Hobs & _).
  destruct (shootingStep_keeps w i) as (Hls & Hseed' & Hobs' & _).
  rewrite Hseed, Hobs, Hseed', Hobs'.
  rewrite spawnStep_enemies, Hls in Hx. apply elem_of_app in Hx as [Hx | Hx].
  - left. rewrite shootingStep_enemies in Hx.
    apply list_elem_of_fmap in Hx as (e & -> & He). exists e. split; [exact He | reflexivity].
  - right. destruct (gtb _ _); [|inversion Hx].
    apply list_elem_of_singleton in Hx. subst x. split; [reflexivity|].
    destruct (aiActor_keeps (f_camera i) (obstacles w) (seed w) (f_delta i)
                (spawnEnemy (f_camera i) (seed (shootingStep w i).1) (f_draws i)))
      as (-> & _). reflexivity.
Qed.

Lemma applyHit_hp (hit : option string) (mult time : R) (ray : Ray) (e : Enemy) :
  0 <= mult -> 0 <= e_hp e -> e_hp (applyHit hit mult time ray e) <= e_hp e.
Proof.
  intros Hm Hhp. unfold applyHit. repeat case_match; simpl; lra.
Qed.

(** X2: the hit points of an actor never increase: along any step of a
    well-formed session, an actor keeps its hit points or loses some. *)
Theorem hp_never_increases (w : World) (ev : Event) (e e' : Enemy) :
  wfWorld w -> freshDraw w ev ->
  e ∈ enemies w -> e' ∈ enemies (step w ev) -> e_id e' = e_id e ->
  e_hp e' <= e_hp e.
Proof.
  intros Hwf Hfresh He He' Hid.
  assert (Hsame : e' ∈ enemies w -> e_hp e' <= e_hp e).
  { intros Hin. destruct Hwf as (Hnd & _).
    rewrite (same_id_same_actor _ _ _ Hnd Hin He Hid). lra. }
  destruct ev as [i | camera | seen | m | newSeed]; simpl in He'.
  - destruct (isPlaying (gameState w)) eqn:Hp.
    2:{ unfold controllerFrame in He'. rewrite Hp in He'. auto. }
    destruct Hwf as (Hnd & Hall & Hm). rewrite Forall_forall in Hall.
    destruct (frame_actor_origin w i e' Hp He') as [(x & Hx & ->) | (Hspawn & Hnew)].
    + destruct (aiActor_keeps (f_camera i) (obstacles w) (seed w) (f_delta i)
                  (applyHit (frameHit w i) (damageMultiplier (gameState w)) (f_time i)
                     (mkRay (f_camera i) (f_look i)) x)) as (Hid' & _ & Hhp & _).
      rewrite Hid', applyHit_id in Hid.
      assert (x = e) as -> by (eapply same_id_same_actor; eassumption).
      rewrite Hhp. apply applyHit_hp; [lra | apply (Hall e He)].
    + exfalso. simpl in Hfresh. apply (Hfresh Hspawn).
      rewrite <- Hnew, Hid. apply (list_elem_of_fmap_2 e_id). exact He.
  - destruct (worldGenFrame_keeps w camera) as (_ & Hen & _). rewrite Hen in He'. auto.
  - destruct (isPlaying (gameState w)); auto.
  - destruct (isPlaying (gameState w)); auto.
  - unfold startGame in He'. destruct (isPlaying (gameState w)); [auto|].
    simpl in He'. inversion He'.
Qed.

Lemma hp_never_increases_witness :
  wfWorld hunt /\
  (forall e', e' ∈ enemies (step hunt (EvFrame huntShot)) ->
              e_id e' = "0.3306" -> e_hp e' <= 30).
Proof.
  assert (Hwf : wfWorld hunt).
  { unfold wfWorld, hunt; simpl. split_and!; [apply NoDup_singleton | | lra].
    constructor; [|constructor]. unfold wfEnemy; simpl. split_and!; try lra; discriminate. }
  split; [exact Hwf|]. intros e' He' Hid.
  refine (hp_never_increases hunt (EvFrame huntShot) (standing "0.3306" villager) e'
            Hwf _ (list_elem_of_here _ _) He' Hid).
  simpl. unfold ENEMY_SPAWN_RATE. intros Hspawn. apply gtb_true in Hspawn. lra.
Defined.

(** X3: a dead actor stays in the list returned by the actor update while
    less than 3000 ms have passed since its [deadTime], and is dropped
    otherwise. *)
Theorem despawn_after_three_seconds (w : World) (i : FrameInput) (e : Enemy) (t0 : R) :
  e ∈ enemies w -> e_isDead e = true -> e_deadTime e = Some t0 ->
  (f_time i - t0 < 3000 -> e ∈ enemies (aiFrameStep w i)) /\
  (3000 <= f_time i - t0 -> forall e', e' ∈ enemies (aiFrameStep w i) -> e' <> e).
Proof.
  intros He Hd Ht. rewrite aiFrameStep_enemies. split.
  - intros Hlt. apply list_elem_of_filter. split.
    + unfold stillShown. rewrite Hd, Ht. simpl. apply ltb_true. exact Hlt.
    + eapply list_elem_of_fmap_2'; [exact He|].
      unfold aiActor. rewrite aiStep_dead by exact Hd. reflexivity.
  - intros Hge e' He' ->. apply list_elem_of_filter in He' as [Hshown _].
    unfold stillShown in Hshown. rewrite Hd, Ht in Hshown. simpl in Hshown.
    apply ltb_true in Hshown. lra.
Qed.

Lemma despawn_after_three_seconds_witness :
  let fallen := mkEnemy "0.77" knight (mkVector3 3 0 4) 0 100 4 false true (Some 1000) None in
  let w := mkWorld (initialGameState true) [fallen] 0 0 false [] ∅ 123 in
  fallen ∈ enemies (aiFrameStep w (pullAt 3900)) /\
  (forall e', e' ∈ enemies (aiFrameStep w (pullAt 4100)) -> e' <> fallen).
Proof.
  intros fallen w.
  split.
  - refine (proj1 (despawn_after_three_seconds w (pullAt 3900) fallen 1000
                     (list_elem_of_here _ _) eq_refl eq_refl) _).
    simpl. lra.
  - refine (proj2 (despawn_after_three_seconds w (pullAt 4100) fallen 1000
                     (list_elem_of_here _ _) eq_refl eq_refl) _).
    simpl. lra.
Defined.

(** X4: an actor is spawned on a ring around the player: when the distance
    draw lies in [0, 1), its planar distance from the camera lies in
    [30, 50), and its height is the terrain height at its position. *)
Theorem spawn_on_ring (camera : Vector3) (seed : R) (d : SpawnDraws) :
  0 <= r_dist d < 1 ->
  let e := spawnEnemy camera seed d in
  30 <= planarDist camera e < 50 /\
  planarDist camera e = 30 + r_dist d * 20 /\
  v_y (e_position e) =
    getTerrainHeight (v_x (e_position e)) (v_z (e_position e)) seed.
Proof.
  intros Hr. simpl.
  assert (Hdist : planarDist camera (spawnEnemy camera seed d) = 30 + r_dist d * 20).
  { unfold planarDist, distanceTo, distanceToSquared, lengthSq, v_dot, v_sub, spawnEnemy.
    simpl. set (a := r_angle d * PI * 2). set (r := 30 + r_dist d * 20).
    replace ((v_x camera - (v_x camera + cos a * r)) * (v_x camera - (v_x camera + cos a * r))
             + (0 - 0) * (0 - 0)
             + (v_z camera - (v_z camera + sin a * r)) * (v_z camera - (v_z camera + sin a * r)))
      with (r * r).
    - apply sqrt_square. unfold r. lra.
    - pose proof (sin2_cos2 a) as H1. unfold Rsqr in H1. nra. }
  rewrite Hdist. split_and!; [lra | lra | reflexivity | reflexivity].
Qed.

Lemma spawn_on_ring_witness :
  0 <= r_dist (f_draws firstFrame) < 1 /\
  planarDist (f_camera firstFrame)
    (spawnEnemy (f_camera firstFrame) 123 (f_draws firstFrame)) = 30 + 0.5 * 20.
Proof.
  assert (Hr : 0 <= r_dist (f_draws firstFrame) < 1) by (simpl; lra).
  split; [exact Hr|].
  exact (proj1 (proj2 (spawn_on_ring (f_camera firstFrame) 123 (f_draws firstFrame) Hr))).
Defined.
(** * The player's movement *)

Lemma lengthSq_nonneg (a : Vector3) : 0 <= lengthSq a.
Proof. unfold lengthSq, v_dot. nra. Qed.

Lemma lengthSq_scale (a : Vector3) (k : R) :
  lengthSq (multiplyScalar a k) = lengthSq a * (k * k).
Proof. unfold lengthSq, v_dot, multiplyScalar. simpl. ring. Qed.

Lemma normalize_unit (a : Vector3) : 0 < lengthSq a -> lengthSq (normalize a) = 1.
Proof.
  intros Hpos. unfold normalize, v_length.
  assert (Hs : 0 < sqrt (lengthSq a)) by (apply sqrt_lt_R0; exact Hpos).
  rewrite bool_decide_eq_false_2 by lra.
  rewrite lengthSq_scale.
  pose proof (sqrt_sqrt (lengthSq a) (Rlt_le _ _ Hpos)) as Hsq.
  field_simplify_eq; [|lra].
  rewrite <- Hsq at 1. ring.
Qed.

Lemma moveVector_bound (i : MoveInput) :
  lengthSq (moveVector i) <= (WALK_SPEED * mv_delta i) * (WALK_SPEED * mv_delta i).
Proof.
  unfold moveVector. cbv zeta.
  destruct (negb _ || negb _).
  - rewrite lengthSq_scale.
    set (m := v_add _ _).
    assert (Hm : lengthSq (if gtb (lengthSq m) 1 then normalize m else m) <= 1).
    { destruct (gtb (lengthSq m) 1) eqn:Hg.
      - apply gtb_true in Hg. rewrite normalize_unit; lra.
      - apply gtb_false in Hg. exact Hg. }
    pose proof (lengthSq_nonneg (if gtb (lengthSq m) 1 then normalize m else m)).
    nra.
  - unfold lengthSq, v_dot. simpl. nra.
Qed.

Lemma planar_sq (a b : Vector3) :
  planar a b = sqrt ((v_x a - v_x b) * (v_x a - v_x b) + (v_z a - v_z b) * (v_z a - v_z b)).
Proof.
  unfold planar, distanceTo, distanceToSquared, lengthSq, v_dot, v_sub. simpl.
  f_equal. ring.
Qed.

Lemma blocksAt_planar (p p' : Vector3) (radius : R) (obs : Obstacle) :
  v_x p = v_x p' -> v_z p = v_z p' -> blocksAt p radius obs = blocksAt p' radius obs.
Proof. intros Hx Hz. unfold blocksAt. rewrite Hx, Hz. reflexivity. Qed.

Lemma checkCollision_planar (p p' : Vector3) (obstacles : list Obstacle) (radius : R) :
  v_x p = v_x p' -> v_z p = v_z p' ->
  checkCollision p obstacles radius = checkCollision p' obstacles radius.
Proof.
  intros Hx Hz. induction obstacles as [|obs rest IH]; [reflexivity|].
  simpl. rewrite (blocksAt_planar p p' radius obs Hx Hz), IH. reflexivity.
Qed.

(** The planar position after the movement block is the next position when
    it is free and the old one otherwise. *)
Lemma movePlayer_cases (camera : Vector3) (obstacles : list Obstacle) (seed : R)
    (i : MoveInput) :
  let camera' := movePlayer camera obstacles seed i in
  let nextPos := v_add camera (moveVector i) in
  (checkCollision nextPos obstacles 0.5 = false /\
   v_x camera' = v_x nextPos /\ v_z camera' = v_z nextPos)
  \/
  (checkCollision nextPos obstacles 0.5 = true /\
   v_x camera' = v_x camera /\ v_z camera' = v_z camera).
Proof.
  cbv zeta. unfold movePlayer. cbv zeta.
  destruct (checkCollision (v_add camera (moveVector i)) obstacles 0.5) eqn:Hc; simpl.
  - right. auto.
  - left. auto.
Qed.

(** X5: the movement block never takes the player onto a position the
    collision test refuses. *)
Theorem movement_respects_obstacles (camera : Vector3) (obstacles : list Obstacle)
    (seed : R) (i : MoveInput) :
  let camera' := movePlayer camera obstacles seed i in
  (checkCollision camera obstacles 0.5 = false ->
   checkCollision camera' obstacles 0.5 = false) /\
  (v_x camera' <> v_x camera \/ v_z camera' <> v_z camera ->
   checkCollision camera' obstacles 0.5 = false) /\
  (checkCollision (v_add camera (moveVector i)) obstacles 0.5 = true ->
   v_x camera' = v_x camera /\ v_z camera' = v_z camera).
Proof.
  cbv zeta.
  destruct (movePlayer_cases camera obstacles seed i) as [(Hc & Hx & Hz)|(Hc & Hx & Hz)].
  - split_and!.
    + intros _. rewrite (checkCollision_planar _ _ _ _ Hx Hz). exact Hc.
    + intros _. rewrite (checkCollision_planar _ _ _ _ Hx Hz). exact Hc.
    + intros Hc'. congruence.
  - split_and!.
    + intros H. rewrite (checkCollision_planar _ _ _ _ Hx Hz). exact H.
    + intros [H|H]; contradiction.
    + intros _. auto.
Qed.

(** X6: whatever the keys and the stick ask for together, the planar step of
    a frame is at most [WALK_SPEED * delta]. *)
Theorem player_speed_limit (camera : Vector3) (obstacles : list Obstacle) (seed : R)
    (i : MoveInput) :
  0 <= mv_delta i ->
  planar camera (movePlayer camera obstacles seed i) <= WALK_SPEED * mv_delta i.
Proof.
  intros Hd. rewrite planar_sq.
  assert (Hs : 0 <= WALK_SPEED * mv_delta i) by (unfold WALK_SPEED; lra).
  rewrite <- (sqrt_square (WALK_SPEED * mv_delta i)) by exact Hs.
  apply sqrt_le_1_alt.
  pose proof (moveVector_bound i) as Hb.
  destruct (movePlayer_cases camera obstacles seed i) as [(_ & Hx & Hz)|(_ & Hx & Hz)];
    cbv zeta in Hx, Hz; rewrite Hx, Hz.
  - unfold lengthSq, v_dot in Hb. unfold v_add. simpl.
    set (m := moveVector i) in *. nra.
  - nra.
Qed.

Lemma player_speed_limit_witness :
  0 <= mv_delta walking /\
  planar (mkVector3 0 1.7 0) (movePlayer (mkVector3 0 1.7 0) [] 123 walking)
    <= WALK_SPEED * mv_delta walking.
Proof.
  assert (H : 0 <= mv_delta walking) by (simpl; lra).
  split; [exact H|].
  exact (player_speed_limit (mkVector3 0 1.7 0) [] 123 walking H).
Defined.
(** * Obstacles of a session come from the generator *)

Lemma loadStep_fold_Forall (P : Obstacle -> Prop) (worldSeed : R) (coords : list (Z * Z))
    (acc : gset string * list Obstacle * bool) :
  (forall cx cz, Forall P (generateChunk cx cz worldSeed)) ->
  Forall P acc.1.2 ->
  Forall P (fold_left (loadStep worldSeed) coords acc).1.2.
Proof.
  intros Hgen. revert acc.
  induction coords as [|c coords IH]; intros [[loaded newObs] hasNew] Hacc; simpl; [exact Hacc|].
  apply IH. destruct (bool_decide _); simpl; [exact Hacc|].
  apply Forall_app. split; [exact Hacc | apply Hgen].
Qed.

Lemma worldGenFrame_Forall (P : Obstacle -> Prop) (w : World) (camera : Vector3) :
  (forall cx cz, Forall P (generateChunk cx cz (seed w))) ->
  Forall P (obstacles w) -> Forall P (obstacles (worldGenFrame w camera)).
Proof.
  intros Hgen Hw. unfold worldGenFrame.
  destruct (negb _); [exact Hw|].
  pose proof (loadStep_fold_Forall P (seed w)
                (activeCoords (chunkOf (v_x camera)) (chunkOf (v_z camera)))
                (loadedChunks w, [], false) Hgen (Forall_nil_2 P)) as Hnew.
  destruct (fold_left _ _ _) as [[loaded newObs] hasNew]. simpl in *.
  destruct hasNew; [|exact Hw].
  apply Forall_app. split; assumption.
Qed.

Lemma controllerFrame_obstacles (w : World) (i : FrameInput) :
  obstacles (controllerFrame w i).1 = obstacles w.
Proof.
  destruct (isPlaying (gameState w)) eqn:Hp.
  - rewrite (controllerFrame_playing w i Hp). simpl.
    unfold aiFrameStep. destruct (updateEnemies _ _ _ _ _ _). simpl.
    destruct (spawnStep_keeps (shootingStep w i).1 i) as (_ & _ & -> & _).
    destruct (shootingStep_keeps w i) as (_ & _ & -> & _). reflexivity.
  - unfold controllerFrame. rewrite Hp. reflexivity.
Qed.

(** What holds of every generated obstacle holds of every obstacle of a
    session. *)
Lemma step_obstacles_Forall (P : Obstacle -> Prop) (w : World) (ev : Event) :
  (forall cx cz S, Forall P (generateChunk cx cz S)) ->
  Forall P (obstacles w) -> Forall P (obstacles (step w ev)).
Proof.
  intros Hgen Hw. destruct ev as [i | camera | seen | m | newSeed]; simpl.
  - rewrite controllerFrame_obstacles. exact Hw.
  - apply worldGenFrame_Forall; [intros; apply Hgen | exact Hw].
  - destruct (isPlaying _); exact Hw.
  - destruct (isPlaying _); exact Hw.
  - unfold startGame. destruct (isPlaying _); [exact Hw | constructor].
Qed.

Lemma run_obstacles_Forall (P : Obstacle -> Prop) (evs : list Event) (w : World) :
  (forall cx cz S, Forall P (generateChunk cx cz S)) ->
  Forall P (obstacles w) -> Forall P (obstacles (run w evs)).
Proof.
  intros Hgen. revert w. induction evs as [|ev evs IH]; intros w Hw; simpl; [exact Hw|].
  apply IH, step_obstacles_Forall; assumption.
Qed.

(** * The shop prompt *)

Lemma generateBuilding_shopAsBuilt (type : BuildingType) (x z y rotation : R)
    (idPrefix : string) :
  Forall shopAsBuilt (generateBuilding type x z y rotation idPrefix).
Proof.
  destruct type; simpl; repeat constructor; unfold shopAsBuilt; simpl; congruence.
Qed.

Lemma generateChunk_shopAsBuilt (cx cz : Z) (S : R) :
  Forall shopAsBuilt (generateChunk cx cz S).
Proof.
  unfold generateChunk. lazy zeta.
  apply Forall_app. split.
  - destruct (gtb _ _); [|constructor].
    apply Forall_app. split; [|apply Forall_app; split].
    + destruct (eqb _ 0); [|constructor]. apply generateBuilding_shopAsBuilt.
    + apply forRange_Forall. intros i.
      destruct (gtb _ 0); [constructor|]. apply generateBuilding_shopAsBuilt.
    + destruct (gtb _ 0.5); repeat constructor. unfold shopAsBuilt. simpl. congruence.
  - apply forRange_Forall. intros i.
    destruct (gtb _ 0); repeat constructor. unfold shopAsBuilt. simpl. congruence.
Qed.

(** A prompt is shown only within 3 units of a shop counter. *)
Lemma shopCheck_Some (camera : Vector3) (obstacles : list Obstacle) (g : GameState)
    (m : string) :
  shopCheck camera obstacles g = Some m ->
  m = shopPrompt g /\
  exists obs, obs ∈ obstacles /\ o_type obs = shop_table /\
              distanceTo camera (o_position obs) < 3.
Proof.
  induction obstacles as [|obs rest IH]; simpl; [discriminate|].
  intros H.
  destruct (gtb _ 10).
  { destruct (IH H) as (Hm & o & Ho & Hrest). split; [exact Hm|].
    exists o. split; [apply elem_of_cons; right; exact Ho | exact Hrest]. }
  destruct (bool_decide (o_type obs = shop_table)) eqn:Ht; simpl in H.
  - destruct (ltb (distanceTo camera (o_position obs)) 3) eqn:Hd.
    + apply bool_decide_eq_true in Ht. apply ltb_true in Hd.
      split; [congruence|].
      exists obs. split; [apply elem_of_cons; left; reflexivity | auto].
    + destruct (IH H) as (Hm & o & Ho & Hrest). split; [exact Hm|].
      exists o. split; [apply elem_of_cons; right; exact Ho | exact Hrest].
  - destruct (IH H) as (Hm & o & Ho & Hrest). split; [exact Hm|].
    exists o. split; [apply elem_of_cons; right; exact Ho | exact Hrest].
Qed.

(** A point within 3 units of a shop counter is one the collision test
    refuses to a body of radius 0.5. *)
Lemma near_shop_blocked (camera : Vector3) (obs : Obstacle) :
  shopAsBuilt obs -> o_type obs = shop_table ->
  distanceTo camera (o_position obs) < 3 ->
  blocksAt camera 0.5 obs = true.
Proof.
  intros Hbuilt Ht Hd. specialize (Hbuilt Ht).
  unfold distanceTo, distanceToSquared, lengthSq, v_dot, v_sub in Hd. simpl in Hd.
  set (dx := v_x camera - v_x (o_position obs)) in *.
  set (dy := v_y camera - v_y (o_position obs)) in *.
  set (dz := v_z camera - v_z (o_position obs)) in *.
  assert (Hsq : dx * dx + dy * dy + dz * dz < 9).
  { destruct (Rlt_dec (dx * dx + dy * dy + dz * dz) 9) as [H|H]; [exact H|].
    exfalso. apply Rnot_lt_le in H.
    apply sqrt_le_1_alt in H. replace 9 with (3 * 3) in H by ring.
    rewrite sqrt_square in H by lra. lra. }
  unfold blocksAt. fold dx dz.
  assert (Hskip : skipped dx dz = false).
  { unfold skipped. apply orb_false_iff. split; apply gtb_false.
    - apply Rabs_le. split; nra.
    - apply Rabs_le. split; nra. }
  rewrite Hskip, Ht.
  unfold circleBlocks. rewrite Hbuilt.
  apply andb_true_iff. split; [apply gtb_true; lra | apply ltb_true; nra].
Qed.

(** X7: the prompt of the shop is out of the reach of a player who stands
    where the collision test lets a body of radius 0.5 stand. *)
Theorem shop_prompt_out_of_reach (w : World) (evs : list Event) (camera : Vector3)
    (i : MoveInput) :
  Forall shopAsBuilt (obstacles w) ->
  checkCollision camera (obstacles (run w evs)) 0.5 = false ->
  let w' := run w evs in
  Forall shopAsBuilt (obstacles w') /\
  shopCheck camera (obstacles w') (gameState w') = None /\
  checkCollision (playerFrame w' camera i).1 (obstacles w') 0.5 = false /\
  (playerFrame w' camera i).2 = None.
Proof.
  intros Hw Hfree. cbv zeta.
  assert (Hbuilt : Forall shopAsBuilt (obstacles (run w evs)))
    by (apply run_obstacles_Forall; [apply generateChunk_shopAsBuilt | exact Hw]).
  assert (Hnone : forall p g, checkCollision p (obstacles (run w evs)) 0.5 = false ->
                              shopCheck p (obstacles (run w evs)) g = None).
  { intros p g Hp. destruct (shopCheck p (obstacles (run w evs)) g) as [m|] eqn:Hm;
      [|reflexivity].
    apply shopCheck_Some in Hm as (_ & obs & Hin & Ht & Hd).
    assert (Hcol : checkCollision p (obstacles (run w evs)) 0.5 = true).
    { apply checkCollision_exists. exists obs. split; [exact Hin|].
      apply near_shop_blocked; [|exact Ht|exact Hd].
      eapply Forall_forall in Hbuilt; [exact Hbuilt|exact Hin]. }
    congruence. }
  assert (Hfree' : checkCollision (movePlayer camera (obstacles (run w evs)) (seed (run w evs)) i)
                     (obstacles (run w evs)) 0.5 = false).
  { destruct (movePlayer_cases camera (obstacles (run w evs)) (seed (run w evs)) i)
      as [(Hc & Hx & Hz)|(Hc & Hx & Hz)];
      rewrite (checkCollision_planar _ _ _ _ Hx Hz); assumption. }
  split_and!; [exact Hbuilt | apply Hnone, Hfree | exact Hfree' | apply Hnone, Hfree'].
Qed.

Lemma blocksAt_far (position : Vector3) (radius : R) (obs : Obstacle) :
  15 < Rabs (v_x position - v_x (o_position obs)) -> blocksAt position radius obs = false.
Proof.
  intros H. unfold blocksAt, skipped.
  rewrite (proj2 (gtb_true _ _) H). reflexivity.
Qed.

Lemma far_from_market : checkCollision (mkVector3 0 1.7 0) marketPlace 0.5 = false.
Proof.
  unfold marketPlace, generateBuilding. simpl.
  repeat (rewrite blocksAt_far;
          [|simpl; rewrite Rabs_left; lra]).
  reflexivity.
Qed.

Lemma shop_prompt_out_of_reach_witness :
  Forall shopAsBuilt (obstacles marketTown) /\
  checkCollision (mkVector3 0 1.7 0)
    (obstacles (run marketTown [EvKeyShop (Some msgAmmo)])) 0.5 = false /\
  (playerFrame (run marketTown [EvKeyShop (Some msgAmmo)]) (mkVector3 0 1.7 0) walking).2
    = None.
Proof.
  assert (H1 : Forall shopAsBuilt (obstacles marketTown))
    by apply generateBuilding_shopAsBuilt.
  assert (H2 : checkCollision (mkVector3 0 1.7 0)
                 (obstacles (run marketTown [EvKeyShop (Some msgAmmo)])) 0.5 = false)
    by exact far_from_market.
  split; [exact H1|]. split; [exact H2|].
  exact (proj2 (proj2 (proj2
    (shop_prompt_out_of_reach marketTown [EvKeyShop (Some msgAmmo)] (mkVector3 0 1.7 0)
       walking H1 H2)))).
Defined.
(** * The player's resources *)

Lemma killReward_config (hit : option string) (prev next : list Enemy) (c : EnemyConfig) :
  killReward hit prev next = Some c -> exists t, c = ENEMY_CONFIG t.
Proof.
  unfold killReward. repeat case_match; try discriminate;
    intros [= <-]; eexists; reflexivity.
Qed.

Lemma ENEMY_CONFIG_gold (t : EnemyType) : (0 <= cfg_gold (ENEMY_CONFIG t))%Z.
Proof. destruct t; simpl; lia. Qed.

Lemma takeDamage_resources (d : R) (g : GameState) :
  0 < d -> 0 <= health g <= 100 ->
  0 <= health (takeDamage d g) <= 100 /\
  (isPlaying (takeDamage d g) = true -> 0 < health (takeDamage d g)).
Proof.
  intros Hd Hh. unfold takeDamage.
  destruct (eqb (Rmax 0 (health g - d)) 0) eqn:He.
  - apply eqb_true in He. destruct (isPlaying g); simpl.
    + split; [lra | discriminate].
    + rewrite He. split; [lra | discriminate].
  - simpl. assert (Hne : Rmax 0 (health g - d) <> 0).
    { intros E. unfold eqb in He. rewrite bool_decide_eq_true_2 in He by exact E.
      discriminate. }
    pose proof (Rmax_l 0 (health g - d)).
    assert (Rmax 0 (health g - d) <= 100) by (apply Rmax_lub; lra).
    split; [lra|]. intros _. lra.
Qed.

Ltac kept := repeat split; first [assumption | intuition congruence].

Lemma step_resources (w : World) (ev : Event) : resourcesOk w -> resourcesOk (step w ev).
Proof.
  unfold resourcesOk. intros (Hg & Hh & Hp).
  destruct ev as [i | camera | seen | m | newSeed]; simpl.
  - destruct (isPlaying (gameState w)) eqn:Hplay.
    2:{ unfold controllerFrame. rewrite Hplay. simpl. rewrite Hplay. kept. }
    destruct (controllerFrame_score w i Hplay) as (_ & Hgold & _). simpl in Hgold.
    split.
    { rewrite Hgold, shootingStep_gameState.
      destruct (shotOutcome w i); [|destruct (bool_decide _); exact Hg|exact Hg].
      unfold addReward. destruct (killReward _ _ _) as [c|] eqn:Hk; simpl; [|exact Hg].
      apply killReward_config in Hk as [t ->]. pose proof (ENEMY_CONFIG_gold t). lia. }
    rewrite (controllerFrame_playing w i Hplay). simpl.
    rewrite aiFrameStep_gameState. cbv zeta.
    destruct (spawnStep_keeps (shootingStep w i).1 i) as (Hgs & _).
    rewrite !spawnStep_enemies, Hgs.
    destruct (shootingStep_keeps w i) as (_ & _ & _ & _ & _ & Hp1 & Hh1).
    cbv zeta in Hp1, Hh1.
    set (g1 := gameState (shootingStep w i).1) in *.
    destruct (gtb _ 0) eqn:Hd.
    + apply gtb_true in Hd. apply takeDamage_resources; [exact Hd | rewrite Hh1; exact Hh].
    + rewrite Hh1, Hp1. split; [exact Hh | intros _; apply Hp; reflexivity].
  - destruct (worldGenFrame_keeps w camera) as (-> & _). kept.
  - destruct (isPlaying (gameState w)) eqn:Hplay; [|kept].
    unfold reload. destruct (bool_decide _); simpl; kept.
  - destruct (isPlaying (gameState w)) eqn:Hplay; [|kept].
    unfold handleShopAction. destruct m as [m|]; simpl; [|kept].
    repeat case_match; simpl; repeat match goal with
      | H : _ && _ = true |- _ => apply andb_true_iff in H as [_ H]; apply bool_decide_eq_true in H
      end; split_and!; try lia; try lra; auto.
  - unfold startGame. destruct (isPlaying (gameState w)) eqn:Hplay; simpl; [kept|].
    split_and!; [lia | lra | lra | intros _; lra].
Qed.

Lemma run_resources (evs : list Event) (w : World) : resourcesOk w -> resourcesOk (run w evs).
Proof.
  revert w. induction evs as [|ev evs IH]; intros w Hok; simpl; [exact Hok|].
  apply IH, step_resources, Hok.
Qed.

(** X8: gold never goes below 0 and health stays within [0, 100] along a
    session; health is positive while the game is being played, so the game
    is over as soon as health is 0; and once it is over only a restart
    changes the session. *)
Theorem resources_stay_in_range (w : World) (evs : list Event) (ev : Event) :
  resourcesOk w ->
  let w1 := run w evs in
  resourcesOk w1 /\
  (health (gameState w1) = 0 -> isPlaying (gameState w1) = false) /\
  (isPlaying (gameState w1) = false -> keepsSeed ev -> step w1 ev = w1).
Proof.
  intros Hok. cbv zeta.
  pose proof (run_resources evs w Hok) as (Hg & Hh & Hp).
  split; [repeat split; first [assumption | apply Hh]|]. split.
  - intros H0. destruct (isPlaying (gameState (run w evs))); [|reflexivity].
    specialize (Hp eq_refl). lra.
  - intros Hover Hev. destruct ev as [i | camera | seen | m | newSeed]; simpl.
    + unfold controllerFrame. rewrite Hover. reflexivity.
    + unfold worldGenFrame. rewrite Hover. reflexivity.
    + rewrite Hover. reflexivity.
    + rewrite Hover. reflexivity.
    + destruct Hev.
Qed.

Lemma resources_stay_in_range_witness :
  resourcesOk initialWorld /\
  resourcesOk (run initialWorld [EvStart 7; EvFrame firstFrame]).
Proof.
  assert (H : resourcesOk initialWorld).
  { unfold resourcesOk, initialWorld, initialGameState. simpl.
    split; [lia|]. split; [lra|]. intros _. lra. }
  split; [exact H|].
  exact (proj1 (resources_stay_in_range initialWorld [EvStart 7; EvFrame firstFrame]
                  (EvStart 7) H)).
Defined.

(** * The prompt and the purchase *)

Lemma prompts_disjoint :
  includes "AMMO" msgUpgrade = false /\ includes "HEALTH" msgUpgrade = false /\
  includes "UPGRADE" msgUpgrade = true /\
  includes "AMMO" msgHealth = false /\ includes "HEALTH" msgHealth = true /\
  includes "AMMO" msgAmmo = true.
Proof. vm_compute. repeat split. Qed.

(** X9: the key buys what the prompt offers.  With the prompt the frame
    shows for a state, [handleShopAction] on that state buys the upgrade when
    gold is at least 500; otherwise health (for 100) when health is below
    50, and ammunition (for 50) when it is not; and with too little gold it
    leaves the state as it is and plays the empty cue. *)
Theorem prompt_names_the_purchase (g : GameState) :
  let bought := handleShopAction (Some (shopPrompt g)) g in
  ((500 <= gold g)%Z ->
   bought = (mkGameState (score g) (gold g - 500) (health g) (wave g) (isPlaying g)
               (ammo g) (damageMultiplier g + 0.5), [playBuy])) /\
  ((gold g < 500)%Z -> health g < 50 ->
   bought = if bool_decide (100 <= gold g)%Z
            then (mkGameState (score g) (gold g - 100) 100 (wave g) (isPlaying g)
                    (ammo g) (damageMultiplier g), [playBuy])
            else (g, [playEmpty])) /\
  ((gold g < 500)%Z -> 50 <= health g ->
   bought = if bool_decide (50 <= gold g)%Z
            then (mkGameState (score g) (gold g - 50) (health g) (wave g) (isPlaying g)
                    MAX_AMMO (damageMultiplier g), [playBuy])
            else (g, [playEmpty])).
Proof.
  cbv zeta. destruct prompts_disjoint as (Hua & Huh & Huu & Hha & Hhh & Haa).
  unfold handleShopAction, shopPrompt. split_and!.
  - intros H. rewrite (bool_decide_eq_true_2 (500 <= gold g)%Z H).
    rewrite Hua, Huh, Huu. simpl. reflexivity.
  - intros H Hh. rewrite (bool_decide_eq_false_2 (500 <= gold g)%Z) by lia.
    rewrite (proj2 (ltb_true _ _) Hh). rewrite Hha, Hhh. simpl.
    destruct (bool_decide (100 <= gold g)%Z) eqn:E; [reflexivity|].
    vm_compute (includes "UPGRADE" msgHealth). reflexivity.
  - intros H Hh. rewrite (bool_decide_eq_false_2 (500 <= gold g)%Z) by lia.
    rewrite (proj2 (ltb_false _ _) Hh). rewrite Haa. simpl.
    destruct (bool_decide (50 <= gold g)%Z) eqn:E; [reflexivity|].
    apply bool_decide_eq_false in E.
    vm_compute (includes "HEALTH" msgAmmo).
    vm_compute (includes "UPGRADE" msgAmmo). reflexivity.
Qed.
(** * Ranges of the noise and of the terrain *)

Lemma frac_range (a : R) : 0 <= a - Math_floor a < 1.
Proof.
  unfold Math_floor, floorZ. destruct (base_Int_part a) as [H1 H2]. lra.
Qed.

Lemma seededRandom_range (s : R) : 0 <= seededRandom s < 1.
Proof. unfold seededRandom. apply frac_range. Qed.

Lemma noise_range (x z s : R) : 0 <= noise x z s < 1.
Proof. unfold noise. apply frac_range. Qed.

(** The quintic fade curve maps [0, 1] into itself. *)
Lemma fade_range (f : R) :
  0 <= f <= 1 -> 0 <= f * f * f * (f * (f * 6 - 15) + 10) <= 1.
Proof.
  intros [H0 H1]. split.
  - assert (0 <= f * f * f) by (apply Rmult_le_pos; [apply Rmult_le_pos|]; lra).
    assert (1 <= f * (f * 6 - 15) + 10) by nra.
    apply Rmult_le_pos; lra.
  - assert (E : 1 - f * f * f * (f * (f * 6 - 15) + 10)
                = (1 - f) * (1 - f) * (1 - f) * (6 * f * f + 3 * f + 1)) by ring.
    assert (0 <= (1 - f) * (1 - f) * (1 - f))
      by (apply Rmult_le_pos; [apply Rmult_le_pos|]; lra).
    assert (0 <= 6 * f * f + 3 * f + 1) by nra.
    assert (0 <= (1 - f) * (1 - f) * (1 - f) * (6 * f * f + 3 * f + 1))
      by (apply Rmult_le_pos; assumption).
    lra.
Qed.

(** A bilinear blend of four values of [0, 1) with weights of [0, 1]. *)
Lemma blend_range (u v a b c d : R) :
  0 <= u <= 1 -> 0 <= v <= 1 ->
  0 <= a < 1 -> 0 <= b < 1 -> 0 <= c < 1 -> 0 <= d < 1 ->
  0 <= (1 - u) * (1 - v) * a + u * (1 - v) * b + (1 - u) * v * c + u * v * d < 1.
Proof.
  intros Hu Hv Ha Hb Hc Hd.
  assert (W1 : 0 <= (1 - u) * (1 - v)) by (apply Rmult_le_pos; lra).
  assert (W2 : 0 <= u * (1 - v)) by (apply Rmult_le_pos; lra).
  assert (W3 : 0 <= (1 - u) * v) by (apply Rmult_le_pos; lra).
  assert (W4 : 0 <= u * v) by (apply Rmult_le_pos; lra).
  assert (P1 : 0 <= (1 - u) * (1 - v) * a) by (apply Rmult_le_pos; lra).
  assert (P2 : 0 <= u * (1 - v) * b) by (apply Rmult_le_pos; lra).
  assert (P3 : 0 <= (1 - u) * v * c) by (apply Rmult_le_pos; lra).
  assert (P4 : 0 <= u * v * d) by (apply Rmult_le_pos; lra).
  split; [lra|].
  assert (Q1 : 0 <= (1 - u) * (1 - v) * (1 - a)) by (apply Rmult_le_pos; lra).
  assert (Q2 : 0 <= u * (1 - v) * (1 - b)) by (apply Rmult_le_pos; lra).
  assert (Q3 : 0 <= (1 - u) * v * (1 - c)) by (apply Rmult_le_pos; lra).
  assert (Q4 : 0 <= u * v * (1 - d)) by (apply Rmult_le_pos; lra).
  destruct (Rle_lt_dec u (1 / 2)) as [Hul|Hul]; destruct (Rle_lt_dec v (1 / 2)) as [Hvl|Hvl].
  - assert (1 / 4 <= (1 - u) * (1 - v)) by nra.
    assert (0 < (1 - u) * (1 - v) * (1 - a)) by nra. nra.
  - assert (1 / 4 <= (1 - u) * v) by nra.
    assert (0 < (1 - u) * v * (1 - c)) by nra. nra.
  - assert (1 / 4 <= u * (1 - v)) by nra.
    assert (0 < u * (1 - v) * (1 - b)) by nra. nra.
  - assert (1 / 4 <= u * v) by nra.
    assert (0 < u * v * (1 - d)) by nra. nra.
Qed.

Lemma smoothNoise_range (x z s : R) : 0 <= smoothNoise x z s < 1.
Proof.
  unfold smoothNoise. cbv zeta.
  pose proof (frac_range x) as Hf. pose proof (frac_range z) as Hg.
  apply blend_range; try apply noise_range; apply fade_range; lra.
Qed.

Lemma Rpower_15_bound : 15 <= Rpower 15 1.2 < 26.
Proof.
  split.
  - rewrite <- (Rpower_1 15) at 1 by lra. apply Rle_Rpower; lra.
  - destruct (Rlt_dec (Rpower 15 1.2) 26) as [H|H]; [exact H|exfalso].
    apply Rnot_lt_le in H.
    assert (H5 : 26 ^ 5 <= Rpower 15 1.2 ^ 5) by (apply pow_incr; lra).
    assert (E : Rpower 15 1.2 ^ 5 = 15 ^ 6).
    { rewrite <- (Rpower_pow 5) by (unfold Rpower; apply exp_pos).
      rewrite Rpower_mult.
      replace (1.2 * INR 5) with (INR 6) by (simpl; lra).
      apply Rpower_pow. lra. }
    rewrite E in H5. lra.
Qed.

Lemma Math_pow_range (y : R) :
  0 <= y < 15 -> 0 <= Math_pow y 1.2 < Rpower 15 1.2.
Proof.
  intros [H0 H1]. unfold Math_pow.
  pose proof Rpower_15_bound.
  destruct (bool_decide (y = 0)) eqn:E.
  - lra.
  - apply bool_decide_eq_false in E.
    split.
    + unfold Rpower. left. apply exp_pos.
    + apply Rlt_Rpower_l; lra.
Qed.

(** X10: the pseudo-random source of the generator and the noise of the
    terrain are fractional parts, so their values lie between 0 and 1, and a
    point is on a road or off it: [getRoadInfluence] is 0 or 1. *)
Theorem noise_in_unit_interval (x z s : R) :
  0 <= seededRandom s <= 1 /\
  0 <= noise x z s <= 1 /\
  (getRoadInfluence x z s = 0 \/ getRoadInfluence x z s = 1).
Proof.
  pose proof (seededRandom_range s). pose proof (noise_range x z s).
  split; [lra|]. split; [lra|].
  unfold getRoadInfluence. cbv zeta. destruct (ltb _ _); auto.
Qed.

Lemma getTerrainHeight_range (x z s : R) : 0 <= getTerrainHeight x z s < 26.
Proof.
  cut (0 <= getTerrainHeight x z s < Rpower 15 1.2).
  { pose proof Rpower_15_bound. lra. }
  unfold getTerrainHeight. cbv zeta.
  pose proof (smoothNoise_range (x * 0.02) (z * 0.02) s) as H1.
  pose proof (smoothNoise_range (x * 0.02 * 2) (z * 0.02 * 2) s) as H2.
  set (n1 := smoothNoise (x * 0.02) (z * 0.02) s) in *.
  set (n2 := smoothNoise (x * 0.02 * 2) (z * 0.02 * 2) s) in *.
  assert (Hy : 0 <= 0 + n1 * 10 + n2 * (10 / 2) < 15) by lra.
  rewrite Rabs_right by lra.
  pose proof (Math_pow_range _ Hy) as Hp.
  pose proof Rpower_15_bound.
  destruct (gtb _ 0); lra.
Qed.

(** X11: the height of the terrain is never negative and stays below 26, on a
    road and off it; off a road it is the sum of the two octaves of noise,
    which is below 15, raised to the power 1.2. *)
Theorem terrain_height_range (x z s : R) :
  0 <= getTerrainHeight x z s < 26 /\
  (getRoadInfluence x z s = 0 ->
   getTerrainHeight x z s < Rpower 15 1.2 /\ 15 <= Rpower 15 1.2 < 26).
Proof.
  split; [apply getTerrainHeight_range|].
  intros Hroad. split; [|apply Rpower_15_bound].
  unfold getTerrainHeight. cbv zeta. rewrite Hroad.
  rewrite (proj2 (gtb_false 0 0)) by lra.
  pose proof (smoothNoise_range (x * 0.02) (z * 0.02) s) as H1.
  pose proof (smoothNoise_range (x * 0.02 * 2) (z * 0.02 * 2) s) as H2.
  set (n1 := smoothNoise (x * 0.02) (z * 0.02) s) in *.
  set (n2 := smoothNoise (x * 0.02 * 2) (z * 0.02 * 2) s) in *.
  assert (Hy : 0 <= 0 + n1 * 10 + n2 * (10 / 2) < 15) by lra.
  rewrite Rabs_right by lra.
  apply (Math_pow_range _ Hy).
Qed.
(** X12: after the movement block the camera is at eye height above the
    terrain under it: within 0.1 of [PLAYER_HEIGHT] above the ground, exactly
    [PLAYER_HEIGHT] above it in a frame that asks for no movement, and so
    never below the terrain. *)
Theorem camera_rides_the_terrain (camera : Vector3) (obstacles : list Obstacle) (seed : R)
    (i : MoveInput) :
  let camera' := movePlayer camera obstacles seed i in
  let ground := getTerrainHeight (v_x camera') (v_z camera') seed in
  ground + PLAYER_HEIGHT - 0.1 <= v_y camera' <= ground + PLAYER_HEIGHT + 0.1 /\
  (moveVector i = mkVector3 0 0 0 -> v_y camera' = ground + PLAYER_HEIGHT) /\
  1.6 <= v_y camera' < 27.8.
Proof.
  cbv zeta. unfold movePlayer. cbv zeta. cbn [v_x v_y v_z].
  set (stepped := if negb _ then _ else _).
  pose proof (getTerrainHeight_range (v_x stepped) (v_z stepped) seed) as Hg.
  set (ground := getTerrainHeight (v_x stepped) (v_z stepped) seed) in *.
  pose proof (SIN_bound (mv_time i * 0.015)) as [Hs1 Hs2].
  unfold PLAYER_HEIGHT. split_and!.
  - destruct (gtb _ 0); lra.
  - destruct (gtb _ 0); lra.
  - intros Hm. rewrite Hm. unfold v_length, lengthSq, v_dot. simpl.
    replace (0 * 0 + 0 * 0 + 0 * 0) with 0 by ring. rewrite sqrt_0.
    rewrite (proj2 (gtb_false 0 0)) by lra. lra.
  - destruct (gtb _ 0); lra.
  - destruct (gtb _ 0); lra.
Qed.

(** * Streaming of the final variant *)

Lemma loadStep_fold_loaded (worldSeed : R) (coords : list (Z * Z))
    (acc : gset string * list Obstacle * bool) :
  (forall c, c ∈ coords -> chunkKey c.1 c.2 ∈ acc.1.1) ->
  fold_left (loadStep worldSeed) coords acc = acc.
Proof.
  induction coords as [|c coords IH]; intros Hin; simpl; [reflexivity|].
  destruct acc as [[loaded newObs] hasNew]. simpl in *.
  rewrite bool_decide_eq_true_2 by (apply Hin, elem_of_cons; left; reflexivity).
  apply IH. intros c' Hc'. apply Hin, elem_of_cons. right. exact Hc'.
Qed.

Lemma worldGenFrame_idle (w : World) (camera : Vector3) :
  isPlaying (gameState w) = false -> worldGenFrame w camera = w.
Proof. intros Hp. unfold worldGenFrame. rewrite Hp. reflexivity. Qed.

(** An update that finds every active key loaded changes nothing. *)
Lemma worldGenFrame_loaded (w : World) (camera : Vector3) :
  (forall c, c ∈ activeCoords (chunkOf (v_x camera)) (chunkOf (v_z camera)) ->
             chunkKey c.1 c.2 ∈ loadedChunks w) ->
  worldGenFrame w camera = w.
Proof.
  intros Hin. destruct (isPlaying (gameState w)) eqn:Hp;
    [|apply worldGenFrame_idle, Hp].
  unfold worldGenFrame. rewrite Hp. cbn [negb].
  rewrite loadStep_fold_loaded by exact Hin.
  destruct w; reflexivity.
Qed.

(** X13: a chunk is generated once.  A streaming update that finds every
    active key loaded changes nothing, so a second update from the same
    chunk leaves the session as the first one left it. *)
Theorem streaming_is_idempotent (w : World) (camera camera' : Vector3) :
  chunkOf (v_x camera') = chunkOf (v_x camera) ->
  chunkOf (v_z camera') = chunkOf (v_z camera) ->
  worldGenFrame (worldGenFrame w camera) camera' = worldGenFrame w camera.
Proof.
  intros Hx Hz.
  destruct (isPlaying (gameState w)) eqn:Hp.
  2:{ rewrite (worldGenFrame_idle w camera Hp). apply worldGenFrame_idle, Hp. }
  destruct (worldGenFrame_appends w camera Hp) as (newObs & _ & Hloaded).
  apply worldGenFrame_loaded. rewrite Hx, Hz, Hloaded.
  intros c Hc. apply elem_of_union. right. unfold activeKeys.
  apply elem_of_list_to_set.
  apply (list_elem_of_fmap_2 (fun c => chunkKey c.1 c.2)). exact Hc.
Qed.

Lemma streaming_is_idempotent_witness :
  worldGenFrame (worldGenFrame roamed (mkVector3 0 1.7 0)) (mkVector3 0 1.7 0)
  = worldGenFrame roamed (mkVector3 0 1.7 0).
Proof.
  exact (streaming_is_idempotent roamed (mkVector3 0 1.7 0) (mkVector3 0 1.7 0)
           eq_refl eq_refl).
Defined.

(** * Collision and the radius of the body *)

Lemma blocksAt_mono (position : Vector3) (r r' : R) (obs : Obstacle) :
  0 <= r <= r' -> blocksAt position r obs = true -> blocksAt position r' obs = true.
Proof.
  intros Hr. rewrite !blocksAt_spec. intros [Hcut Hin]. split; [exact Hcut|].
  unfold inFootprint in *. cbv zeta in *.
  destruct (o_type obs), (o_dims obs); try (destruct Hin as [Hpos Hd]; split; [exact Hpos|nra]).
  destruct Hin as [H1 H2]. split; lra.
Qed.

(** X14: a wider body collides wherever a narrower one does; where the
    player (radius 0.5) can stand, an actor (radius 0.2) can. *)
Theorem collision_grows_with_radius (position : Vector3) (obstacles : list Obstacle)
    (r r' : R) :
  0 <= r <= r' ->
  (checkCollision position obstacles r = true ->
   checkCollision position obstacles r' = true) /\
  (checkCollision position obstacles r' = false ->
   checkCollision position obstacles r = false).
Proof.
  intros Hr.
  assert (Hup : checkCollision position obstacles r = true ->
                checkCollision position obstacles r' = true).
  { rewrite !checkCollision_exists. intros (obs & Hin & Hb).
    exists obs. split; [exact Hin|]. eapply blocksAt_mono; eassumption. }
  split; [exact Hup|].
  intros Hfree. destruct (checkCollision position obstacles r); [|reflexivity].
  rewrite Hup in Hfree; [discriminate|reflexivity].
Qed.

Lemma collision_grows_with_radius_witness :
  0 <= 0.2 <= 0.5 /\
  (checkCollision (mkVector3 30 0 30) marketPlace 0.2 = true ->
   checkCollision (mkVector3 30 0 30) marketPlace 0.5 = true) /\
  (checkCollision (mkVector3 30 0 30) marketPlace 0.5 = false ->
   checkCollision (mkVector3 30 0 30) marketPlace 0.2 = false).
Proof.
  assert (H : 0 <= 0.2 <= 0.5) by lra.
  split; [exact H|].
  exact (collision_grows_with_radius (mkVector3 30 0 30) marketPlace 0.2 0.5 H).
Defined.

(** * Where the generator puts the obstacles *)

(** A planar offset turned about the anchor stays as long as it was. *)
Lemma rot_bound (a b r m : R) :
  a * a + b * b <= m * m -> 0 <= m ->
  Rabs (a * cos r - b * sin r) <= m /\ Rabs (a * sin r + b * cos r) <= m.
Proof.
  intros Hab Hm.
  pose proof (sin2_cos2 r) as Hsc. unfold Rsqr in Hsc.
  set (c := cos r) in *. set (s := sin r) in *.
  assert (E : (a * c - b * s) * (a * c - b * s) + (a * s + b * c) * (a * s + b * c)
              = a * a + b * b).
  { replace ((a * c - b * s) * (a * c - b * s) + (a * s + b * c) * (a * s + b * c))
      with ((a * a + b * b) * (s * s + c * c)) by ring.
    rewrite Hsc. ring. }
  set (X := a * c - b * s) in *. set (Y := a * s + b * c) in *.
  split; apply Rabs_le; split; nra.
Qed.

Ltac near_anchor :=
  unfold nearPoint; simpl; split;
  match goal with
  | |- Rabs (?x + (?a * cos ?r - ?b * sin ?r) - ?x) <= _ =>
      replace (x + (a * cos r - b * sin r) - x) with (a * cos r - b * sin r) by ring;
      apply (rot_bound a b r 5); lra
  | |- Rabs (?z + (?a * sin ?r + ?b * cos ?r) - ?z) <= _ =>
      replace (z + (a * sin r + b * cos r) - z) with (a * sin r + b * cos r) by ring;
      apply (rot_bound a b r 5); lra
  | |- Rabs (?x + ?a * cos ?r - ?b * sin ?r - ?x) <= _ =>
      replace (x + a * cos r - b * sin r - x) with (a * cos r - b * sin r) by ring;
      apply (rot_bound a b r 5); lra
  | |- Rabs (?z + ?a * sin ?r + ?b * cos ?r - ?z) <= _ =>
      replace (z + a * sin r + b * cos r - z) with (a * sin r + b * cos r) by ring;
      apply (rot_bound a b r 5); lra
  | |- _ => apply Rabs_le; lra
  end.

(** Every part of a building stands within 5 units of its anchor. *)
Lemma generateBuilding_near (type : BuildingType) (x z y rotation : R) (idPrefix : string) :
  Forall (nearPoint x z 5) (generateBuilding type x z y rotation idPrefix).
Proof.
  destruct type; simpl;
    repeat first [apply List.Forall_nil | apply List.Forall_cons; [near_anchor|]].
Qed.
Lemma chunkOf_inside (c : Z) (p : R) :
  IZR c * CHUNK_SIZE <= p < IZR c * CHUNK_SIZE + CHUNK_SIZE -> chunkOf p = c.
Proof.
  unfold chunkOf, CHUNK_SIZE. intros [H1 H2]. apply floorZ_eq. lra.
Qed.

Lemma Rabs_le_between (a b : R) : Rabs a <= b -> - b <= a <= b.
Proof. unfold Rabs. destruct (Rcase_abs a); lra. Qed.

Lemma insideChunk_near (cx cz : Z) (x z m : R) (obs : Obstacle) :
  IZR cx * CHUNK_SIZE + m <= x < IZR cx * CHUNK_SIZE + CHUNK_SIZE - m ->
  IZR cz * CHUNK_SIZE + m <= z < IZR cz * CHUNK_SIZE + CHUNK_SIZE - m ->
  nearPoint x z m obs -> insideChunk cx cz obs.
Proof.
  intros Hx Hz [Hnx Hnz]. apply Rabs_le_between in Hnx, Hnz.
  split; apply chunkOf_inside; lra.
Qed.

(** X15: every obstacle [generateChunk] emits for a chunk stands inside the
    square of that chunk. *)
Theorem obstacles_stand_in_their_chunk (cx cz : Z) (S : R) :
  Forall (insideChunk cx cz) (generateChunk cx cz S).
Proof.
  unfold generateChunk. lazy zeta.
  apply Forall_app. split.
  - destruct (gtb _ _); [|constructor].
    apply Forall_app. split; [|apply Forall_app; split].
    + destruct (eqb _ 0); [|constructor].
      eapply Forall_impl; [apply generateBuilding_near|].
      intros o. apply insideChunk_near; unfold CHUNK_SIZE; lra.
    + apply forRange_Forall. intros i.
      destruct (gtb _ 0); [constructor|].
      eapply Forall_impl; [apply generateBuilding_near|].
      intros o.
      match goal with
      | |- nearPoint (_ + cos ?a * (15 + seededRandom ?r * 10)) _ _ _ -> _ =>
          pose proof (COS_bound a) as [Hc1 Hc2];
          pose proof (SIN_bound a) as [Hs1 Hs2];
          pose proof (seededRandom_range r) as [Hr1 Hr2];
          set (ca := cos a) in *; set (sa := sin a) in *;
          set (rd := seededRandom r) in *
      end.
      apply insideChunk_near; unfold CHUNK_SIZE; split; nra.
    + destruct (gtb _ 0.5); [|apply List.Forall_nil].
      apply List.Forall_cons; [|apply List.Forall_nil].
      split; simpl; apply chunkOf_inside; unfold CHUNK_SIZE; lra.
  - apply forRange_Forall. intros i.
    destruct (gtb _ 0); [apply List.Forall_nil|].
    apply List.Forall_cons; [|apply List.Forall_nil].
    split; simpl; apply chunkOf_inside;
      match goal with
      | |- _ <= _ + (seededRandom ?r * _ - _) + _ < _ =>
          pose proof (seededRandom_range r); unfold CHUNK_SIZE; lra
      end.
Qed.

Lemma off_road (x z S : R) :
  gtb (getRoadInfluence x z S) 0 = false -> getRoadInfluence x z S = 0.
Proof.
  intros H. apply gtb_false in H.
  unfold getRoadInfluence in *. cbv zeta in *. destruct (ltb _ _); lra.
Qed.

(** The roof of a cottage or tower and the counter of a market stand at the
    anchor of the building, the counter at its height. *)
Lemma generateBuilding_anchor (type : BuildingType) (x z y rotation : R) (idPrefix : string) :
  Forall (fun o =>
            o_type o <> tree /\ o_type o <> well /\
            (o_type o = roof \/ o_type o = shop_table ->
             v_x (o_position o) = x /\ v_z (o_position o) = z) /\
            (o_type o = shop_table -> v_y (o_position o) = y))
         (generateBuilding type x z y rotation idPrefix).
Proof.
  destruct type; simpl;
    repeat first
      [ apply List.Forall_nil
      | apply List.Forall_cons;
        [ simpl; split_and!;
          first [ discriminate
                | intros [?|?]; discriminate
                | intros; split; reflexivity
                | intros; reflexivity ]
        | ] ].
Qed.

Lemma building_wellPlaced (S : R) (type : BuildingType) (x z rotation : R)
    (idPrefix : string) :
  getRoadInfluence x z S = 0 ->
  Forall (wellPlaced S)
         (generateBuilding type x z (getTerrainHeight x z S) rotation idPrefix).
Proof.
  intros Hroad. eapply Forall_impl; [apply generateBuilding_anchor|].
  intros o (Ht & Hw & Hxz & Hy). unfold wellPlaced, grounded, offRoad. split.
  - intros [H|[H|H]]; [contradiction..|].
    destruct (Hxz (or_intror H)) as [-> ->]. apply Hy, H.
  - intros [H|[H|H]]; [contradiction| |].
    + destruct (Hxz (or_introl H)) as [-> ->]. exact Hroad.
    + destruct (Hxz (or_intror H)) as [-> ->]. exact Hroad.
Qed.

(** X16: trees, wells and shop counters sit on the surface of the terrain,
    and no tree, no shop counter and no cottage or tower (its roof marks its
    anchor) is placed on a road. *)
Theorem nothing_grows_on_the_road (cx cz : Z) (S : R) :
  Forall (wellPlaced S) (generateChunk cx cz S).
Proof.
  unfold generateChunk. lazy zeta.
  apply Forall_app. split.
  - destruct (gtb _ _); [|constructor].
    apply Forall_app. split; [|apply Forall_app; split].
    + destruct (eqb _ 0) eqn:E; [|constructor].
      apply eqb_true in E. apply building_wellPlaced. exact E.
    + apply forRange_Forall. intros i.
      destruct (gtb _ 0) eqn:E; [constructor|].
      apply building_wellPlaced, off_road, E.
    + destruct (gtb _ 0.5); [|apply List.Forall_nil].
      apply List.Forall_cons; [|apply List.Forall_nil].
      split; unfold grounded, offRoad; simpl.
      * reflexivity.
      * intros [H|[H|H]]; discriminate.
  - apply forRange_Forall. intros i.
    destruct (gtb _ 0) eqn:E; [apply List.Forall_nil|].
    apply List.Forall_cons; [|apply List.Forall_nil].
    split; unfold grounded, offRoad; simpl.
    + reflexivity.
    + intros _. apply off_road, E.
Qed.

(** * How many obstacles a chunk holds *)

Lemma flat_map_length_le {A B : Type} (f : A -> list B) (l : list A) (m : nat) :
  (forall a, (length (f a) <= m)%nat) -> (length (flat_map f l) <= length l * m)%nat.
Proof.
  intros Hf. induction l as [|a l IH]; simpl; [lia|].
  rewrite length_app. specialize (Hf a). lia.
Qed.

Lemma forRange_length (n : nat) (body : Z -> list Obstacle) (m : nat) :
  (forall i, (length (body i) <= m)%nat) -> (length (forRange n body) <= n * m)%nat.
Proof.
  intros Hbody. unfold forRange.
  pose proof (flat_map_length_le body (map Z.of_nat (seq 0 n)) m Hbody) as H.
  rewrite length_map, length_seq in H. exact H.
Qed.

Lemma floorZ_range (r : R) (a b : Z) : IZR a <= r < IZR b -> (a <= floorZ r < b)%Z.
Proof.
  intros [H1 H2]. unfold floorZ. destruct (base_Int_part r) as [H3 H4].
  split.
  - apply Z.lt_succ_r. apply lt_IZR. rewrite succ_IZR. lra.
  - apply lt_IZR. lra.
Qed.

Lemma generateBuilding_length (type : BuildingType) (x z y rotation : R) (idPrefix : string) :
  (length (generateBuilding type x z y rotation idPrefix) <= 6)%nat.
Proof. destruct type; simpl; lia. Qed.

(** X17: a chunk holds at most 39 obstacles, and a chunk that is no village
    holds only trees, at most 11 of them. *)
Theorem chunk_size_is_bounded (cx cz : Z) (S : R) :
  (length (generateChunk cx cz S) <= 39)%nat /\
  (isVillage cx cz S = false ->
   (length (generateChunk cx cz S) <= 11)%nat /\
   Forall (fun o => o_type o = tree) (generateChunk cx cz S)).
Proof.
  unfold isVillage, generateChunk. lazy zeta.
  assert (Hh : (Z.to_nat (3 + floorZ (seededRandom (IZR (chunkSeedOf cx cz S + 888)) * 3))
                <= 5)%nat).
  { pose proof (seededRandom_range (IZR (chunkSeedOf cx cz S + 888))) as Hr.
    assert (0 <= floorZ (seededRandom (IZR (chunkSeedOf cx cz S + 888)) * 3) < 3)%Z
      by (apply floorZ_range; simpl; lra).
    lia. }
  assert (Ht : (Z.to_nat (floorZ (seededRandom (IZR (chunkSeedOf cx cz S + 1)) * 10) + 2)
                <= 11)%nat).
  { pose proof (seededRandom_range (IZR (chunkSeedOf cx cz S + 1))) as Hr.
    assert (0 <= floorZ (seededRandom (IZR (chunkSeedOf cx cz S + 1)) * 10) < 10)%Z
      by (apply floorZ_range; simpl; lra).
    lia. }
  assert (Htree : forall n body,
             (forall i, (length (body i) <= 1)%nat) -> (length (forRange n body) <= n)%nat).
  { intros n body Hb. pose proof (forRange_length n body 1 Hb). lia. }
  match goal with
  | |- context [gtb (seededRandom ?a) (if ?b then 0.6 else 0.96)] =>
      destruct (gtb (seededRandom a) (if b then 0.6 else 0.96)) eqn:Hv
  end.
  - split; [|discriminate].
    rewrite !length_app.
    match goal with
    | |- (length ?shop + (length (forRange ?n ?body) + length ?w)
          + length (forRange ?k ?tb) <= _)%nat =>
        assert (length shop <= 6)%nat
          by (destruct (eqb _ 0); [apply generateBuilding_length | simpl; lia]);
        assert (length (forRange n body) <= n * 6)%nat
          by (apply forRange_length; intros i;
              match goal with |- context [if ?b then [] else _] => destruct b end;
              [simpl; lia | apply generateBuilding_length]);
        assert (length w <= 1)%nat by (destruct (gtb _ 0.5); simpl; lia);
        assert (length (forRange k tb) <= k)%nat
          by (apply Htree; intros i;
              match goal with |- context [if ?b then [] else _] => destruct b end;
              simpl; lia)
    end.
    lia.
  - rewrite app_nil_l.
    match goal with
    | |- (length (forRange ?n ?tb) <= _)%nat /\ _ =>
        assert (length (forRange n tb) <= n)%nat
          by (apply Htree; intros i;
              match goal with |- context [if ?b then [] else _] => destruct b end;
              simpl; lia)
    end.
    split; [lia|]. intros _. split; [lia|].
    apply forRange_Forall. intros i.
    match goal with |- context [if ?b then [] else _] => destruct b end;
      [apply List.Forall_nil|].
    apply List.Forall_cons; [reflexivity | apply List.Forall_nil].
Qed.
(** * The walls of a cottage *)

Section Frame.

Variables (x z rotation : R).

(** A wall placed at [(a, b)] in the frame of a building and turned by
    [rho] in it blocks the point at [(t, u)] of the frame exactly when the
    offset, turned back by [rho], is within the half extents grown by the
    radius of the body. *)
Lemma wall_in_frame (obs : Obstacle) (dims : Dims) (a b rho h t u radius : R) :
  o_type obs = wall -> o_dims obs = Some dims ->
  v_x (o_position obs) = x + (a * cos rotation - b * sin rotation) ->
  v_z (o_position obs) = z + (a * sin rotation + b * cos rotation) ->
  o_rotation obs = rotation + rho ->
  let lx := (t - a) * cos rho + (u - b) * sin rho in
  let lz := (u - b) * cos rho - (t - a) * sin rho in
  (blocksAt (inFrame x z h rotation t u) radius obs = true ->
   Rabs lx < d_w dims / 2 + radius /\ Rabs lz < d_d dims / 2 + radius) /\
  ((t - a) * (t - a) + (u - b) * (u - b) <= 225 ->
   Rabs lx < d_w dims / 2 + radius -> Rabs lz < d_d dims / 2 + radius ->
   blocksAt (inFrame x z h rotation t u) radius obs = true).
Proof.
  intros Ht Hd Hx Hz Hr. cbv zeta.
  pose proof (sin2_cos2 rotation) as Hsc. unfold Rsqr in Hsc.
  assert (Elx : offsetX (inFrame x z h rotation t u) obs * cos (- o_rotation obs)
                - offsetZ (inFrame x z h rotation t u) obs * sin (- o_rotation obs)
                = (t - a) * cos rho + (u - b) * sin rho).
  { unfold offsetX, offsetZ, inFrame. simpl. rewrite Hx, Hz, Hr.
    rewrite cos_neg, sin_neg, cos_plus, sin_plus.
    set (c := cos rotation) in *. set (s := sin rotation) in *.
    replace ((x + (t * c - u * s) - (x + (a * c - b * s))) * (c * cos rho - s * sin rho)
             - (z + (t * s + u * c) - (z + (a * s + b * c))) * - (s * cos rho + c * sin rho))
      with (((t - a) * cos rho + (u - b) * sin rho) * (s * s + c * c)) by ring.
    rewrite Hsc. ring. }
  assert (Elz : offsetX (inFrame x z h rotation t u) obs * sin (- o_rotation obs)
                + offsetZ (inFrame x z h rotation t u) obs * cos (- o_rotation obs)
                = (u - b) * cos rho - (t - a) * sin rho).
  { unfold offsetX, offsetZ, inFrame. simpl. rewrite Hx, Hz, Hr.
    rewrite cos_neg, sin_neg, cos_plus, sin_plus.
    set (c := cos rotation) in *. set (s := sin rotation) in *.
    replace ((x + (t * c - u * s) - (x + (a * c - b * s))) * - (s * cos rho + c * sin rho)
             + (z + (t * s + u * c) - (z + (a * s + b * c))) * (c * cos rho - s * sin rho))
      with (((u - b) * cos rho - (t - a) * sin rho) * (s * s + c * c)) by ring.
    rewrite Hsc. ring. }
  split.
  - intros Hb. apply blocksAt_spec in Hb as [_ Hin].
    unfold inFootprint in Hin. rewrite Ht, Hd in Hin. cbv zeta in Hin.
    rewrite Elx, Elz in Hin. exact Hin.
  - intros Hnear H1 H2. apply blocksAt_spec. split.
    + unfold insideCutoff, offsetX, offsetZ, inFrame. simpl. rewrite Hx, Hz.
      replace (x + (t * cos rotation - u * sin rotation)
               - (x + (a * cos rotation - b * sin rotation)))
        with ((t - a) * cos rotation - (u - b) * sin rotation) by ring.
      replace (z + (t * sin rotation + u * cos rotation)
               - (z + (a * sin rotation + b * cos rotation)))
        with ((t - a) * sin rotation + (u - b) * cos rotation) by ring.
      apply rot_bound; lra.
    + unfold inFootprint. rewrite Ht, Hd. cbv zeta. rewrite Elx, Elz. auto.
Qed.

End Frame.

Lemma checkCollision_cons (position : Vector3) (obs : Obstacle) (rest : list Obstacle)
    (radius : R) :
  checkCollision position (obs :: rest) radius
  = blocksAt position radius obs || checkCollision position rest radius.
Proof. simpl. destruct (blocksAt position radius obs); reflexivity. Qed.

Ltac wall_iff W :=
  split;
  [ let Hb := fresh "Hb" in
    intros Hb; apply (proj1 W) in Hb as [H1 H2];
    rewrite ?cos_0, ?sin_0, ?cos_PI2, ?sin_PI2 in H1, H2;
    simpl in H1, H2; apply Rabs_def2 in H1, H2; split; apply Rabs_def1; lra
  | intros [H1 H2]; apply Rabs_def2 in H1, H2; apply (proj2 W);
    [ nra
    | rewrite ?cos_0, ?sin_0, ?cos_PI2, ?sin_PI2; simpl; apply Rabs_def1; lra
    | rewrite ?cos_0, ?sin_0, ?cos_PI2, ?sin_PI2; simpl; apply Rabs_def1; lra ] ].

(** X18: the ground a cottage takes from a body of radius 0.5 is that of its
    five walls: the back and the two sides are closed, the front is open
    over the width of the door, and the inside is free. *)
Theorem cottage_has_a_door (x z y rotation : R) (idPrefix : string) (h t u : R) :
  let house := generateBuilding cottage x z y rotation idPrefix in
  let here := inFrame x z h rotation t u in
  (checkCollision here house 0.5 = true <-> cottageWalls t u) /\
  (Rabs t <= 1 -> -3 <= u -> checkCollision here house 0.5 = false) /\
  (Rabs t <= 3 -> Rabs u <= 3 -> checkCollision here house 0.5 = false).
Proof.
  cbv zeta.
  assert (Hiff : checkCollision (inFrame x z h rotation t u)
                   (generateBuilding cottage x z y rotation idPrefix) 0.5 = true
                 <-> cottageWalls t u).
  { unfold generateBuilding. simpl map. cbv zeta. cbn [app].
    match goal with
    | |- checkCollision _ [?o1; ?o2; ?o3; ?o4; ?o5; ?o6] _ = true <-> _ =>
        pose proof (wall_in_frame x z rotation o1 _ 0 (-4) 0 h t u 0.5 eq_refl eq_refl
                      ltac:(simpl; lra) ltac:(simpl; lra) ltac:(simpl; lra)) as W1;
        pose proof (wall_in_frame x z rotation o2 _ (-4) 0 (PI / 2) h t u 0.5 eq_refl eq_refl
                      ltac:(simpl; lra) ltac:(simpl; lra) ltac:(simpl; lra)) as W2;
        pose proof (wall_in_frame x z rotation o3 _ 4 0 (PI / 2) h t u 0.5 eq_refl eq_refl
                      ltac:(simpl; lra) ltac:(simpl; lra) ltac:(simpl; lra)) as W3;
        pose proof (wall_in_frame x z rotation o4 _ (-2.75) 4 0 h t u 0.5 eq_refl eq_refl
                      ltac:(simpl; lra) ltac:(simpl; lra) ltac:(simpl; lra)) as W4;
        pose proof (wall_in_frame x z rotation o5 _ 2.75 4 0 h t u 0.5 eq_refl eq_refl
                      ltac:(simpl; lra) ltac:(simpl; lra) ltac:(simpl; lra)) as W5;
        assert (B6 : blocksAt (inFrame x z h rotation t u) 0.5 o6 = false)
          by (apply zeroRadiusNonWall_blocksAt; split; [discriminate | reflexivity]);
        set (w1 := o1) in *; set (w2 := o2) in *; set (w3 := o3) in *;
        set (w4 := o4) in *; set (w5 := o5) in *; set (w6 := o6) in *
    end.
    cbv zeta in W1, W2, W3, W4, W5.
    assert (B1 : blocksAt (inFrame x z h rotation t u) 0.5 w1 = true
                 <-> Rabs t < 4.5 /\ Rabs (u + 4) < 1) by wall_iff W1.
    assert (B2 : blocksAt (inFrame x z h rotation t u) 0.5 w2 = true
                 <-> Rabs (t + 4) < 1 /\ Rabs u < 4.5) by wall_iff W2.
    assert (B3 : blocksAt (inFrame x z h rotation t u) 0.5 w3 = true
                 <-> Rabs (t - 4) < 1 /\ Rabs u < 4.5) by wall_iff W3.
    assert (B4 : blocksAt (inFrame x z h rotation t u) 0.5 w4 = true
                 <-> Rabs (t + 2.75) < 1.75 /\ Rabs (u - 4) < 1) by wall_iff W4.
    assert (B5 : blocksAt (inFrame x z h rotation t u) 0.5 w5 = true
                 <-> Rabs (t - 2.75) < 1.75 /\ Rabs (u - 4) < 1) by wall_iff W5.
    rewrite !checkCollision_cons, B6. simpl checkCollision.
    rewrite !orb_false_r, !orb_true_iff, B1, B2, B3, B4, B5.
    unfold cottageWalls. tauto. }
  split; [exact Hiff|].
  assert (Hfree : ~ cottageWalls t u ->
                  checkCollision (inFrame x z h rotation t u)
                    (generateBuilding cottage x z y rotation idPrefix) 0.5 = false).
  { intros Hn. apply not_true_is_false. intros Hc. apply Hn, Hiff, Hc. }
  split.
  - intros Ht Hu. apply Hfree. apply Rabs_le_between in Ht.
    unfold cottageWalls.
    intros [[H1 H2]|[[H1 H2]|[[H1 H2]|[[H1 H2]|[H1 H2]]]]];
      apply Rabs_def2 in H1, H2; lra.
  - intros Ht Hu. apply Hfree. apply Rabs_le_between in Ht, Hu.
    unfold cottageWalls.
    intros [[H1 H2]|[[H1 H2]|[[H1 H2]|[[H1 H2]|[H1 H2]]]]];
      apply Rabs_def2 in H1, H2; lra.
Qed.
(** X19: a tower has no door and a market cannot be entered.  The four
    walls of a tower close a ring around it, whatever way it is turned, and
    leave its inside free; the roof of a market is a wall of 6 by 6 for the
    collision test, so a body of radius 0.5 is kept out of the square of
    side 7 about the counter. *)
Theorem tower_and_market_are_closed (x z y rotation : R) (idPrefix : string) (h t u : R) :
  let keep := generateBuilding tower x z y rotation idPrefix in
  let stall := generateBuilding market x z y rotation idPrefix in
  (checkCollision (inFrame x z h rotation t u) keep 0.5 = true <-> towerWalls t u) /\
  (1.5 < Rmax (Rabs t) (Rabs u) < 3 ->
   checkCollision (inFrame x z h rotation t u) keep 0.5 = true) /\
  (Rmax (Rabs t) (Rabs u) <= 1.5 ->
   checkCollision (inFrame x z h rotation t u) keep 0.5 = false) /\
  (Rabs t < 3.5 -> Rabs u < 3.5 ->
   checkCollision (mkVector3 (x + t) h (z + u)) stall 0.5 = true).
Proof.
  cbv zeta.
  assert (Hiff : checkCollision (inFrame x z h rotation t u)
                   (generateBuilding tower x z y rotation idPrefix) 0.5 = true
                 <-> towerWalls t u).
  { unfold generateBuilding. simpl map. cbv zeta. cbn [app].
    match goal with
    | |- checkCollision _ [?o1; ?o2; ?o3; ?o4; ?o5] _ = true <-> _ =>
        pose proof (wall_in_frame x z rotation o1 _ 0 (-2.5) 0 h t u 0.5 eq_refl eq_refl
                      ltac:(simpl; lra) ltac:(simpl; lra) ltac:(simpl; lra)) as W1;
        pose proof (wall_in_frame x z rotation o2 _ 0 2.5 0 h t u 0.5 eq_refl eq_refl
                      ltac:(simpl; lra) ltac:(simpl; lra) ltac:(simpl; lra)) as W2;
        pose proof (wall_in_frame x z rotation o3 _ (-2.5) 0 (PI / 2) h t u 0.5 eq_refl eq_refl
                      ltac:(simpl; lra) ltac:(simpl; lra) ltac:(simpl; lra)) as W3;
        pose proof (wall_in_frame x z rotation o4 _ 2.5 0 (PI / 2) h t u 0.5 eq_refl eq_refl
                      ltac:(simpl; lra) ltac:(simpl; lra) ltac:(simpl; lra)) as W4;
        assert (B5 : blocksAt (inFrame x z h rotation t u) 0.5 o5 = false)
          by (apply zeroRadiusNonWall_blocksAt; split; [discriminate | reflexivity]);
        set (w1 := o1) in *; set (w2 := o2) in *; set (w3 := o3) in *;
        set (w4 := o4) in *; set (w5 := o5) in *
    end.
    cbv zeta in W1, W2, W3, W4.
    assert (B1 : blocksAt (inFrame x z h rotation t u) 0.5 w1 = true
                 <-> Rabs t < 3 /\ Rabs (u + 2.5) < 1) by wall_iff W1.
    assert (B2 : blocksAt (inFrame x z h rotation t u) 0.5 w2 = true
                 <-> Rabs t < 3 /\ Rabs (u - 2.5) < 1) by wall_iff W2.
    assert (B3 : blocksAt (inFrame x z h rotation t u) 0.5 w3 = true
                 <-> Rabs (t + 2.5) < 1 /\ Rabs u < 3) by wall_iff W3.
    assert (B4 : blocksAt (inFrame x z h rotation t u) 0.5 w4 = true
                 <-> Rabs (t - 2.5) < 1 /\ Rabs u < 3) by wall_iff W4.
    rewrite !checkCollision_cons, B5. simpl checkCollision.
    rewrite !orb_false_r, !orb_true_iff, B1, B2, B3, B4.
    unfold towerWalls. tauto. }
  split; [exact Hiff|]. split_and!.
  - intros [Hlo Hhi]. apply Hiff. unfold towerWalls.
    assert (Ht : Rabs t < 3) by (eapply Rle_lt_trans; [apply Rmax_l|exact Hhi]).
    assert (Hu : Rabs u < 3) by (eapply Rle_lt_trans; [apply Rmax_r|exact Hhi]).
    unfold Rmax in Hlo. destruct (Rle_dec (Rabs t) (Rabs u)).
    + unfold Rabs in Hlo, Ht, Hu |- *.
      repeat match goal with |- context [Rcase_abs ?e] => destruct (Rcase_abs e) end;
        first [left; split; lra | right; left; split; lra].
    + unfold Rabs in Hlo, Ht, Hu |- *.
      repeat match goal with |- context [Rcase_abs ?e] => destruct (Rcase_abs e) end;
        first [right; right; left; split; lra | right; right; right; split; lra].
  - intros Hin. apply not_true_is_false. intros Hc. apply Hiff in Hc.
    assert (Ht : Rabs t <= 1.5) by (eapply Rle_trans; [apply Rmax_l|exact Hin]).
    assert (Hu : Rabs u <= 1.5) by (eapply Rle_trans; [apply Rmax_r|exact Hin]).
    apply Rabs_le_between in Ht, Hu.
    destruct Hc as [[H1 H2]|[[H1 H2]|[[H1 H2]|[H1 H2]]]];
      apply Rabs_def2 in H1, H2; lra.
  - intros Ht Hu. apply Rabs_def2 in Ht, Hu.
    apply checkCollision_exists. unfold generateBuilding. simpl map. cbv zeta.
    eexists. split.
    + apply elem_of_app. right. apply list_elem_of_here.
    + apply blocksAt_spec. unfold insideCutoff, inFootprint, offsetX, offsetZ. simpl.
      rewrite Ropp_0, cos_0, sin_0.
      replace (x + t - x) with t by ring. replace (z + u - z) with u by ring.
      split; split; first [apply Rabs_le | apply Rabs_def1]; lra.
Qed.
(** * The joystick *)

(** The angle [Math.atan2] returns points the way of its arguments. *)
Lemma atan2_direction (y x : R) :
  0 < x * x + y * y ->
  cos (Math_atan2 y x) = x / sqrt (x * x + y * y) /\
  sin (Math_atan2 y x) = y / sqrt (x * x + y * y).
Proof.
  intros Hpos.
  assert (Hs : 0 < sqrt (x * x + y * y)) by (apply sqrt_lt_R0; exact Hpos).
  pose proof (sqrt_sqrt (x * x + y * y) (Rlt_le _ _ Hpos)) as Hrr.
  set (r := sqrt (x * x + y * y)) in *.
  unfold Math_atan2.
  destruct (bool_decide (0 < x)) eqn:Hx1; [apply bool_decide_eq_true in Hx1|
    apply bool_decide_eq_false in Hx1;
    destruct (bool_decide (x < 0)) eqn:Hx2; [apply bool_decide_eq_true in Hx2|
      apply bool_decide_eq_false in Hx2]].
  - assert (E : sqrt (1 + (y / x)²) = r / x).
    { apply sqrt_lem_1.
      - unfold Rsqr. nra.
      - apply Rlt_le, Rdiv_lt_0_compat; lra.
      - replace (r / x * (r / x)) with (r * r / (x * x)) by (field; lra).
        rewrite Hrr. unfold Rsqr. field. lra. }
    rewrite cos_atan, sin_atan, E. split; field; lra.
  - assert (E : sqrt (1 + (y / x)²) = r / - x).
    { apply sqrt_lem_1.
      - unfold Rsqr. nra.
      - apply Rlt_le, Rdiv_lt_0_compat; lra.
      - replace (r / - x * (r / - x)) with (r * r / (x * x)) by (field; lra).
        rewrite Hrr. unfold Rsqr. field. lra. }
    destruct (bool_decide (0 <= y)).
    + rewrite neg_cos, neg_sin, cos_atan, sin_atan, E. split; field; lra.
    + unfold Rminus. rewrite cos_plus, sin_plus, cos_neg, sin_neg, cos_PI, sin_PI.
      rewrite cos_atan, sin_atan, E. split; field; lra.
  - assert (x = 0) by lra. subst x.
    destruct (bool_decide (0 < y)) eqn:Hy1; [apply bool_decide_eq_true in Hy1|
      apply bool_decide_eq_false in Hy1].
    + assert (Hr : r = y) by (apply Rsqr_inj; unfold Rsqr; lra).
      rewrite cos_PI2, sin_PI2, Hr. split; [unfold Rdiv; ring | field; lra].
    + assert (Hy : y < 0) by nra.
      rewrite (bool_decide_eq_true_2 (y < 0) Hy).
      assert (Hr : r = - y) by (apply Rsqr_inj; unfold Rsqr; lra).
      rewrite cos_neg, sin_neg, cos_PI2, sin_PI2, Hr.
      split; [unfold Rdiv; ring | field; lra].
Qed.

Lemma sqrt_le_sq (a m : R) : 0 <= m -> sqrt a <= m -> a <= m * m.
Proof.
  intros Hm Hs. destruct (Rle_dec a (m * m)) as [H|H]; [exact H|exfalso].
  apply Rnot_le_lt in H.
  assert (0 <= m * m) by nra.
  pose proof (sqrt_lt_1_alt (m * m) a (conj H0 H)) as Hlt.
  rewrite sqrt_square in Hlt by exact Hm. lra.
Qed.

Lemma handleMove_in_box (container : option Joystick.DOMRect) (clientX clientY : R)
    (st : Joystick.State) :
  inBox Joystick.maxRadius (Joystick.position st) ->
  inBox Joystick.maxRadius
    (Joystick.position (Joystick.handleMove container clientX clientY st).1) /\
  match (Joystick.handleMove container clientX clientY st).2 with
  | Some call => inBox 1 call
  | None => True
  end.
Proof.
  intros Hst. unfold Joystick.handleMove.
  destruct container as [rect|]; [|simpl; auto].
  cbv zeta.
  set (dx := clientX - _). set (dy := clientY - _).
  destruct (gtb (sqrt (dx * dx + dy * dy)) Joystick.maxRadius) eqn:Hg;
    unfold inBox, Joystick.maxRadius in *; simpl.
  - pose proof (COS_bound (Math_atan2 dy dx)) as [Hc1 Hc2].
    pose proof (SIN_bound (Math_atan2 dy dx)) as [Hs1 Hs2].
    set (c := cos _) in *. set (s := sin _) in *.
    replace (c * 40 / 40) with c by field.
    replace (s * 40 / 40) with s by field.
    split_and!; apply Rabs_le; lra.
  - apply gtb_false in Hg. apply sqrt_le_sq in Hg; [|lra].
    assert (Hx : -40 <= dx <= 40) by (split; nra).
    assert (Hy : -40 <= dy <= 40) by (split; nra).
    split_and!; apply Rabs_le; lra.
Qed.

Lemma handle_in_box (container : option Joystick.DOMRect) (st : Joystick.State)
    (ev : Joystick.Event) :
  inBox Joystick.maxRadius (Joystick.position st) ->
  inBox Joystick.maxRadius (Joystick.position (Joystick.handle container st ev).1) /\
  match (Joystick.handle container st ev).2 with
  | Some call => inBox 1 call
  | None => True
  end.
Proof.
  intros Hst.
  assert (Hzero : inBox Joystick.maxRadius (0, 0) /\ inBox 1 (0, 0))
    by (unfold inBox, Joystick.maxRadius; simpl; rewrite Rabs_R0; lra).
  destruct ev; simpl; unfold Joystick.handleStart, Joystick.handleEnd;
    try destruct (Joystick.active st); simpl;
    first [ apply handleMove_in_box; exact Hst | exact Hzero | auto ].
Qed.

(** X20: the joystick reports each axis within [-1, 1].  Along every run of
    mouse and touch events each coordinate of the knob stays within
    [maxRadius] of the centre and each of the two numbers handed to
    [onMove] lies in [-1, 1]. *)
Theorem joystick_reports_within_range (container : option Joystick.DOMRect)
    (st : Joystick.State) (evs : list Joystick.Event) :
  inBox Joystick.maxRadius (Joystick.position st) ->
  inBox Joystick.maxRadius (Joystick.position (Joystick.run container st evs).1) /\
  Forall (inBox 1) (Joystick.run container st evs).2.
Proof.
  revert st. induction evs as [|ev evs IH]; intros st Hst; simpl.
  - split; [exact Hst | constructor].
  - destruct (handle_in_box container st ev Hst) as [H1 H2].
    destruct (Joystick.handle container st ev) as [st' call]. simpl in H1, H2.
    destruct (IH st' H1) as [H3 H4].
    destruct (Joystick.run container st' evs) as [st'' calls]. simpl in *.
    split; [exact H3|].
    destruct call; [constructor; assumption | exact H4].
Qed.

Lemma joystick_reports_within_range_witness :
  inBox Joystick.maxRadius (Joystick.position Joystick.initial) /\
  Forall (inBox 1)
    (Joystick.run (Some pad) Joystick.initial
       [Joystick.TouchStart 300 500; Joystick.TouchMove 96 504; Joystick.TouchEnd]).2.
Proof.
  assert (H : inBox Joystick.maxRadius (Joystick.position Joystick.initial))
    by (unfold inBox, Joystick.maxRadius; simpl; rewrite Rabs_R0; lra).
  split; [exact H|].
  exact (proj2 (joystick_reports_within_range (Some pad) Joystick.initial
                  [Joystick.TouchStart 300 500; Joystick.TouchMove 96 504; Joystick.TouchEnd]
                  H)).
Defined.

(** X21: the joystick clamps the pointer to the rim and keeps its
    direction.  A pointer within [maxRadius] of the centre of the container
    is reported as its offset over [maxRadius]; one beyond it is reported
    as the unit vector of its offset, and the knob is put on the rim along
    that vector; with no container nothing is reported. *)
Theorem joystick_keeps_the_direction (rect : Joystick.DOMRect) (clientX clientY : R)
    (st : Joystick.State) :
  let off := pointerOffset rect clientX clientY in
  let d := sqrt (off.1 * off.1 + off.2 * off.2) in
  let out := Joystick.handleMove (Some rect) clientX clientY st in
  (d <= Joystick.maxRadius ->
   Joystick.position out.1 = off /\
   out.2 = Some (off.1 / Joystick.maxRadius, off.2 / Joystick.maxRadius)) /\
  (Joystick.maxRadius < d ->
   Joystick.position out.1
     = (off.1 / d * Joystick.maxRadius, off.2 / d * Joystick.maxRadius) /\
   out.2 = Some (off.1 / d, off.2 / d)) /\
  Joystick.active out.1 = Joystick.active st /\
  Joystick.handleMove None clientX clientY st = (st, None).
Proof.
  cbv zeta. unfold Joystick.handleMove, pointerOffset. cbn [fst snd].
  set (dx := clientX - _). set (dy := clientY - _).
  split_and!.
  - intros Hd. rewrite (proj2 (gtb_false _ _) Hd). simpl. auto.
  - intros Hd. rewrite (proj2 (gtb_true _ _) Hd). cbn [fst snd Joystick.position].
    assert (Hpos : 0 < dx * dx + dy * dy).
    { destruct (Rlt_dec 0 (dx * dx + dy * dy)) as [H|H]; [exact H|].
      rewrite sqrt_neg_0 in Hd by lra. unfold Joystick.maxRadius in Hd. lra. }
    destruct (atan2_direction dy dx ltac:(lra)) as [Hc Hs].
    replace (dy * dy + dx * dx) with (dx * dx + dy * dy) in * by ring.
    rewrite Hc, Hs.
    assert (sqrt (dx * dx + dy * dy) <> 0) by (unfold Joystick.maxRadius in Hd; lra).
    split; [reflexivity|]. f_equal. f_equal; unfold Joystick.maxRadius; field; assumption.
  - destruct (gtb _ _); reflexivity.
  - reflexivity.
Qed.
(** * The weapon and the bodies *)

Lemma weaponFrame_range (t : R) (isFiring isReloading : bool) (p : WeaponPose) :
  weaponInRange p -> weaponInRange (weaponFrame t isFiring isReloading p).
Proof.
  unfold weaponInRange, weaponFrame, lerp. intros (Hx & Hy & Hz & Hrx & Hrz).
  pose proof (SIN_bound (t * 2)) as [Hs1 Hs2].
  pose proof (COS_bound (t * 1.5)) as [Hc1 Hc2].
  destruct isFiring, isReloading; simpl;
    try (unfold Rmin; destruct (Rle_dec _ _)); split_and!; lra.
Qed.

(** X22: the weapon stays within the range of its sway and recoil through
    every run of frames (its depth between the rest at -0.5 and the recoil
    stop at -0.3), and a frame without fire brings it a tenth of the way
    back to rest. *)
Theorem weapon_stays_in_its_recoil_range (frames : list (R * bool * bool)) (p : WeaponPose) :
  weaponInRange p ->
  weaponInRange (weaponRun frames p) /\
  (forall t isReloading,
     wp_z (weaponFrame t false isReloading p) - -0.5 = 0.9 * (wp_z p - -0.5)).
Proof.
  intros Hp. split.
  - revert p Hp. unfold weaponRun.
    induction frames as [|f frames IH]; intros p Hp; simpl; [exact Hp|].
    apply IH, weaponFrame_range, Hp.
  - intros t isReloading. unfold weaponFrame, lerp. destruct isReloading; simpl; lra.
Qed.

Lemma weapon_stays_in_its_recoil_range_witness :
  weaponInRange weaponRest /\
  weaponInRange (weaponRun [(0.5, true, false); (0.516, true, false); (0.532, false, true)]
                   weaponRest).
Proof.
  assert (H : weaponInRange weaponRest)
    by (unfold weaponInRange, weaponRest; simpl; split_and!; lra).
  split; [exact H|].
  exact (proj1 (weapon_stays_in_its_recoil_range
                  [(0.5, true, false); (0.516, true, false); (0.532, false, true)]
                  weaponRest H)).
Defined.

(** X23: a body is never drawn below the ground.  After every frame of its
    component the body of an actor is at least 0.2 above the terrain under
    it; the body of a live actor stands at the point the hitscan tests, and
    the body of a dead actor has the flag of its fall set. *)
Theorem body_never_sinks (enemy : Enemy) (seed delta : R) (b : Body) :
  let b' := characterFrame enemy seed delta b in
  getTerrainHeight (v_x (b_position b')) (v_z (b_position b')) seed + 0.2
    <= v_y (b_position b') /\
  (e_isDead enemy = false -> b_position b' = torso seed enemy) /\
  (e_isDead enemy = true -> b_isDead b' = true).
Proof.
  cbv zeta. unfold characterFrame.
  destruct (e_isDead enemy) eqn:Hd.
  - cbv zeta.
    match goal with
    | |- context [ltb ?a ?g] => destruct (ltb a g) eqn:Hl
    end; simpl.
    + split_and!; [lra | discriminate | reflexivity].
    + apply ltb_false in Hl. split_and!; [exact Hl | discriminate | reflexivity].
  - simpl. split_and!; [|reflexivity|discriminate].
    destruct (e_type enemy); simpl; lra.
Qed.
(** * The earlier variant: the handlers of [App] *)

Lemma earlier_handleDamage_cases (amount : R) (g : EarlierGame.GameState) :
  (EarlierGame.health g - amount <= 0 /\
   EarlierGame.handleDamage amount g
   = EarlierGame.mkGameState (EarlierGame.score g) (EarlierGame.health g)
       (EarlierGame.wave g) false (EarlierGame.ammo g))
  \/
  (0 < EarlierGame.health g - amount /\
   EarlierGame.handleDamage amount g
   = EarlierGame.mkGameState (EarlierGame.score g) (EarlierGame.health g - amount)
       (EarlierGame.wave g) (EarlierGame.isPlaying g) (EarlierGame.ammo g)).
Proof.
  unfold EarlierGame.handleDamage. cbv zeta.
  destruct (Rle_dec (EarlierGame.health g - amount) 0) as [H|H].
  - left. split; [exact H|].
    rewrite Rmax_left by exact H.
    rewrite (proj2 (eqb_true 0 0)) by reflexivity. reflexivity.
  - right. apply Rnot_le_lt in H. split; [exact H|].
    rewrite Rmax_right by lra.
    unfold eqb. rewrite bool_decide_eq_false_2 by lra. reflexivity.
Qed.

Lemma earlier_applyCall_health (g : EarlierGame.GameState) (c : EarlierGame.Call) :
  0 < EarlierGame.health g -> 0 < EarlierGame.health (EarlierGame.applyCall g c).
Proof.
  intros Hh. destruct c as [|points|amount|a]; simpl; try lra; try exact Hh.
  destruct (earlier_handleDamage_cases amount g) as [[_ ->]|[Hpos ->]]; simpl; lra.
Qed.

(** X24: in the earlier variant health never reaches 0.  Through every
    sequence of calls of the handlers of [App] health stays positive: the
    call of [handleDamage] that would bring it to 0 ends the game and leaves
    health as it was, so the condition of the failure banner (health at
    most 0 and a positive score) never holds. *)
Theorem earlier_health_stays_positive (g : EarlierGame.GameState)
    (calls : list EarlierGame.Call) (amount : R) :
  0 < EarlierGame.health g ->
  let g' := fold_left EarlierGame.applyCall calls g in
  0 < EarlierGame.health g' /\
  EarlierGame.missionFailed g' = false /\
  (EarlierGame.health g' <= amount ->
   EarlierGame.isPlaying (EarlierGame.handleDamage amount g') = false /\
   EarlierGame.health (EarlierGame.handleDamage amount g') = EarlierGame.health g').
Proof.
  intros Hh. cbv zeta.
  assert (Hpos : 0 < EarlierGame.health (fold_left EarlierGame.applyCall calls g)).
  { revert g Hh. induction calls as [|c calls IH]; intros g Hh; simpl; [exact Hh|].
    apply IH, earlier_applyCall_health, Hh. }
  split; [exact Hpos|]. split.
  - unfold EarlierGame.missionFailed.
    rewrite (proj2 (leb_false _ _) Hpos). apply andb_false_iff. left.
    apply andb_false_r.
  - intros Hle.
    destruct (earlier_handleDamage_cases amount (fold_left EarlierGame.applyCall calls g))
      as [[_ ->]|[Hgt _]]; [simpl; auto | lra].
Qed.

Lemma earlier_health_stays_positive_witness :
  0 < EarlierGame.health EarlierGame.initialGameState /\
  0 < EarlierGame.health
        (fold_left EarlierGame.applyCall
           [EarlierGame.CallStart; EarlierGame.CallDamage 99.5; EarlierGame.CallDamage 0.5]
           EarlierGame.initialGameState).
Proof.
  assert (H : 0 < EarlierGame.health EarlierGame.initialGameState) by (simpl; lra).
  split; [exact H|].
  exact (proj1 (earlier_health_stays_positive EarlierGame.initialGameState
                  [EarlierGame.CallStart; EarlierGame.CallDamage 99.5;
                   EarlierGame.CallDamage 0.5] 0.5 H)).
Defined.
(** * The earlier variant: the controller *)

Lemma earlier_aiStep_vitals (camera : Vector3) (obstacles : list Earlier.Obstacle)
    (delta : R) (draw : R * R) (e : EarlierGame.Enemy) :
  vitals (EarlierGame.aiStep camera obstacles delta draw e).1 = vitals e.
Proof.
  unfold EarlierGame.aiStep. cbv zeta.
  repeat match goal with
  | |- context [if ?b then _ else _] => destruct b
  end; reflexivity.
Qed.

Lemma earlier_aiStep_flag (camera : Vector3) (obstacles : list Earlier.Obstacle)
    (delta : R) (draw : R * R) (e : EarlierGame.Enemy) :
  (EarlierGame.aiStep camera obstacles delta draw e).2 = inAttackRange camera e.
Proof.
  unfold EarlierGame.aiStep, inAttackRange. cbv zeta.
  destruct (bool_decide (EarlierGame.e_type e = villager)); cbn [negb andb].
  - repeat match goal with
    | |- context [if ?b then _ else _] => destruct b
    end; reflexivity.
  - destruct (gtb _ _); cbn [negb]; [|reflexivity].
    destruct (negb _); reflexivity.
Qed.

Lemma earlier_aiMap_vitals (camera : Vector3) (obstacles : list Earlier.Obstacle)
    (delta : R) (draws : nat -> R * R) (k : nat) (acc : bool) (l : list EarlierGame.Enemy) :
  map vitals (EarlierGame.aiMap camera obstacles delta draws k acc l).1 = map vitals l.
Proof.
  revert k acc. induction l as [|e l IH]; intros k acc; simpl; [reflexivity|].
  pose proof (earlier_aiStep_vitals camera obstacles delta (draws k) e) as He.
  destruct (EarlierGame.aiStep camera obstacles delta (draws k) e) as [e' hit].
  specialize (IH (S k) (acc || hit)).
  destruct (EarlierGame.aiMap camera obstacles delta draws (S k) (acc || hit) l)
    as [rest' total].
  simpl in *. rewrite He, IH. reflexivity.
Qed.

Lemma earlier_aiMap_flag (camera : Vector3) (obstacles : list Earlier.Obstacle)
    (delta : R) (draws : nat -> R * R) (k : nat) (acc : bool) (l : list EarlierGame.Enemy) :
  (EarlierGame.aiMap camera obstacles delta draws k acc l).2
  = acc || existsb (inAttackRange camera) l.
Proof.
  revert k acc. induction l as [|e l IH]; intros k acc; simpl; [rewrite orb_false_r; reflexivity|].
  pose proof (earlier_aiStep_flag camera obstacles delta (draws k) e) as He.
  destruct (EarlierGame.aiStep camera obstacles delta (draws k) e) as [e' hit].
  specialize (IH (S k) (acc || hit)).
  destruct (EarlierGame.aiMap camera obstacles delta draws (S k) (acc || hit) l)
    as [rest' total].
  simpl in *. rewrite IH, He, orb_assoc. reflexivity.
Qed.

Lemma earlier_enemyStep_spec (s : EarlierGame.Session) (i : EarlierGame.FrameInput) :
  let s' := EarlierGame.enemyStep s i in
  EarlierGame.gameState s'
  = (if existsb (inAttackRange (EarlierGame.f_camera i))
          (EarlierGame.enemies (EarlierGame.controller s))
     then EarlierGame.handleDamage 0.5 (EarlierGame.gameState s)
     else EarlierGame.gameState s) /\
  map vitals (EarlierGame.enemies (EarlierGame.controller s'))
  = map vitals (EarlierGame.enemies (EarlierGame.controller s)) /\
  EarlierGame.ammoRef (EarlierGame.controller s') = EarlierGame.ammoRef (EarlierGame.controller s) /\
  EarlierGame.lastShotTime (EarlierGame.controller s')
  = EarlierGame.lastShotTime (EarlierGame.controller s) /\
  EarlierGame.isReloading (EarlierGame.controller s')
  = EarlierGame.isReloading (EarlierGame.controller s) /\
  EarlierGame.timers s' = EarlierGame.timers s.
Proof.
  cbv zeta. unfold EarlierGame.enemyStep.
  pose proof (earlier_aiMap_vitals (EarlierGame.f_camera i) (EarlierGame.f_obstacles i)
                (EarlierGame.f_delta i) (EarlierGame.f_wander i) 0 false
                (EarlierGame.enemies (EarlierGame.controller s))) as Hv.
  pose proof (earlier_aiMap_flag (EarlierGame.f_camera i) (EarlierGame.f_obstacles i)
                (EarlierGame.f_delta i) (EarlierGame.f_wander i) 0 false
                (EarlierGame.enemies (EarlierGame.controller s))) as Hf.
  destruct (EarlierGame.aiMap _ _ _ _ _ _ _) as [next takingDamage].
  simpl in *. subst takingDamage. split_and!; try reflexivity. exact Hv.
Qed.

Lemma earlier_handleDamage_keeps (amount : R) (g : EarlierGame.GameState) :
  EarlierGame.score (EarlierGame.handleDamage amount g) = EarlierGame.score g /\
  EarlierGame.ammo (EarlierGame.handleDamage amount g) = EarlierGame.ammo g.
Proof.
  destruct (earlier_handleDamage_cases amount g) as [[_ ->]|[_ ->]]; simpl; auto.
Qed.

(** X25: in the earlier variant the damage of a frame does not add up: the
    player loses 0.5 health in a frame in which at least one actor that is
    no villager stands within its attack range, however many do, and none
    otherwise. *)
Theorem earlier_damage_is_flat (s : EarlierGame.Session) (i : EarlierGame.FrameInput) :
  let s' := EarlierGame.enemyStep s i in
  let g := EarlierGame.gameState s in
  let attacked :=
    existsb (inAttackRange (EarlierGame.f_camera i))
      (EarlierGame.enemies (EarlierGame.controller s)) in
  EarlierGame.gameState s' = (if attacked then EarlierGame.handleDamage 0.5 g else g) /\
  (attacked = false -> EarlierGame.health (EarlierGame.gameState s') = EarlierGame.health g) /\
  (attacked = true -> 0.5 < EarlierGame.health g ->
   EarlierGame.health (EarlierGame.gameState s') = EarlierGame.health g - 0.5) /\
  EarlierGame.health g - 0.5 <= EarlierGame.health (EarlierGame.gameState s')
    <= EarlierGame.health g.
Proof.
  cbv zeta. destruct (earlier_enemyStep_spec s i) as (Hg & _). cbv zeta in Hg.
  rewrite Hg. split; [reflexivity|].
  destruct (existsb _ _).
  - destruct (earlier_handleDamage_cases 0.5 (EarlierGame.gameState s))
      as [[Hle ->]|[Hgt ->]]; simpl; split_and!; intros; try discriminate; lra.
  - split_and!; intros; try discriminate; try reflexivity; lra.
Qed.
Lemma earlier_spawnStep_spec (s : EarlierGame.Session) (i : EarlierGame.FrameInput) :
  let s' := EarlierGame.spawnStep s i in
  EarlierGame.gameState s' = EarlierGame.gameState s /\
  (exists spawned,
     EarlierGame.enemies (EarlierGame.controller s')
     = EarlierGame.enemies (EarlierGame.controller s) ++ spawned /\
     Forall (fun e => 0 < EarlierGame.e_hp e) spawned) /\
  EarlierGame.ammoRef (EarlierGame.controller s') = EarlierGame.ammoRef (EarlierGame.controller s) /\
  EarlierGame.lastShotTime (EarlierGame.controller s')
  = EarlierGame.lastShotTime (EarlierGame.controller s) /\
  EarlierGame.isReloading (EarlierGame.controller s')
  = EarlierGame.isReloading (EarlierGame.controller s) /\
  EarlierGame.timers s' = EarlierGame.timers s.
Proof.
  cbv zeta. unfold EarlierGame.spawnStep. destruct (gtb _ _); simpl.
  - split_and!; try reflexivity.
    eexists. split; [reflexivity|].
    apply List.Forall_cons; [|apply List.Forall_nil].
    unfold EarlierGame.spawnEnemy. simpl.
    destruct (EarlierGame.spawnType _); simpl; lra.
  - split_and!; try reflexivity.
    exists []. rewrite app_nil_r. split; [reflexivity | apply List.Forall_nil].
Qed.

(** While the gun is reloading the shooting block leaves the controller and
    the state of the game as they are. *)
Lemma earlier_shootingStep_reloading (s : EarlierGame.Session) (i : EarlierGame.FrameInput) :
  EarlierGame.isReloading (EarlierGame.controller s) = true ->
  EarlierGame.controller (EarlierGame.shootingStep s i) = EarlierGame.controller s /\
  EarlierGame.gameState (EarlierGame.shootingStep s i) = EarlierGame.gameState s /\
  EarlierGame.timers (EarlierGame.shootingStep s i) = EarlierGame.timers s.
Proof.
  intros Hr. unfold EarlierGame.shootingStep. cbv zeta. rewrite Hr.
  cbn [negb]. rewrite andb_false_r. cbn [andb].
  destruct (negb (EarlierGame.f_mouseDown i)); simpl; auto.
Qed.

Lemma earlier_strike_score (hitId : option string) (acc : Z) (l : list EarlierGame.Enemy) :
  (EarlierGame.strike hitId acc l).2 = acc \/
  exists e, e ∈ l /\
    (EarlierGame.strike hitId acc l).2 = EarlierGame.cfg_score (EarlierGame.ENEMY_CONFIG (EarlierGame.e_type e)).
Proof.
  revert acc. induction l as [|e l IH]; intros acc; simpl; [left; reflexivity|].
  destruct (bool_decide (Some (EarlierGame.e_id e) = hitId)).
  - cbv zeta.
    destruct (leb (EarlierGame.e_hp e - EarlierGame.DAMAGE_PER_SHOT) 0).
    + specialize (IH (EarlierGame.cfg_score (EarlierGame.ENEMY_CONFIG (EarlierGame.e_type e)))).
      destruct (EarlierGame.strike hitId _ l) as [rest' total]. simpl in *.
      destruct IH as [->|(e0 & Hin & ->)].
      * right. exists e. split; [apply elem_of_cons; left; reflexivity | reflexivity].
      * right. exists e0. split; [apply elem_of_cons; right; exact Hin | reflexivity].
    + specialize (IH acc).
      destruct (EarlierGame.strike hitId acc l) as [rest' total]. simpl in *.
      destruct IH as [->|(e0 & Hin & ->)]; [left; reflexivity|].
      right. exists e0. split; [apply elem_of_cons; right; exact Hin | reflexivity].
  - specialize (IH acc).
    destruct (EarlierGame.strike hitId acc l) as [rest' total]. simpl in *.
    destruct IH as [->|(e0 & Hin & ->)]; [left; reflexivity|].
    right. exists e0. split; [apply elem_of_cons; right; exact Hin | reflexivity].
Qed.

Lemma earlier_hitscan_spec (ray : Ray) (camera : Vector3) (prev : list EarlierGame.Enemy) :
  Forall (fun e => 0 < EarlierGame.e_hp e) (EarlierGame.hitscan ray camera prev).1 /\
  (forall p, (EarlierGame.hitscan ray camera prev).2 = Some p -> (0 < p <= 300)%Z) /\
  (Forall (fun e => EarlierGame.e_type e = villager) prev ->
   (EarlierGame.hitscan ray camera prev).2 = None).
Proof.
  unfold EarlierGame.hitscan. cbv zeta.
  pose proof (earlier_strike_score (fold_left (EarlierGame.scanStep ray camera) prev (50, None)).2
                0 prev) as Hs.
  destruct (EarlierGame.strike _ 0 prev) as [struck total]. simpl in *.
  split_and!.
  - apply Forall_forall. intros e He. apply list_elem_of_filter in He as [He _]. exact He.
  - intros p. destruct (bool_decide (0 < total)%Z) eqn:E; [|discriminate].
    apply bool_decide_eq_true in E. intros [= <-].
    destruct Hs as [->|(e & _ & ->)]; [lia|].
    destruct (EarlierGame.e_type e); simpl in *; lia.
  - intros Hv. rewrite bool_decide_eq_false_2; [reflexivity|].
    destruct Hs as [->|(e & Hin & ->)]; [lia|].
    eapply Forall_forall in Hv; [|exact Hin]. rewrite Hv. simpl. lia.
Qed.
(** What the shooting block does to the gun, the score and the actors. *)
Lemma earlier_shootingStep_spec (s : EarlierGame.Session) (i : EarlierGame.FrameInput) :
  gunOk s ->
  let s' := EarlierGame.shootingStep s i in
  gunOk s' /\
  (EarlierGame.score (EarlierGame.gameState s)
   <= EarlierGame.score (EarlierGame.gameState s'))%Z /\
  EarlierGame.health (EarlierGame.gameState s') = EarlierGame.health (EarlierGame.gameState s) /\
  EarlierGame.isPlaying (EarlierGame.gameState s')
  = EarlierGame.isPlaying (EarlierGame.gameState s) /\
  (allAlive s -> allAlive s').
Proof.
  intros (Hammo & Hshown & Htimers). cbv zeta.
  unfold EarlierGame.shootingStep. cbv zeta.
  destruct (EarlierGame.f_mouseDown i && negb (EarlierGame.isReloading (EarlierGame.controller s))
            && gtb _ FIRE_RATE) eqn:Hfire.
  - apply andb_true_iff in Hfire as [Hfire _]. apply andb_true_iff in Hfire as [_ Hr].
    apply negb_true_iff in Hr.
    destruct (bool_decide (0 < EarlierGame.ammoRef (EarlierGame.controller s))%Z) eqn:Hpos.
    + apply bool_decide_eq_true in Hpos.
      pose proof (earlier_hitscan_spec
                    (mkRay (EarlierGame.f_camera i) (EarlierGame.f_look i))
                    (EarlierGame.f_camera i)
                    (EarlierGame.enemies (EarlierGame.controller s))) as (Halive & Hpts & _).
      destruct (EarlierGame.hitscan _ _ _) as [updated points]. simpl in Halive, Hpts.
      unfold gunOk, allAlive. rewrite Hr in *.
      destruct points as [p|]; simpl; [specialize (Hpts p eq_refl)|];
        split_and!; try reflexivity; try lia; try (intros _; exact Halive); exact Htimers.
    + apply bool_decide_eq_false in Hpos.
      destruct (bool_decide (EarlierGame.ammoRef (EarlierGame.controller s) = 0)%Z);
        unfold gunOk, allAlive, EarlierGame.reload; simpl; rewrite ?Hr in *;
        split_and!; try reflexivity; try lia; try (intros H; exact H);
        rewrite ?Htimers; try reflexivity; exact Htimers.
  - destruct (negb (EarlierGame.f_mouseDown i)); unfold gunOk, allAlive; simpl;
      split_and!; try reflexivity; try lia; try exact Htimers;
      intros H; exact H.
Qed.

Lemma earlier_step_spec (s : EarlierGame.Session) (ev : EarlierGame.Event) :
  gunOk s ->
  gunOk (EarlierGame.step s ev) /\
  (withinGame ev ->
   (EarlierGame.score (EarlierGame.gameState s)
    <= EarlierGame.score (EarlierGame.gameState (EarlierGame.step s ev)))%Z) /\
  (allAlive s -> allAlive (EarlierGame.step s ev)).
Proof.
  intros Hok. destruct ev as [i| | | |]; simpl.
  - unfold EarlierGame.controllerFrame.
    destruct (EarlierGame.isPlaying (EarlierGame.gameState s));
      [|split_and!; [exact Hok|intros _; lia|auto]].
    destruct (earlier_shootingStep_spec s i Hok) as (Hok1 & Hscore1 & _ & _ & Halive1).
    cbv zeta in *.
    set (s1 := EarlierGame.shootingStep s i) in *.
    destruct (earlier_spawnStep_spec s1 i) as (Hg2 & (spawned & He2 & Hsp) & Ha2 & _ & Hr2 & Ht2).
    cbv zeta in *.
    set (s2 := EarlierGame.spawnStep s1 i) in *.
    destruct (earlier_enemyStep_spec s2 i) as (Hg3 & He3 & Ha3 & _ & Hr3 & Ht3).
    cbv zeta in *.
    set (s3 := EarlierGame.enemyStep s2 i) in *.
    assert (Hkeep : EarlierGame.score (EarlierGame.gameState s3)
                    = EarlierGame.score (EarlierGame.gameState s1) /\
                    EarlierGame.ammo (EarlierGame.gameState s3)
                    = EarlierGame.ammo (EarlierGame.gameState s1)).
    { rewrite Hg3, <- Hg2. destruct (existsb _ _); [apply earlier_handleDamage_keeps | auto]. }
    destruct Hkeep as [Hsc Ham].
    destruct Hok1 as (Hb1 & Hs1 & Hti1).
    split_and!.
    + unfold gunOk. rewrite Ha3, Ha2, Ham, Hr3, Hr2, Ht3, Ht2. auto.
    + intros _. lia.
    + intros Halive. specialize (Halive1 Halive). unfold allAlive in *.
      apply Forall_forall. intros e He.
      assert (Hv : vitals e ∈ map vitals (EarlierGame.enemies (EarlierGame.controller s3)))
        by (apply list_elem_of_fmap_2; exact He).
      rewrite He3, He2 in Hv. apply list_elem_of_fmap in Hv as (e0 & Hv & Hin).
      injection Hv as _ Hhp. rewrite Hhp.
      apply elem_of_app in Hin as [Hin|Hin].
      * eapply Forall_forall in Halive1; [exact Halive1 | exact Hin].
      * eapply Forall_forall in Hsp; [exact Hsp | exact Hin].
  - unfold EarlierGame.keyReload.
    pose proof Hok as (Hb & Hs & Hti).
    destruct (_ && _) eqn:Hc; [|split_and!; [exact Hok | intros _; lia | auto]].
    apply andb_true_iff in Hc as [_ Hr]. apply negb_true_iff in Hr.
    unfold gunOk, allAlive, EarlierGame.reload. simpl. rewrite Hr in Hti. rewrite Hti.
    split_and!; try assumption; try reflexivity; try lia; try (intros _; lia); auto.
  - unfold EarlierGame.timeout.
    pose proof Hok as (Hb & Hs & Hti).
    destruct (EarlierGame.timers s) as [|n] eqn:Hn;
      [split_and!; [exact Hok | intros _; lia | auto]|].
    unfold gunOk, allAlive, EarlierGame.reloaded. simpl.
    destruct (EarlierGame.isReloading (EarlierGame.controller s)); [|discriminate].
    injection Hti as ->.
    split_and!; try reflexivity; try (unfold MAX_AMMO; lia); try (intros _; lia); auto.
  - unfold EarlierGame.staleTimeout.
    pose proof Hok as (Hb & Hs & Hti).
    destruct (EarlierGame.stale s) as [|n];
      [split_and!; [exact Hok | intros _; lia | auto]|].
    unfold gunOk, allAlive. simpl.
    split_and!; try assumption; try lia; try (unfold MAX_AMMO; lia); try (intros _; lia);
      auto.
  - unfold EarlierGame.start.
    pose proof Hok as (Hb & Hs & Hti).
    destruct (EarlierGame.isPlaying (EarlierGame.gameState s));
      [split_and!; [exact Hok | intros [] | auto]|].
    unfold gunOk, allAlive. simpl.
    split_and!; [unfold MAX_AMMO; lia.. | lia | lia | reflexivity | intros [] | ].
    intros _. constructor.
Qed.

Lemma earlier_run_spec (evs : list EarlierGame.Event) (s : EarlierGame.Session) :
  gunOk s ->
  gunOk (EarlierGame.run s evs) /\
  (Forall withinGame evs ->
   (EarlierGame.score (EarlierGame.gameState s)
    <= EarlierGame.score (EarlierGame.gameState (EarlierGame.run s evs)))%Z) /\
  (allAlive s -> allAlive (EarlierGame.run s evs)).
Proof.
  revert s. induction evs as [|ev evs IH]; intros s Hok; simpl.
  - split_and!; [exact Hok | intros _; lia | auto].
  - destruct (earlier_step_spec s ev Hok) as (Hok1 & Hsc1 & Hal1).
    destruct (IH _ Hok1) as (Hok2 & Hsc2 & Hal2).
    split_and!; [exact Hok2 | | auto].
    intros Hevs. apply List.Forall_cons_iff in Hevs as [Hev Hevs].
    specialize (Hsc1 Hev). specialize (Hsc2 Hevs). lia.
Qed.

Lemma earlier_run_score_nonneg (evs : list EarlierGame.Event) (s : EarlierGame.Session) :
  gunOk s -> (0 <= EarlierGame.score (EarlierGame.gameState s))%Z ->
  (0 <= EarlierGame.score (EarlierGame.gameState (EarlierGame.run s evs)))%Z.
Proof.
  revert s. induction evs as [|ev evs IH]; intros s Hok Hs; simpl; [exact Hs|].
  destruct (earlier_step_spec s ev Hok) as (Hok1 & Hsc1 & _).
  apply IH; [exact Hok1|].
  destruct ev; try (specialize (Hsc1 I); lia).
  simpl. unfold EarlierGame.start.
  destruct (EarlierGame.isPlaying (EarlierGame.gameState s)); simpl; lia.
Qed.

(** The session the page is loaded with is consistent and holds no actor. *)
Lemma earlier_initialSession_ok :
  gunOk EarlierGame.initialSession /\ allAlive EarlierGame.initialSession.
Proof.
  split; [|constructor].
  unfold gunOk; simpl; unfold MAX_AMMO; split_and!; try reflexivity; lia.
Qed.

(** X26: in the earlier variant a reload takes a timer and blocks the gun.
    Along every run from the page load (frames, reload keys, timer
    callbacks, game over and restarts) the count in the gun and the count
    shown stay within [0, MAX_AMMO] and the mounted controller has a
    callback pending exactly while its gun is reloading.  While it is
    reloading a frame fires no shot (the count, the time of the last shot,
    the score and the hit points of every actor are kept) and the reload key
    does nothing; the gun is refilled by the callback alone.  A fire attempt
    on an empty gun starts the reload and leaves the count at 0.  A restart
    mounts a controller with a full gun while the count shown and the
    callbacks still pending are kept; such a callback of an earlier
    controller sets the count shown to MAX_AMMO and leaves the gun as it
    is. *)
Theorem earlier_reload_blocks_fire (evs : list EarlierGame.Event)
    (i : EarlierGame.FrameInput) :
  let s1 := EarlierGame.run EarlierGame.initialSession evs in
  let c1 := EarlierGame.controller s1 in
  gunOk s1 /\
  (EarlierGame.isReloading c1 = true ->
   let s2 := EarlierGame.step s1 (EarlierGame.EvFrame i) in
   let s3 := EarlierGame.step s1 EarlierGame.EvTimeout in
   EarlierGame.ammoRef (EarlierGame.controller s2) = EarlierGame.ammoRef c1 /\
   EarlierGame.lastShotTime (EarlierGame.controller s2) = EarlierGame.lastShotTime c1 /\
   EarlierGame.isReloading (EarlierGame.controller s2) = true /\
   EarlierGame.score (EarlierGame.gameState s2) = EarlierGame.score (EarlierGame.gameState s1) /\
   (exists spawned,
      map vitals (EarlierGame.enemies (EarlierGame.controller s2))
      = map vitals (EarlierGame.enemies c1) ++ spawned) /\
   EarlierGame.step s1 EarlierGame.EvKeyReload = s1 /\
   EarlierGame.ammoRef (EarlierGame.controller s3) = MAX_AMMO /\
   EarlierGame.ammo (EarlierGame.gameState s3) = MAX_AMMO /\
   EarlierGame.isReloading (EarlierGame.controller s3) = false /\
   EarlierGame.timers s3 = 0%nat) /\
  (EarlierGame.isReloading c1 = false -> EarlierGame.ammoRef c1 = 0%Z ->
   EarlierGame.f_mouseDown i = true ->
   FIRE_RATE < EarlierGame.f_time i - EarlierGame.lastShotTime c1 ->
   let s2 := EarlierGame.shootingStep s1 i in
   EarlierGame.isReloading (EarlierGame.controller s2) = true /\
   EarlierGame.ammoRef (EarlierGame.controller s2) = 0%Z /\
   EarlierGame.timers s2 = 1%nat) /\
  (EarlierGame.isPlaying (EarlierGame.gameState s1) = false ->
   let s2 := EarlierGame.step s1 EarlierGame.EvStart in
   EarlierGame.controller s2 = EarlierGame.mounted /\
   EarlierGame.ammoRef (EarlierGame.controller s2) = MAX_AMMO /\
   EarlierGame.ammo (EarlierGame.gameState s2) = EarlierGame.ammo (EarlierGame.gameState s1) /\
   EarlierGame.timers s2 = 0%nat /\
   EarlierGame.stale s2 = (EarlierGame.stale s1 + EarlierGame.timers s1)%nat) /\
  (let s2 := EarlierGame.step s1 EarlierGame.EvStaleTimeout in
   EarlierGame.controller s2 = c1 /\
   EarlierGame.timers s2 = EarlierGame.timers s1 /\
   ((0 < EarlierGame.stale s1)%nat ->
    EarlierGame.ammo (EarlierGame.gameState s2) = MAX_AMMO)).
Proof.
  cbv zeta.
  destruct (earlier_run_spec evs EarlierGame.initialSession (proj1 earlier_initialSession_ok))
    as (Hok1 & _ & _).
  set (s1 := EarlierGame.run EarlierGame.initialSession evs) in *.
  split; [exact Hok1|]. split_and!.
  - intros Hr. pose proof Hok1 as (Hb & Hs & Hti). rewrite Hr in Hti.
    split_and!.
    1-5: simpl; unfold EarlierGame.controllerFrame;
      destruct (EarlierGame.isPlaying (EarlierGame.gameState s1));
      [|first [reflexivity | exact Hr | exists []; rewrite app_nil_r; reflexivity]].
    1-5: destruct (earlier_shootingStep_reloading s1 i Hr) as (Hc1 & Hg1 & Ht1);
      destruct (earlier_spawnStep_spec (EarlierGame.shootingStep s1 i) i)
        as (Hg2 & (spawned & He2 & _) & Ha2 & Hl2 & Hr2 & Ht2);
      destruct (earlier_enemyStep_spec
                  (EarlierGame.spawnStep (EarlierGame.shootingStep s1 i) i) i)
        as (Hg3 & He3 & Ha3 & Hl3 & Hr3 & Ht3);
      cbv zeta in *.
    + rewrite Ha3, Ha2, Hc1. reflexivity.
    + rewrite Hl3, Hl2, Hc1. reflexivity.
    + rewrite Hr3, Hr2, Hc1. exact Hr.
    + rewrite Hg3, Hg2, Hg1.
      destruct (existsb _ _); [apply earlier_handleDamage_keeps | reflexivity].
    + exists (map vitals spawned). rewrite He3, He2, map_app, Hc1. reflexivity.
    + simpl. unfold EarlierGame.keyReload. rewrite Hr. cbn [negb].
      rewrite andb_false_r. reflexivity.
    + simpl. unfold EarlierGame.timeout. rewrite Hti. reflexivity.
    + simpl. unfold EarlierGame.timeout. rewrite Hti. reflexivity.
    + simpl. unfold EarlierGame.timeout. rewrite Hti. reflexivity.
    + simpl. unfold EarlierGame.timeout. rewrite Hti. reflexivity.
  - intros Hr H0 Hm Ht. pose proof Hok1 as (Hb & Hs & Hti). rewrite Hr in Hti.
    unfold EarlierGame.shootingStep. cbv zeta.
    rewrite Hm, Hr, (proj2 (gtb_true _ _) Ht), H0. simpl.
    rewrite Hti. auto.
  - intros Hp. simpl. unfold EarlierGame.start. rewrite Hp. simpl. auto.
  - simpl. unfold EarlierGame.staleTimeout. destruct (EarlierGame.stale s1); reflexivity.
  - simpl. unfold EarlierGame.staleTimeout. destruct (EarlierGame.stale s1); reflexivity.
  - simpl. unfold EarlierGame.staleTimeout.
    destruct (EarlierGame.stale s1); intros H; [lia | reflexivity].
Qed.

(** X27: in the earlier variant the score never goes down within a game and
    no actor is kept at 0 hit points.  Along every run from the page load,
    every event other than a press of the start button keeps or raises the
    score, and so does every run of such events; the start button sets the
    score back to 0.  A shot hands [onScore] only a positive score, so the
    kill of a villager (whose score is -100) changes nothing; and the
    actors a shot leaves all have hit points left. *)
Theorem earlier_score_never_decreases (evs game : list EarlierGame.Event)
    (ev : EarlierGame.Event) (ray : Ray) (camera : Vector3)
    (prev : list EarlierGame.Enemy) :
  let s1 := EarlierGame.run EarlierGame.initialSession evs in
  (withinGame ev ->
   (EarlierGame.score (EarlierGame.gameState s1)
    <= EarlierGame.score (EarlierGame.gameState (EarlierGame.step s1 ev)))%Z) /\
  (Forall withinGame game ->
   (EarlierGame.score (EarlierGame.gameState s1)
    <= EarlierGame.score (EarlierGame.gameState (EarlierGame.run s1 game)))%Z) /\
  (EarlierGame.isPlaying (EarlierGame.gameState s1) = false ->
   EarlierGame.score (EarlierGame.gameState (EarlierGame.step s1 EarlierGame.EvStart)) = 0%Z) /\
  (0 <= EarlierGame.score (EarlierGame.gameState s1))%Z /\
  allAlive s1 /\
  Forall (fun e => 0 < EarlierGame.e_hp e) (EarlierGame.hitscan ray camera prev).1 /\
  (forall p, (EarlierGame.hitscan ray camera prev).2 = Some p -> (0 < p)%Z) /\
  (Forall (fun e => EarlierGame.e_type e = villager) prev ->
   (EarlierGame.hitscan ray camera prev).2 = None).
Proof.
  cbv zeta.
  destruct earlier_initialSession_ok as [Hok0 Hal0].
  destruct (earlier_run_spec evs EarlierGame.initialSession Hok0) as (Hok1 & _ & Hal1).
  set (s1 := EarlierGame.run EarlierGame.initialSession evs) in *.
  destruct (earlier_step_spec s1 ev Hok1) as (_ & Hsc & _).
  destruct (earlier_run_spec game s1 Hok1) as (_ & Hgame & _).
  destruct (earlier_hitscan_spec ray camera prev) as (H1 & H2 & H3).
  split_and!; [exact Hsc | exact Hgame | | | exact (Hal1 Hal0) | exact H1 | | exact H3].
  - intros Hp. simpl. unfold EarlierGame.start. rewrite Hp. reflexivity.
  - apply earlier_run_score_nonneg; [exact Hok0 | simpl; lia].
  - intros p Hp. apply H2 in Hp. lia.
Qed.
(** * The earlier variant: where the generator puts the obstacles *)

Lemma chunkOf_around (c : Z) (p : R) :
  IZR c * CHUNK_SIZE - CHUNK_SIZE / 2 <= p < IZR c * CHUNK_SIZE + CHUNK_SIZE / 2 ->
  chunkOf p = (c - 1)%Z \/ chunkOf p = c.
Proof.
  unfold CHUNK_SIZE. intros [H1 H2].
  destruct (Rlt_dec p (IZR c * 60)) as [H|H].
  - left. apply chunkOf_inside. unfold CHUNK_SIZE. rewrite minus_IZR. lra.
  - right. apply chunkOf_inside. unfold CHUNK_SIZE. lra.
Qed.

Lemma earlier_generateChunk_around (cx cz : Z) :
  Forall (aroundCorner cx cz) (Earlier.generateChunk cx cz).
Proof.
  unfold Earlier.generateChunk. lazy zeta.
  assert (Hrand : forall r k, IZR k * CHUNK_SIZE - CHUNK_SIZE / 2
                    <= IZR k * CHUNK_SIZE + (seededRandom r * CHUNK_SIZE - CHUNK_SIZE / 2)
                    < IZR k * CHUNK_SIZE + CHUNK_SIZE / 2).
  { intros r k. pose proof (seededRandom_range r). unfold CHUNK_SIZE. lra. }
  apply Forall_app. split; [|apply Forall_app; split].
  - apply forRangeAcc_Forall.
    + destruct (gtb _ 0.95); [|apply List.Forall_nil].
      apply Forall_flat_map. apply Forall_forall. intros i _.
      apply List.Forall_cons; [|apply List.Forall_nil].
      unfold aroundCorner. simpl.
      match goal with
      | |- _ <= _ + (seededRandom ?a - _) * _ < _ /\ _ <= _ + (seededRandom ?b - _) * _ < _ =>
          pose proof (seededRandom_range a); pose proof (seededRandom_range b)
      end.
      unfold CHUNK_SIZE. split; lra.
    + intros a i. destruct (_ && _); [apply List.Forall_nil|].
      apply List.Forall_cons; [|apply List.Forall_nil].
      split; simpl; apply Hrand.
  - apply Forall_flat_map. apply Forall_forall. intros i _.
    apply List.Forall_cons; [|apply List.Forall_nil].
    split; simpl; apply Hrand.
  - destruct (_ && _); [|apply List.Forall_nil].
    apply List.Forall_cons; [|apply List.Forall_nil].
    split; simpl; apply Hrand.
Qed.

(** X28: in the earlier variant the obstacles of a chunk are laid around its
    corner, not inside its square: each stands within half a chunk of the
    corner along each axis, so the chunk its position falls in is the chunk
    its id names or the one before it. *)
Theorem earlier_obstacles_straddle_chunks (cx cz : Z) :
  Forall (fun o =>
            aroundCorner cx cz o /\
            (chunkOf (v_x (Earlier.o_position o)) = (cx - 1)%Z \/
             chunkOf (v_x (Earlier.o_position o)) = cx) /\
            (chunkOf (v_z (Earlier.o_position o)) = (cz - 1)%Z \/
             chunkOf (v_z (Earlier.o_position o)) = cz) /\
            chunkOfId (Earlier.o_id o) = Some (cx, cz))
         (Earlier.generateChunk cx cz).
Proof.
  apply Forall_forall. intros o Ho.
  pose proof (earlier_generateChunk_around cx cz) as Ha.
  pose proof (earlier_generateChunk_owned cx cz) as Hown.
  eapply Forall_forall in Ha; [|exact Ho].
  eapply Forall_forall in Hown; [|exact Ho].
  split; [exact Ha|]. destruct Ha as [Hx Hz].
  split; [apply chunkOf_around, Hx|]. split; [apply chunkOf_around, Hz|].
  apply (ownedBy_chunkOfId cx cz), Hown.
Qed.

(** * The rates of fire and of spawning *)



(** * The ids of the obstacles are distinct *)

Lemma string_app_inv_head (p a b : string) : p +:+ a = p +:+ b -> a = b.
Proof.
  induction p as [|c p IH]; [rewrite !append_nil; auto|].
  rewrite !append_cons. intros [= H]. apply IH, H.
Qed.

Lemma noColon_app (a b : string) : noColon (a +:+ b) = noColon a && noColon b.
Proof.
  induction a as [|c a IH]; [rewrite append_nil; reflexivity|].
  rewrite append_cons. simpl. rewrite IH, andb_assoc. reflexivity.
Qed.

Lemma splitColon_noColon (a : string) : noColon a = true -> splitColon a = [a].
Proof.
  induction a as [|c a IH]; intros Ha; [reflexivity|].
  simpl in Ha. apply andb_true_iff in Ha as [Hc Ha]. apply negb_true_iff in Hc.
  simpl. rewrite Hc, IH by exact Ha. reflexivity.
Qed.

Lemma idFields_owned (cx cz : Z) (rest : string) :
  idFields (chunkKey cx cz +:+ String ":" rest) = splitColon rest.
Proof.
  unfold idFields, chunkKey.
  rewrite !string_app_assoc, !append_cons, !append_nil.
  rewrite splitColon_app by apply pretty_Z_noColon.
  rewrite splitColon_app by apply pretty_Z_noColon.
  reflexivity.
Qed.

Lemma generateBuilding_suffixes (type : BuildingType) (x z y rotation : R)
    (idPrefix : string) :
  map o_id (generateBuilding type x z y rotation idPrefix)
  = map (String.append idPrefix) (partSuffixes type).
Proof. destruct type; reflexivity. Qed.

Lemma partSuffixes_NoDup (type : BuildingType) : NoDup (partSuffixes type).
Proof.
  destruct type; apply (bool_decide_unpack _); vm_compute; exact I.
Qed.

Lemma partSuffixes_colon (type : BuildingType) (s : string) :
  s ∈ partSuffixes type -> exists s', s = String ":" s'.
Proof.
  destruct type; simpl; intros H;
    repeat (apply elem_of_cons in H as [->|H]; [eexists; reflexivity|]);
    apply elem_of_nil in H; destruct H.
Qed.

Lemma generateBuilding_NoDup (type : BuildingType) (x z y rotation : R) (idPrefix : string) :
  NoDup (map o_id (generateBuilding type x z y rotation idPrefix)).
Proof.
  rewrite generateBuilding_suffixes.
  apply NoDup_fmap_2_strong; [|apply partSuffixes_NoDup].
  intros a b _ _. apply string_app_inv_head.
Qed.

(** The parts of a building whose prefix is the key of a chunk, a colon and
    a tag without colon have that tag as their slot. *)
Lemma generateBuilding_slot (cx cz : Z) (tag : string) (type : BuildingType)
    (x z y rotation : R) (id : string) :
  noColon tag = true ->
  id ∈ map o_id (generateBuilding type x z y rotation (chunkKey cx cz +:+ String ":" tag)) ->
  slot id = Some tag.
Proof.
  intros Htag Hin. rewrite generateBuilding_suffixes in Hin.
  apply list_elem_of_fmap in Hin as (s & -> & Hs).
  apply partSuffixes_colon in Hs as (s' & ->).
  unfold slot. rewrite string_app_assoc, append_cons, idFields_owned.
  rewrite splitColon_app by exact Htag. reflexivity.
Qed.

(** The obstacles a loop pushes carry distinct ids when each turn pushes
    distinct ids and marks them with a tag of its own. *)
Lemma forRange_NoDup {T : Type} (tagOf : string -> option T) (tag : Z -> T) (n : nat)
    (body : Z -> list Obstacle) :
  (forall i j, tag i = tag j -> i = j) ->
  (forall i, NoDup (map o_id (body i))) ->
  (forall i id, id ∈ map o_id (body i) -> tagOf id = Some (tag i)) ->
  NoDup (map o_id (forRange n body)).
Proof.
  intros Hinj Hbody Htag. unfold forRange.
  assert (Hidx : NoDup (map Z.of_nat (seq 0 n))).
  { apply NoDup_fmap_2; [apply Nat2Z.inj'|apply NoDup_seq]. }
  induction (map Z.of_nat (seq 0 n)) as [|a l IH]; simpl; [constructor|].
  apply NoDup_cons in Hidx as [Ha Hl].
  rewrite map_app. apply NoDup_app. split_and!.
  - apply Hbody.
  - intros id Hid Hid'.
    apply list_elem_of_fmap in Hid' as (o & -> & Ho).
    apply list_elem_of_In, in_flat_map in Ho as (j & Hj & Ho).
    apply list_elem_of_In in Hj, Ho.
    pose proof (Htag a _ Hid) as H1.
    pose proof (Htag j _ (list_elem_of_fmap_2 o_id _ _ Ho)) as H2.
    rewrite H1 in H2. injection H2 as H2. apply Hinj in H2. subst j. contradiction.
  - apply IH, Hl.
Qed.

Lemma forRange_elem (n : nat) (body : Z -> list Obstacle) (o : Obstacle) :
  o ∈ forRange n body -> exists i, o ∈ body i.
Proof.
  unfold forRange. intros H. apply list_elem_of_In, in_flat_map in H as (i & _ & H).
  exists i. apply list_elem_of_In, H.
Qed.

Lemma pretty_Z_eq (i j : Z) : pretty i = pretty j -> i = j.
Proof.
  intros H. pose proof (parseInt_pretty i) as Hi. rewrite H, parseInt_pretty in Hi.
  congruence.
Qed.

(** Two lists of ids of different kinds hold distinct ids together. *)
Lemma NoDup_app_kind (k : ascii) (l1 l2 : list string) :
  (forall id, id ∈ l1 -> kind id = Some k) ->
  (forall id, id ∈ l2 -> kind id <> Some k) ->
  NoDup l1 -> NoDup l2 -> NoDup (l1 ++ l2).
Proof.
  intros H1 H2 N1 N2. apply NoDup_app. split_and!; [exact N1 | | exact N2].
  intros id Hid Hid'. apply (H2 id Hid'), H1, Hid.
Qed.

Lemma kind_of_slot (id : string) (c : ascii) (s : string) :
  slot id = Some (String c s) -> kind id = Some c.
Proof. unfold kind. intros ->. reflexivity. Qed.

Lemma kind_other (id : string) (a k : ascii) : kind id = Some a -> a <> k -> kind id <> Some k.
Proof. intros -> Hne [= E]. exact (Hne E). Qed.

Lemma elem_of_app_kind (a : ascii) (l1 l2 : list string) :
  (forall id, id ∈ l1 -> kind id = Some a) ->
  (forall id, id ∈ l2 -> kind id = Some a) ->
  forall id, id ∈ l1 ++ l2 -> kind id = Some a.
Proof. intros H1 H2 id [H|H]%elem_of_app; auto. Qed.

Lemma tree_id_fields (cx cz i : Z) :
  idFields (chunkKey cx cz +:+ ":tree:" +:+ pretty i) = ["tree"; pretty i].
Proof.
  change (chunkKey cx cz +:+ ":tree:" +:+ pretty i)
    with (chunkKey cx cz +:+ String ":" ("tree" +:+ String ":" (pretty i))).
  rewrite idFields_owned, splitColon_app by reflexivity.
  rewrite splitColon_noColon by apply pretty_Z_noColon. reflexivity.
Qed.

Lemma house_tag_noColon (i : Z) : noColon ("b" +:+ pretty i) = true.
Proof. rewrite noColon_app. simpl. apply pretty_Z_noColon. Qed.

Lemma house_tag_inj (i j : Z) : "b" +:+ pretty i = "b" +:+ pretty j -> i = j.
Proof. intros [= H]. apply pretty_Z_eq, H. Qed.

(** Every id [generateChunk] emits is distinct from the others. *)
Lemma generateChunk_NoDup (cx cz : Z) (S : R) : NoDup (map o_id (generateChunk cx cz S)).
Proof.
  unfold generateChunk. lazy zeta.
  (* the trees *)
  match goal with
  | |- NoDup (map o_id (_ ++ forRange ?n ?tb)) =>
      assert (Htrees : NoDup (map o_id (forRange n tb)) /\
                       forall id, id ∈ map o_id (forRange n tb) -> kind id = Some "t"%char)
  end.
  { split.
    - apply (forRange_NoDup (fun id => idFields id !! 1%nat) pretty).
      + apply pretty_Z_eq.
      + intros i. destruct (gtb _ 0); simpl; [constructor|].
        apply NoDup_singleton.
      + intros i id. destruct (gtb _ 0); simpl; [intros H; apply elem_of_nil in H; destruct H|].
        intros H. apply list_elem_of_singleton in H as ->.
        rewrite tree_id_fields. reflexivity.
    - intros id Hid. apply list_elem_of_fmap in Hid as (o & -> & Ho).
      apply forRange_elem in Ho as (i & Ho).
      destruct (gtb _ 0); [apply elem_of_nil in Ho; destruct Ho|].
      apply list_elem_of_singleton in Ho as ->. simpl.
      unfold kind, slot. rewrite tree_id_fields. reflexivity. }
  destruct Htrees as [Ntrees Ktrees].
  match goal with |- context [if ?b then _ ++ _ ++ _ else []] => destruct b end;
    [|exact Ntrees].
  rewrite <- !app_assoc, !map_app.
  (* the houses *)
  match goal with
  | |- NoDup (_ ++ map o_id (forRange ?n ?hb) ++ _) =>
      assert (Hhouses : NoDup (map o_id (forRange n hb)) /\
                        forall id, id ∈ map o_id (forRange n hb) -> kind id = Some "b"%char)
  end.
  { split.
    - apply (forRange_NoDup slot (fun i => "b" +:+ pretty i)).
      + apply house_tag_inj.
      + intros i. destruct (gtb _ 0); simpl; [constructor|].
        change (chunkKey cx cz +:+ ":b" +:+ pretty i)
          with (chunkKey cx cz +:+ String ":" ("b" +:+ pretty i)).
        apply generateBuilding_NoDup.
      + intros i id. destruct (gtb _ 0); simpl; [intros H; apply elem_of_nil in H; destruct H|].
        change (chunkKey cx cz +:+ ":b" +:+ pretty i)
          with (chunkKey cx cz +:+ String ":" ("b" +:+ pretty i)).
        apply generateBuilding_slot, house_tag_noColon.
    - intros id Hid. apply list_elem_of_fmap in Hid as (o & -> & Ho).
      apply forRange_elem in Ho as (i & Ho).
      destruct (gtb _ 0); [apply elem_of_nil in Ho; destruct Ho|].
      apply (kind_of_slot _ "b" (pretty i)).
      apply (list_elem_of_fmap_2 o_id) in Ho.
      change (chunkKey cx cz +:+ ":b" +:+ pretty i)
        with (chunkKey cx cz +:+ String ":" ("b" +:+ pretty i)) in Ho.
      eapply generateBuilding_slot; [apply house_tag_noColon | exact Ho]. }
  destruct Hhouses as [Nhouses Khouses].
  (* the well *)
  match goal with
  | |- NoDup (_ ++ _ ++ map o_id ?wl ++ _) =>
      assert (Hwell : NoDup (map o_id wl) /\
                      forall id, id ∈ map o_id wl -> kind id = Some "w"%char)
  end.
  { destruct (gtb _ 0.5); simpl.
    - split; [apply NoDup_singleton|].
      intros id ->%list_elem_of_singleton.
      apply (kind_of_slot _ "w" "ell"). unfold slot.
      change (chunkKey cx cz +:+ ":well") with (chunkKey cx cz +:+ String ":" "well").
      rewrite idFields_owned, splitColon_noColon by reflexivity. reflexivity.
    - split; [constructor|]. intros id H. apply elem_of_nil in H. destruct H. }
  destruct Hwell as [Nwell Kwell].
  apply (NoDup_app_kind "m").
  - intros id Hid. destruct (eqb _ 0); [|apply elem_of_nil in Hid; destruct Hid].
    apply (kind_of_slot _ "m" "arket").
    apply (generateBuilding_slot cx cz "market" market _ _ _ _ id eq_refl Hid).
  - intros id [H|[H|H]%elem_of_app]%elem_of_app.
    + apply (kind_other _ "b"); [auto | discriminate].
    + apply (kind_other _ "w"); [auto | discriminate].
    + apply (kind_other _ "t"); [auto | discriminate].
  - destruct (eqb _ 0); [apply generateBuilding_NoDup | constructor].
  - apply (NoDup_app_kind "b"); [exact Khouses | | exact Nhouses |].
    + intros id [H|H]%elem_of_app.
      * apply (kind_other _ "w"); [auto | discriminate].
      * apply (kind_other _ "t"); [auto | discriminate].
    + apply (NoDup_app_kind "w"); [exact Kwell | | exact Nwell | exact Ntrees].
      intros id H. apply (kind_other _ "t"); [auto | discriminate].
Qed.

(** ** Over a session *)

Lemma controllerFrame_loadedChunks (w : World) (i : FrameInput) :
  loadedChunks (controllerFrame w i).1 = loadedChunks w.
Proof.
  destruct (isPlaying (gameState w)) eqn:Hp.
  - rewrite (controllerFrame_playing w i Hp). simpl.
    unfold aiFrameStep. destruct (updateEnemies _ _ _ _ _ _). simpl.
    destruct (shootingStep_keeps w i) as (_ & _ & _ & <- & _).
    unfold spawnStep. destruct (gtb _ _); reflexivity.
  - unfold controllerFrame. rewrite Hp. reflexivity.
Qed.

Lemma idsIn_app_l (loaded : gset string) (l1 l2 : list Obstacle) :
  idsIn loaded (l1 ++ l2) -> idsIn loaded l1.
Proof.
  intros [Hnd Hall]. rewrite map_app in Hnd. apply NoDup_app in Hnd as (Hnd & _ & _).
  apply Forall_app in Hall as [Hall _]. split; assumption.
Qed.

Lemma idsIn_load (loaded : gset string) (l : list Obstacle) (c : Z * Z) (S : R) :
  chunkKey c.1 c.2 ∉ loaded -> idsIn loaded l ->
  idsIn ({[chunkKey c.1 c.2]} ∪ loaded) (l ++ generateChunk c.1 c.2 S).
Proof.
  intros Hnew [Hnd Hall].
  pose proof (generateChunk_owned c.1 c.2 S) as Hown.
  split.
  - rewrite map_app. apply NoDup_app. split_and!; [exact Hnd | | apply generateChunk_NoDup].
    intros id Hid Hid'.
    apply list_elem_of_fmap in Hid as (o & -> & Ho).
    apply list_elem_of_fmap in Hid' as (o' & E & Ho').
    rewrite Forall_forall in Hall. destruct (Hall o) as (c' & Hc' & Hin).
    { exact Ho. }
    rewrite Forall_forall in Hown.
    destruct (ownedBy_chunkOfId c.1 c.2 (o_id o')) as [Hc _].
    { apply Hown, Ho'. }
    rewrite <- E, Hc' in Hc. injection Hc as ->. exact (Hnew Hin).
  - apply Forall_app. split.
    + eapply Forall_impl; [exact Hall|]. intros o (c' & Hc' & Hin).
      exists c'. split; [exact Hc' | set_solver].
    + eapply Forall_impl; [exact Hown|]. intros o Ho.
      destruct (ownedBy_chunkOfId _ _ _ Ho) as [Hc _].
      exists (c.1, c.2). split; [exact Hc | set_solver].
Qed.

Lemma loadStep_fold_idsIn (worldSeed : R) (base : list Obstacle) (coords : list (Z * Z))
    (loaded : gset string) (newObs : list Obstacle) (hasNew : bool)
    (loaded' : gset string) (newObs' : list Obstacle) (hasNew' : bool) :
  idsIn loaded (base ++ newObs) ->
  fold_left (loadStep worldSeed) coords (loaded, newObs, hasNew) = (loaded', newObs', hasNew') ->
  idsIn loaded' (base ++ newObs').
Proof.
  revert loaded newObs hasNew.
  induction coords as [|c coords IH]; intros loaded newObs hasNew Hacc E.
  { injection E as <- <- <-. exact Hacc. }
  cbn [fold_left] in E. unfold loadStep at 2 in E.
  destruct (bool_decide (chunkKey c.1 c.2 ∈ loaded)) eqn:Hin.
  - exact (IH _ _ _ Hacc E).
  - apply bool_decide_eq_false in Hin.
    refine (IH _ _ _ _ E). rewrite app_assoc. apply idsIn_load; assumption.
Qed.

Lemma worldGenFrame_idsOk (w : World) (camera : Vector3) :
  idsOk w -> idsOk (worldGenFrame w camera).
Proof.
  intros Hw. unfold worldGenFrame. destruct (negb _); [exact Hw|].
  destruct (fold_left _ _ _) as [[loaded newObs] hasNew] eqn:E.
  assert (Hnew : idsIn loaded (obstacles w ++ newObs)).
  { apply (loadStep_fold_idsIn _ _ _ _ _ _ _ _ _ (eq_ind_r (idsIn _) Hw (app_nil_r _)) E). }
  destruct hasNew; [exact Hnew|].
  exact (idsIn_app_l _ _ _ Hnew).
Qed.

Lemma step_idsOk (w : World) (ev : Event) : idsOk w -> idsOk (step w ev).
Proof.
  intros Hw. destruct ev as [i | camera | seen | m | newSeed]; simpl.
  - unfold idsOk. rewrite controllerFrame_obstacles, controllerFrame_loadedChunks. exact Hw.
  - apply worldGenFrame_idsOk, Hw.
  - destruct (isPlaying _); exact Hw.
  - destruct (isPlaying _); exact Hw.
  - unfold startGame. destruct (isPlaying _); [exact Hw|].
    split; simpl; constructor.
Qed.

(** X30: in a session the ids of the obstacles stay distinct, and each one
    names a chunk that is recorded as loaded: a chunk is generated once, and
    inside a chunk the market, each house, the well and each tree carry ids
    of their own. *)
Theorem obstacle_ids_are_distinct (w : World) (evs : list Event) :
  idsOk w -> idsOk (run w evs).
Proof.
  revert w. induction evs as [|ev evs IH]; intros w Hw; simpl; [exact Hw|].
  apply IH, step_idsOk, Hw.
Qed.

Lemma obstacle_ids_are_distinct_witness :
  idsOk initialWorld /\
  idsOk (run initialWorld [EvStart 7; EvWorldGen (mkVector3 0 0 0)]).
Proof.
  assert (H : idsOk initialWorld) by (split; simpl; constructor).
  split; [exact H|].
  exact (obstacle_ids_are_distinct initialWorld [EvStart 7; EvWorldGen (mkVector3 0 0 0)] H).
Defined.
(** * Reload and the next shot *)

(** A fire attempt with a round in the gun takes the shot. *)
Lemma shotTaken_loaded (w : World) (i : FrameInput) :
  fireAttempt w i = true -> (0 < ammo (gameState w))%Z -> shotTaken w i.
Proof.
  intros Hf Ha. unfold shotTaken. cbv zeta.
  assert (Hs : shootingStep w i
               = (mkWorld
                    (addReward
                       (hitscan (mkRay (f_camera i) (f_look i)) (f_camera i) (seed w)
                          (damageMultiplier (gameState w)) (f_time i) (enemies w)).1.2
                       (setAmmo (gameState w) (ammo (gameState w) - 1)))
                    (hitscan (mkRay (f_camera i) (f_look i)) (f_camera i) (seed w)
                       (damageMultiplier (gameState w)) (f_time i) (enemies w)).1.1
                    (f_time i) (lastSpawn w) true (obstacles w) (loadedChunks w) (seed w),
                  playShoot
                  :: (hitscan (mkRay (f_camera i) (f_look i)) (f_camera i) (seed w)
                        (damageMultiplier (gameState w)) (f_time i) (enemies w)).2)).
  { unfold shootingStep. rewrite Hf, bool_decide_eq_true_2 by exact Ha.
    destruct (hitscan _ _ _ _ _ _) as [[nextEnemies reward] cues]. reflexivity. }
  split; [exact Hs|].
  intros Hp.
  destruct (controllerFrame_score w i Hp) as (_ & _ & Hammo). cbv zeta in Hammo.
  rewrite Hammo, (controllerFrame_lastShot w i Hp).
  rewrite (controllerFrame_playing w i Hp), Hs.
  split_and!; [|reflexivity..].
  cbn [fst gameState]. destruct (hitscan _ _ _ _ _ _).1.2; reflexivity.
Qed.

(** C5 (as amended): in the final variant a reload, whether automatic on a
    fire attempt with 0 ammunition or asked by the reload key while the
    captured count is below MAX_AMMO, refills the count to MAX_AMMO at once,
    in the same update; there is no delay and nothing blocks firing: any
    later frame with the button held takes a shot, that is, its shooting
    block resolves the hitscan, takes one round of the full magazine and
    records the time of the shot. *)
Theorem reload_is_immediate (w : World) (i i' : FrameInput) (seen : GameState) :
  isPlaying (gameState w) = true ->
  (fireAttempt w i = true -> ammo (gameState w) = 0%Z ->
   let w1 := (controllerFrame w i).1 in
   ammo (gameState w1) = MAX_AMMO /\
   (f_mouseDown i' = true -> f_time i <= f_time i' -> shotTaken w1 i')) /\
  ((ammo seen < MAX_AMMO)%Z ->
   let w1 := step w (EvKeyReload seen) in
   ammo (gameState w1) = MAX_AMMO /\
   (fireAttempt w i' = true -> shotTaken w1 i')).
Proof.
  intros Hp. split.
  - intros Hf H0. cbv zeta. destruct (frame_after_empty w i Hp Hf H0) as [Ha Hl].
    split; [exact Ha|]. intros Hm Ht.
    apply shotTaken_loaded; [|rewrite Ha; unfold MAX_AMMO; lia].
    unfold fireAttempt. rewrite Hm, Hl. cbn [andb]. apply gtb_true.
    apply fireAttempt_time in Hf. lra.
  - intros Hseen. cbv zeta. simpl. rewrite Hp. unfold reload.
    rewrite bool_decide_eq_true_2 by exact Hseen. simpl. split; [reflexivity|].
    intros Hf. apply shotTaken_loaded; [exact Hf | simpl; unfold MAX_AMMO; lia].
Qed.

Lemma reload_is_immediate_witness :
  isPlaying (gameState dry) = true /\
  ammo (gameState (controllerFrame dry (pullAt 1000)).1) = MAX_AMMO /\
  shotTaken (controllerFrame dry (pullAt 1000)).1 (pullAt 1001) /\
  ammo (gameState (step dry (EvKeyReload (gameState dry)))) = MAX_AMMO /\
  shotTaken (step dry (EvKeyReload (gameState dry))) (pullAt 1000).
Proof.
  pose proof (reload_is_immediate dry (pullAt 1000) (pullAt 1001) (gameState dry) eq_refl)
    as [Hauto _].
  pose proof (reload_is_immediate dry (pullAt 1000) (pullAt 1000) (gameState dry) eq_refl)
    as [_ Hkey].
  specialize (Hauto fireAttempt_dry eq_refl). cbv zeta in Hauto.
  assert (Hseen : (ammo (gameState dry) < MAX_AMMO)%Z) by (unfold dry, MAX_AMMO; simpl; lia).
  specialize (Hkey Hseen). cbv zeta in Hkey.
  destruct Hauto as [Ha Hshot]. destruct Hkey as [Hk Hshot'].
  split; [reflexivity|]. split; [exact Ha|].
  split; [apply Hshot; [reflexivity | unfold pullAt; simpl; lra]|].
  split; [exact Hk | exact (Hshot' fireAttempt_dry)].
Defined.

(** The frame at 1000 ms on the empty magazine leaves the game being
    played: no actor is there to attack. *)
Lemma dry_frame_playing :
  isPlaying (gameState (controllerFrame dry (pullAt 1000)).1) = true.
Proof.
  rewrite (controllerFrame_playing dry (pullAt 1000) eq_refl).
  rewrite (shootingStep_empty dry (pullAt 1000) fireAttempt_dry eq_refl).
  cbn [fst snd]. rewrite aiFrameStep_gameState. cbv zeta.
  unfold spawnStep. cbn [lastSpawn f_time pullAt dry]. unfold ENEMY_SPAWN_RATE.
  rewrite (proj2 (gtb_false (1000 - 1000) 2000)) by lra.
  cbn [enemies attackers]. simpl INR.
  rewrite (proj2 (gtb_false (0.2 * 0) 0)) by lra. reflexivity.
Qed.

(** C5, counterexample: the magazine is empty and the button is held at
    1000 ms.  That very frame leaves the count at MAX_AMMO, and the frame one
    millisecond later takes a shot: it ends with MAX_AMMO - 1 rounds, the
    time of the last shot at 1001 ms and the shot cue played.  No delay
    separates the reload from the refill, and none blocks the next shot. *)
Lemma reload_has_no_delay :
  shotOutcome dry (pullAt 1000) = EmptyFire /\
  ammo (gameState (controllerFrame dry (pullAt 1000)).1) = MAX_AMMO /\
  shotTaken (controllerFrame dry (pullAt 1000)).1 (pullAt 1001) /\
  ammo (gameState (controllerFrame (controllerFrame dry (pullAt 1000)).1 (pullAt 1001)).1)
  = (MAX_AMMO - 1)%Z /\
  lastShot (controllerFrame (controllerFrame dry (pullAt 1000)).1 (pullAt 1001)).1 = 1001 /\
  head (controllerFrame (controllerFrame dry (pullAt 1000)).1 (pullAt 1001)).2
  = Some playShoot.
Proof.
  destruct (frame_after_empty dry (pullAt 1000) eq_refl fireAttempt_dry eq_refl) as [Ha Hl].
  assert (Hshot : shotTaken (controllerFrame dry (pullAt 1000)).1 (pullAt 1001)).
  { apply shotTaken_loaded; [|rewrite Ha; unfold MAX_AMMO; lia].
    unfold fireAttempt. rewrite Hl. cbn [f_mouseDown pullAt andb f_time lastShot dry].
    apply gtb_true. unfold FIRE_RATE. lra. }
  split_and!.
  - apply shotOutcome_EmptyFire; [exact fireAttempt_dry | reflexivity].
  - exact Ha.
  - exact Hshot.
  - destruct Hshot as [_ Hframe]. destruct (Hframe dry_frame_playing) as (-> & _ & _).
    rewrite Ha. reflexivity.
  - destruct Hshot as [_ Hframe]. destruct (Hframe dry_frame_playing) as (_ & -> & _).
    reflexivity.
  - destruct Hshot as [_ Hframe]. destruct (Hframe dry_frame_playing) as (_ & _ & ->).
    reflexivity.
Qed.

(** * Streaming: what an update loads and what it evicts *)

Lemma chunkKey_inj (a b : Z * Z) : chunkKey a.1 a.2 = chunkKey b.1 b.2 -> a = b.
Proof.
  intros E.
  destruct (ownedBy_chunkOfId a.1 a.2 (chunkKey a.1 a.2 +:+ String ":" EmptyString))
    as [Ha _]; [eexists; reflexivity|].
  destruct (ownedBy_chunkOfId b.1 b.2 (chunkKey b.1 b.2 +:+ String ":" EmptyString))
    as [Hb _]; [eexists; reflexivity|].
  rewrite E, Hb in Ha. destruct a, b. simpl in *. congruence.
Qed.

Lemma zrange_NoDup (lo : Z) (n : nat) : NoDup (zrange lo n).
Proof.
  unfold zrange. apply NoDup_fmap_2_strong; [|apply NoDup_seq].
  intros a b _ _ E. lia.
Qed.

Lemma pairs_NoDup {A B : Type} (l1 : list A) (l2 : list B) :
  NoDup l1 -> NoDup l2 -> NoDup (flat_map (fun x => map (fun z => (x, z)) l2) l1).
Proof.
  intros H1 H2. induction H1 as [|x l1 Hx H1 IH]; simpl; [constructor|].
  apply NoDup_app. split_and!.
  - apply NoDup_fmap_2_strong; [|exact H2]. intros a b _ _ [= E]. exact E.
  - intros p Hp Hp'. apply list_elem_of_fmap in Hp as (z & -> & _).
    apply list_elem_of_In, in_flat_map in Hp' as (x' & Hx' & Hp').
    apply list_elem_of_In, list_elem_of_fmap in Hp' as (z' & [= <- _] & _).
    apply Hx, list_elem_of_In, Hx'.
  - exact IH.
Qed.

Lemma activeCoords_NoDup (cx cz : Z) : NoDup (activeCoords cx cz).
Proof. unfold activeCoords. cbv zeta. apply pairs_NoDup; apply zrange_NoDup. Qed.

(** Loading a chunk whose key is not among the later coordinates does not
    change which of them are still to load. *)
Lemma toLoad_after (c : Z * Z) (loaded : gset string) (coords : list (Z * Z)) :
  c ∉ coords ->
  filter (fun c' => chunkKey c'.1 c'.2 ∉ {[chunkKey c.1 c.2]} ∪ loaded) coords
  = filter (fun c' => chunkKey c'.1 c'.2 ∉ loaded) coords.
Proof.
  induction coords as [|d coords IH]; intros Hc; [reflexivity|].
  apply not_elem_of_cons in Hc as [Hd Hc].
  assert (Hk : chunkKey d.1 d.2 <> chunkKey c.1 c.2).
  { intros E. apply chunkKey_inj in E. congruence. }
  rewrite !filter_cons, IH by exact Hc.
  destruct (decide (chunkKey d.1 d.2 ∉ loaded)) as [Hn|Hn].
  - rewrite decide_True; [reflexivity|].
    intros [Hd'|Hd']%elem_of_union; [apply elem_of_singleton in Hd'|]; tauto.
  - rewrite decide_False; [reflexivity|].
    intros Hd'. apply Hn. intros Hin. apply Hd', elem_of_union. right. exact Hin.
Qed.

(** The loops of the final variant load the chunks that are still to load,
    in their order, and raise [hasNew] when there is one. *)
Lemma loadStep_fold_fresh (worldSeed : R) (coords : list (Z * Z)) (loaded : gset string)
    (newObs : list Obstacle) (hasNew : bool) :
  NoDup coords ->
  exists hasNew',
    fold_left (loadStep worldSeed) coords (loaded, newObs, hasNew)
    = (loaded ∪ list_to_set (map (fun c => chunkKey c.1 c.2) coords),
       newObs ++ flat_map (fun c => generateChunk c.1 c.2 worldSeed)
                   (filter (fun c => chunkKey c.1 c.2 ∉ loaded) coords),
       hasNew') /\
    (hasNew = true -> hasNew' = true) /\
    (hasNew' = false -> filter (fun c => chunkKey c.1 c.2 ∉ loaded) coords = []).
Proof.
  intros Hnd. revert loaded newObs hasNew.
  induction Hnd as [|c coords Hc Hnd IH]; intros loaded newObs hasNew.
  { exists hasNew. split; [|auto].
    apply triple_eq; [set_taut | simpl; rewrite app_nil_r; reflexivity | reflexivity]. }
  cbn [fold_left]. unfold loadStep at 2. rewrite filter_cons.
  destruct (decide (chunkKey c.1 c.2 ∉ loaded)) as [Hn|Hn].
  - rewrite bool_decide_eq_false_2 by exact Hn.
    destruct (IH ({[chunkKey c.1 c.2]} ∪ loaded)
                (newObs ++ generateChunk c.1 c.2 worldSeed) true)
      as (hasNew' & -> & Htrue & _).
    rewrite (Htrue eq_refl), toLoad_after by exact Hc.
    exists true. split; [|split; [auto | discriminate]].
    cbn [map list_to_set flat_map].
    apply triple_eq; [set_taut | | reflexivity].
    symmetry. apply app_assoc.
  - rewrite bool_decide_eq_true_2 by (destruct (decide (chunkKey c.1 c.2 ∈ loaded)); tauto).
    destruct (IH loaded newObs hasNew) as (hasNew' & -> & Htrue & Hfalse).
    exists hasNew'. split; [|split; assumption].
    assert (Hin : chunkKey c.1 c.2 ∈ loaded)
      by (destruct (decide (chunkKey c.1 c.2 ∈ loaded)); tauto).
    cbn [map list_to_set].
    apply triple_eq; [set_taut | reflexivity | reflexivity].
Qed.

(** The loops of the earlier variant do the same, and collect the active
    keys. *)
Lemma earlier_loadStep_fold_fresh (coords : list (Z * Z)) (active loaded : gset string)
    (newObstacles : list Earlier.Obstacle) :
  NoDup coords ->
  fold_left Earlier.loadStep coords (active, loaded, newObstacles)
  = (active ∪ list_to_set (map (fun c => chunkKey c.1 c.2) coords),
     loaded ∪ list_to_set (map (fun c => chunkKey c.1 c.2) coords),
     newObstacles ++ flat_map (fun c => Earlier.generateChunk c.1 c.2)
                       (filter (fun c => chunkKey c.1 c.2 ∉ loaded) coords)).
Proof.
  intros Hnd. revert active loaded newObstacles.
  induction Hnd as [|c coords Hc Hnd IH]; intros active loaded newObstacles.
  { apply triple_eq; [set_taut | set_taut | simpl; rewrite app_nil_r; reflexivity]. }
  cbn [fold_left]. unfold Earlier.loadStep at 2. rewrite filter_cons.
  destruct (decide (chunkKey c.1 c.2 ∉ loaded)) as [Hn|Hn].
  - rewrite bool_decide_eq_false_2 by exact Hn.
    rewrite IH, toLoad_after by exact Hc.
    cbn [map list_to_set flat_map].
    apply triple_eq; [set_taut | set_taut |].
    symmetry. apply app_assoc.
  - assert (Hin : chunkKey c.1 c.2 ∈ loaded)
      by (destruct (decide (chunkKey c.1 c.2 ∈ loaded)); tauto).
    rewrite bool_decide_eq_true_2 by exact Hin.
    rewrite IH. cbn [map list_to_set].
    apply triple_eq; [set_taut | set_taut | reflexivity].
Qed.

(** A chunk of the earlier variant always holds rocks. *)
Lemma earlier_generateChunk_nonempty (cx cz : Z) : Earlier.generateChunk cx cz <> [].
Proof.
  unfold Earlier.generateChunk. lazy zeta.
  match goal with
  | |- _ ++ flat_map ?f (Earlier.indices ?n) ++ _ <> [] =>
      assert (Hn : (2 <= n)%Z);
      [|destruct (Z.to_nat n) as [|k] eqn:Hk; [lia|];
        unfold Earlier.indices; rewrite Hk; simpl;
        intros E; apply app_eq_nil in E as [_ E]; discriminate]
  end.
  match goal with
  | |- (2 <= floorZ (seededRandom ?a * 5) + 2)%Z =>
      pose proof (seededRandom_range a) as Hr;
      pose proof (floorZ_range (seededRandom a * 5) 0 5) as Hf
  end.
  simpl in Hf. specialize (Hf ltac:(lra)). lia.
Qed.

Lemma flat_map_nonempty {A B : Type} (f : A -> list B) (l : list A) :
  (forall a, f a <> []) -> (flat_map f l = [] <-> l = []).
Proof.
  intros Hf. split; [|intros ->; reflexivity].
  destruct l as [|a l]; [reflexivity|]. simpl. intros E.
  apply app_eq_nil in E as [E _]. destruct (Hf a E).
Qed.

(** C4 (as amended): eviction exists only in the earlier variant and runs
    only in an update that enters another chunk and generates at least one
    obstacle.  The obstacles an update generates are those of the active
    chunks whose key is not loaded, in the order of the loops; in the
    earlier variant there are some exactly when such a chunk exists.  After
    an evicting update the previous obstacles kept are exactly those whose
    id embeds a chunk coordinate within Chebyshev radius RENDER_DISTANCE + 1
    of the current chunk, in their order and followed by the new obstacles;
    every obstacle of the live list then embeds a coordinate within that
    radius, and the loaded keys are exactly the keys embedded in the live
    obstacles' ids plus the active keys.  An update of that variant that
    enters another chunk and generates nothing keeps every obstacle and
    adds the active keys, and a frame in the chunk of the last update
    changes nothing.  The final variant never evicts: an update appends the
    obstacles it generates and adds the active keys to the loaded ones. *)
Theorem streaming_keeps_or_evicts (w : World) (camera : Vector3)
    (s : Earlier.Streaming) (player : Vector3) :
  (let cx := chunkOf (v_x camera) in
   let cz := chunkOf (v_z camera) in
   let w' := worldGenFrame w camera in
   (isPlaying (gameState w) = true ->
    obstacles w'
    = obstacles w ++ flat_map (fun c => generateChunk c.1 c.2 (seed w))
                       (chunksToLoad (loadedChunks w) cx cz) /\
    loadedChunks w' = loadedChunks w ∪ activeKeys cx cz) /\
   (isPlaying (gameState w) = false -> w' = w))
  /\
  (let cx := chunkOf (v_x player) in
   let cz := chunkOf (v_z player) in
   let s' := Earlier.worldGeneratorFrame s player in
   let toLoad := chunksToLoad (Earlier.loadedChunks s) cx cz in
   let newObstacles := flat_map (fun c => Earlier.generateChunk c.1 c.2) toLoad in
   (newObstacles = [] <-> toLoad = []) /\
   (Earlier.lastChunk s = Some (cx, cz) -> s' = s) /\
   (Earlier.lastChunk s <> Some (cx, cz) ->
    Earlier.lastChunk s' = Some (cx, cz) /\
    (newObstacles = [] ->
     Earlier.obstacles s' = Earlier.obstacles s /\
     Earlier.loadedChunks s' = Earlier.loadedChunks s ∪ activeKeys cx cz) /\
    (newObstacles <> [] ->
     Earlier.obstacles s'
     = filter (fun obs => inReach cx cz (Earlier.o_id obs)) (Earlier.obstacles s)
       ++ newObstacles /\
     (forall obs, obs ∈ Earlier.obstacles s' -> inReach cx cz (Earlier.o_id obs)) /\
     Earlier.loadedChunks s' =
       list_to_set (map (fun obs => Earlier.keyOfId (Earlier.o_id obs)) (Earlier.obstacles s'))
       ∪ activeKeys cx cz))).
Proof.
  split.
  - cbv zeta. split.
    + intros Hp. unfold worldGenFrame. rewrite Hp. lazy beta iota zeta delta [negb].
      destruct (loadStep_fold_fresh (seed w)
                  (activeCoords (chunkOf (v_x camera)) (chunkOf (v_z camera)))
                  (loadedChunks w) [] false (activeCoords_NoDup _ _))
        as (hasNew' & -> & _ & Hnone).
      cbn [obstacles loadedChunks app]. unfold chunksToLoad.
      split; [|reflexivity].
      destruct hasNew'; [reflexivity|].
      rewrite (Hnone eq_refl). cbn [flat_map]. rewrite app_nil_r. reflexivity.
    + intros Hp. unfold worldGenFrame. rewrite Hp. reflexivity.
  - cbv zeta.
    set (cx := chunkOf (v_x player)). set (cz := chunkOf (v_z player)).
    split; [apply flat_map_nonempty; intros c; apply earlier_generateChunk_nonempty|].
    split.
    { intros Hlast. unfold Earlier.worldGeneratorFrame. fold cx cz.
      rewrite bool_decide_eq_true_2 by exact Hlast. reflexivity. }
    intros Hmoved. unfold Earlier.worldGeneratorFrame. fold cx cz.
    rewrite bool_decide_eq_false_2 by exact Hmoved.
    rewrite (earlier_loadStep_fold_fresh (activeCoords cx cz) ∅ (Earlier.loadedChunks s) []
               (activeCoords_NoDup cx cz)).
    cbn [app]. fold (chunksToLoad (Earlier.loadedChunks s) cx cz).
    assert (Hfrom : forall obs,
              obs ∈ flat_map (fun c => Earlier.generateChunk c.1 c.2)
                      (chunksToLoad (Earlier.loadedChunks s) cx cz) ->
              inReach cx cz (Earlier.o_id obs) /\
              Earlier.keyOfId (Earlier.o_id obs) ∈ activeKeys cx cz).
    { intros obs Hobs. apply fresh_obstacle_active.
      apply list_elem_of_In, in_flat_map in Hobs as (c & Hc & Hobs).
      exists c. split; [|apply list_elem_of_In, Hobs].
      apply list_elem_of_In in Hc. unfold chunksToLoad in Hc.
      apply list_elem_of_filter in Hc as [_ Hc]. exact Hc. }
    destruct (flat_map _ (chunksToLoad _ _ _)) as [|o extra] eqn:Hnew;
      cbn [Earlier.obstacles Earlier.loadedChunks Earlier.lastChunk].
    + split; [reflexivity|]. split; [|intros H; destruct (H eq_refl)].
      intros _. split; [reflexivity|]. unfold activeKeys. reflexivity.
    + split; [reflexivity|]. split; [discriminate|]. intros _.
      rewrite (list_filter_iff
                 (fun obs => Earlier.keeps cx cz obs = true)
                 (fun obs => inReach cx cz (Earlier.o_id obs)))
        by (intros obs; apply keeps_inReach).
      split; [reflexivity|]. split.
      * intros obs Hobs. apply elem_of_app in Hobs as [Hobs | Hobs].
        -- apply list_elem_of_filter in Hobs as [Hobs _]. exact Hobs.
        -- apply Hfrom. exact Hobs.
      * replace (∅ ∪ list_to_set (map (fun c => chunkKey c.1 c.2) (activeCoords cx cz)))
          with (activeKeys cx cz) by (unfold activeKeys; set_taut).
        apply set_eq. intros k. rewrite map_app, list_to_set_app_L, !elem_of_union.
        split; [tauto|]. intros [[Hk | Hk] | Hk]; [tauto | | tauto].
        right. apply elem_of_list_to_set in Hk.
        apply list_elem_of_fmap in Hk as (obs & -> & Hobs). apply Hfrom. exact Hobs.
Qed.

Lemma activeCoords_nonempty (cx cz : Z) : activeCoords cx cz <> [].
Proof.
  unfold activeCoords, zrange. cbv zeta.
  change (Z.to_nat (2 * RENDER_DISTANCE + 1)) with 5%nat.
  cbn [seq map flat_map app]. discriminate.
Qed.

Lemma farRock_out_of_reach : ~ inReach 0 0 (Earlier.o_id farRock).
Proof.
  unfold inReach.
  replace (chunkOfId (Earlier.o_id farRock)) with (Some (10%Z, 0%Z)) by (vm_compute; reflexivity).
  unfold withinRadius, RENDER_DISTANCE. simpl. lia.
Qed.

Lemma streaming_keeps_or_evicts_witness :
  Earlier.lastChunk strayed <> Some (chunkOf 0, chunkOf 0) /\
  farRock ∈ Earlier.obstacles strayed /\
  (farRock ∉ Earlier.obstacles (Earlier.worldGeneratorFrame strayed (mkVector3 0 1.7 0))) /\
  Earlier.obstacles (Earlier.worldGeneratorFrame strayed (mkVector3 0 1.7 0)) <> [].
Proof.
  assert (Hlast : Earlier.lastChunk strayed <> Some (chunkOf 0, chunkOf 0)) by discriminate.
  split; [exact Hlast|]. split; [left|].
  destruct (streaming_keeps_or_evicts roamed (mkVector3 0 1.7 0) strayed (mkVector3 0 1.7 0))
    as [_ (Hnone & _ & Hmoved)].
  destruct (Hmoved Hlast) as (_ & _ & Hevict).
  assert (Hnew : flat_map (fun c => Earlier.generateChunk c.1 c.2)
                   (chunksToLoad (Earlier.loadedChunks strayed)
                      (chunkOf (v_x (mkVector3 0 1.7 0))) (chunkOf (v_z (mkVector3 0 1.7 0))))
                 <> []).
  { intros E. apply Hnone in E. revert E. unfold chunksToLoad.
    pose proof (activeCoords_nonempty (chunkOf (v_x (mkVector3 0 1.7 0)))
                  (chunkOf (v_z (mkVector3 0 1.7 0)))) as Hne.
    destruct (activeCoords _ _) as [|c rest]; [destruct (Hne eq_refl)|].
    rewrite filter_cons, decide_True by apply not_elem_of_empty. discriminate. }
  destruct (Hevict Hnew) as (Hobs & Hall & _).
  split.
  - intros Hin. apply Hall in Hin. cbn [v_x v_z] in Hin. rewrite chunkOf_origin in Hin.
    exact (farRock_out_of_reach Hin).
  - rewrite Hobs. intros E. apply app_eq_nil in E as [_ E]. exact (Hnew E).
Defined.
